(** * The growable Buffer (mutt/buffer.c) and the expando renderer
      (mutt_expando_format, muttlib.c)

    The C code is embedded shallowly.  Integers of a fixed width are [Z]
    with the conversion to their type written out ([size_t], [int]); a
    character array is a [list ascii]; a pointer into an array is the
    array together with an offset.  An access outside an object, or a
    division by zero, makes the embedded function return [Fault].

    A template is the list of its characters before the terminating NUL; a
    load at or behind the terminator yields NUL.  The products [pad * pl],
    [pad * pw] and [c * pl] of two [int]s are taken in [Z].  So the model
    follows the code on the calls that load nothing from behind the
    terminator of the template and whose products fit an [int].  What lies
    outside the two source files (the string-size constants, the flag bits,
    the width helpers, the tokenizer, the filter bridge, the callback and
    the option) is a field of the record [collaborators]; the pointer a
    callback returns is the number of characters of [src] it has
    consumed. *)

From Stdlib Require Import String Ascii ZArith List Bool Lia.
Import ListNotations.
Local Open Scope char_scope.
Local Open Scope Z_scope.

(** ** Machine integers *)

(** Conversion to [size_t] (64 bits, unsigned). *)
Definition size_t (x : Z) : Z := x mod 2 ^ 64.

(** Conversion to [int] (32 bits, two's complement). *)
Definition int (x : Z) : Z := (x + 2 ^ 31) mod 2 ^ 32 - 2 ^ 31.

(** ** Outcomes of a call *)

Inductive result (A : Type) : Type :=
| Ok (a : A)
| Fault     (* undefined behaviour: access outside an object, division by zero *)
| Timeout.  (* the recursion budget of the model is used up *)
Arguments Ok {A} a.
Arguments Fault {A}.
Arguments Timeout {A}.

Definition bind {A B : Type} (r : result A) (k : A -> result B) : result B :=
  match r with
  | Ok a => k a
  | Fault => Fault
  | Timeout => Timeout
  end.

Notation "x <- r ;; k" := (bind r (fun x => k))
  (at level 61, r at next level, right associativity).

(** ** Character arrays *)

Definition block := list ascii.

Definition len (s : list ascii) : Z := Z.of_nat (length s).

Definition is_nul (c : ascii) : bool := Ascii.eqb c zero.

(** [memcpy m i s]: the bytes [s] stored at [m + i]. *)
Definition memcpy (m : block) (i : Z) (s : list ascii) : result block :=
  if (0 <=? i) && (i + len s <=? len m)
  then Ok (firstn (Z.to_nat i) m ++ s ++ skipn (Z.to_nat i + length s) m)
  else Fault.

(** [poke m i c]: the store [m[i] = c]. *)
Definition poke (m : block) (i : Z) (c : ascii) : result block := memcpy m i [c].

(** [peek m i]: the load [m[i]]. *)
Definition peek (m : block) (i : Z) : ascii := nth (Z.to_nat i) m zero.

(** [memset0 m n]: [memset(m, 0, n)]. *)
Definition memset0 (m : block) (n : Z) : result block :=
  if (0 <=? n) && (n <=? len m)
  then Ok (repeat zero (Z.to_nat n) ++ skipn (Z.to_nat n) m)
  else Fault.

(** The C string held in an array: the bytes before the first NUL. *)
Fixpoint cstr (m : list ascii) : list ascii :=
  match m with
  | [] => []
  | c :: r => if is_nul c then [] else c :: cstr r
  end.

(** ** mutt/buffer.c *)

(** [struct Buffer].  [data] is NULL ([None]) or the allocated array;
    [dptr] is kept as its offset from [data], so that the pointer [dptr]
    is NULL exactly when [data] is NULL and the offset is 0; [dsize] is the
    recorded capacity. *)
Record Buffer : Type := mkBuffer {
  data : option block;
  dptr : Z;
  dsize : Z
}.

Definition dptr_is_null (buf : Buffer) : bool :=
  match data buf with
  | None => dptr buf =? 0
  | Some _ => false
  end.

(** Modelled from the spec: mutt_str_strdup (mutt/string.c), by which
    [from] duplicates the seed: a copy of the string with its terminator. *)
Definition mutt_str_strdup (s : option (list ascii)) : option block :=
  match s with
  | None => None
  | Some s => Some (s ++ [zero])
  end.

(** Modelled from the spec: mutt_str_strlen (mutt/string.c), the content
    length of a string; 0 for a null pointer. *)
Definition mutt_str_strlen (s : option (list ascii)) : Z :=
  match s with
  | None => 0
  | Some s => len s
  end.

(** The bytes a pointer to an array gives access to; none for NULL. *)
Definition block_of (p : option block) : block :=
  match p with
  | Some m => m
  | None => []
  end.

Section BufferOps.

(** The bytes found in freshly allocated memory are indeterminate. *)
Variable heap_junk : nat -> ascii.

(** Modelled from the spec: mutt_mem_realloc (mutt/memory.c), allocation
    succeeding (a failure ends the process): size 0 frees the array;
    otherwise the old bytes are kept up to the new size and the bytes after
    them are indeterminate. *)
Definition mutt_mem_realloc (p : option block) (siz : Z) : option block :=
  if siz =? 0 then None
  else
    let old := block_of p in
    Some (firstn (Z.to_nat siz) old
          ++ map heap_junk (seq (length old) (Z.to_nat siz - length old))).

Definition mutt_buffer_init (buf : Buffer) : Buffer :=
  {| data := None; dptr := 0; dsize := 0 |}.

Definition mutt_buffer_reinit (buf : Buffer) : Buffer :=
  mutt_buffer_init {| data := None; dptr := dptr buf; dsize := dsize buf |}.

Definition mutt_buffer_seek (buf : Buffer) (off : Z) : Buffer :=
  {| data := data buf; dptr := off; dsize := dsize buf |}.

Definition mutt_buffer_rewind (buf : Buffer) : Buffer :=
  mutt_buffer_seek buf 0.

Definition mutt_buffer_reset (buf : Buffer) : result Buffer :=
  match data buf with
  | None =>
      if dsize buf =? 0 then Ok (mutt_buffer_rewind buf) else Fault
  | Some m =>
      m' <- memset0 m (dsize buf) ;;
      Ok (mutt_buffer_rewind {| data := Some m'; dptr := dptr buf; dsize := dsize buf |})
  end.

Definition mutt_buffer_from (buf : Buffer) (seed : option (list ascii)) : Buffer :=
  match seed with
  | None => buf
  | Some s =>
      let buf := mutt_buffer_init buf in
      let buf := {| data := mutt_str_strdup seed; dptr := dptr buf; dsize := dsize buf |} in
      let buf := {| data := data buf; dptr := dptr buf; dsize := size_t (mutt_str_strlen seed) |} in
      mutt_buffer_seek buf (dsize buf)
  end.

(** The growth step shared by [mutt_buffer_add] and [mutt_buffer_printf]:
    [dsize += inc; mutt_mem_realloc(&data, dsize); mutt_buffer_seek(buf, offset)]. *)
Definition grow (buf : Buffer) (inc : Z) (offset : Z) : Buffer :=
  let dsize' := size_t (dsize buf + inc) in
  mutt_buffer_seek
    {| data := mutt_mem_realloc (data buf) dsize'; dptr := dptr buf; dsize := dsize' |}
    offset.

(** [mutt_buffer_add(buf, s, len)] for a non-null [buf]; [s] is NULL or the
    [len] bytes it points to. *)
Definition mutt_buffer_add (buf : Buffer) (s : option (list ascii)) : result Buffer :=
  match s with
  | None => Ok buf
  | Some s =>
      let buf :=
        if dptr buf + len s + 1 >? dsize buf
        then grow buf (if len s <? 128 then 128 else len s + 1) (dptr buf)
        else buf in
      if dptr_is_null buf then Ok buf
      else
        match data buf with
        | None => Fault
        | Some m =>
            m <- memcpy m (dptr buf) s ;;
            let dptr' := dptr buf + len s in
            m <- poke m dptr' zero ;;
            Ok {| data := Some m; dptr := dptr'; dsize := dsize buf |}
        end
  end.

Definition mutt_buffer_addstr (buf : Buffer) (s : option (list ascii)) : result Buffer :=
  mutt_buffer_add buf s.

Definition mutt_buffer_addch (buf : Buffer) (c : ascii) : result Buffer :=
  mutt_buffer_add buf (Some [c]).

(** [vsnprintf(data + at, size, fmt, ap)] where the format and its arguments
    expand to [text]: at most [size - 1] bytes of it and a terminator are
    stored; nothing is stored when [size] is 0. *)
Definition vsnprintf (d : option block) (at_ : Z) (size : Z) (text : list ascii)
  : result (option block) :=
  if size =? 0 then Ok d
  else
    match d with
    | None => Fault
    | Some m =>
        m <- memcpy m at_ (firstn (Z.to_nat (Z.min (len text) (size - 1))) text ++ [zero]) ;;
        Ok (Some m)
    end.

(** [mutt_buffer_printf(buf, fmt, ...)] for a non-null [buf], the format and
    its arguments expanding to [text]; the result carries the returned
    length. *)
Definition mutt_buffer_printf (buf : Buffer) (text : list ascii) : result (Buffer * Z) :=
  let buf := if dptr_is_null buf then mutt_buffer_rewind buf else buf in
  let doff := int (dptr buf) in
  let blen := int (dsize buf - doff) in
  let '(buf, blen) :=
    if blen =? 0 then (grow buf 128 doff, 128) else (buf, blen) in
  let len0 := int (len text) in
  d <- vsnprintf (data buf) (dptr buf) (size_t blen) text ;;
  let buf := {| data := d; dptr := dptr buf; dsize := dsize buf |} in
  r <- (if len0 >=? blen then
          let len1 := int (len0 + 1) in
          let blen := int (len1 - blen) in
          let blen := if blen <? 128 then 128 else blen in
          let buf := grow buf blen doff in
          d <- vsnprintf (data buf) (dptr buf) (size_t len1) text ;;
          Ok ({| data := d; dptr := dptr buf; dsize := dsize buf |}, int (len text))
        else Ok (buf, len0)) ;;
  let '(buf, len2) := r in
  Ok (if len2 >? 0
      then {| data := data buf; dptr := dptr buf + len2; dsize := dsize buf |}
      else buf, len2).

End BufferOps.

(** The operations of the Buffer interface, as calls. *)
Inductive buffer_op : Type :=
| OpInit
| OpReinit
| OpReset
| OpAdd (s : option (list ascii))
| OpAddstr (s : option (list ascii))
| OpAddch (c : ascii)
| OpPrintf (text : list ascii)
| OpFrom (seed : option (list ascii))
| OpRewind.

Definition run_op (heap_junk : nat -> ascii) (op : buffer_op) (buf : Buffer)
  : result Buffer :=
  match op with
  | OpInit => Ok (mutt_buffer_init buf)
  | OpReinit => Ok (mutt_buffer_reinit buf)
  | OpReset => mutt_buffer_reset buf
  | OpAdd s => mutt_buffer_add heap_junk buf s
  | OpAddstr s => mutt_buffer_addstr heap_junk buf s
  | OpAddch c => mutt_buffer_addch heap_junk buf c
  | OpPrintf text => r <- mutt_buffer_printf heap_junk buf text ;; Ok (fst r)
  | OpFrom seed => Ok (mutt_buffer_from buf seed)
  | OpRewind => Ok (mutt_buffer_rewind buf)
  end.

(** ** muttlib.c: mutt_expando_format *)

(** [sizeof(buf)] for the parameter [char *buf] (LP64). *)
Definition sizeof_char_ptr : Z := 8.

(** What mutt_expando_format uses but muttlib.c does not define: the array
    sizes SHORT_STRING, STRING and LONG_STRING, the bits of enum FormatFlag,
    the width helpers, the field callback with its opaque data, the
    tokenizer with the macro MoreArgs, the filter bridge, the option
    OPT_ARROW_CURSOR, and the indeterminate bytes of the local array [tmp]
    and the strings lying in [if_str] and [else_str] when the function is
    entered.

    - [mutt_mb_charlen s] is the pair (return value, [*width]).
    - [mutt_wstr_trunc s maxlen maxwid] is the pair (return value, [*width]).
    - [callback tmp col cols ch src prefix if_str else_str flags] is the
      string the callback leaves in [tmp] (whose string before the call it is
      given) and the number of bytes of [src] its returned pointer skips.
    - [mutt_extract_token s] is the word extracted from the text at
      [srcbuf.dptr] and the text at [srcbuf.dptr] afterwards.
    - [mutt_create_filter command] is [None] when no process could be
      started (pid -1), else the bytes its output stream delivers before end
      of file or a read error, and the status [mutt_wait_filter] returns. *)
Record collaborators : Type := {
  SHORT_STRING : Z;
  STRING : Z;
  LONG_STRING : Z;
  MUTT_FORMAT_OPTIONAL : Z;
  MUTT_FORMAT_ARROWCURSOR : Z;
  MUTT_FORMAT_NOFILTER : Z;
  mutt_mb_charlen : list ascii -> Z * Z;
  mutt_strwidth : list ascii -> Z;
  mutt_wstr_trunc : list ascii -> Z -> Z -> Z * Z;
  callback : list ascii -> Z -> Z -> ascii -> list ascii -> list ascii ->
             list ascii -> list ascii -> Z -> list ascii * nat;
  mutt_extract_token : list ascii -> list ascii * list ascii;
  MoreArgs : list ascii -> bool;
  mutt_create_filter : list ascii -> option (list ascii * Z);
  OPT_ARROW_CURSOR : bool;
  stack_tmp : block;
  stack_if_str : list ascii;
  stack_else_str : list ascii
}.

(** [*src]: the terminator once the string is exhausted.  Reading further
    than the terminator is undefined in C; the model reads NUL there. *)
Definition hd0 (s : list ascii) : ascii := hd zero s.

(** [n] bytes read at [s], with the same convention past the terminator. *)
Definition read_bytes (n : Z) (s : list ascii) : list ascii :=
  firstn (Z.to_nat n) (s ++ repeat zero (Z.to_nat n)).

Definition advance (n : Z) (s : list ascii) : list ascii := skipn (Z.to_nat n) s.

Definition isdigit (c : ascii) : bool :=
  (48 <=? Z.of_nat (nat_of_ascii c)) && (Z.of_nat (nat_of_ascii c) <=? 57).

(** tolower in the C locale, as mutt_str_strlower applies it. *)
Definition tolower (c : ascii) : ascii :=
  let n := nat_of_ascii c in
  if ((65 <=? n) && (n <=? 90))%nat then ascii_of_nat (n + 32) else c.

(** The locals of mutt_expando_format that live across the main loop. *)
Record scan_state : Type := {
  st_src : list ascii;
  st_wptr : Z;          (* wptr - buf *)
  st_wlen : Z;
  st_col : Z;
  st_flags : Z;
  st_prefix : list ascii;
  st_if_str : list ascii;
  st_else_str : list ascii;
  st_tmp : block;
  st_buf : block        (* the memory at buf *)
}.

Definition set_src (st : scan_state) (s : list ascii) : scan_state :=
  {| st_src := s; st_wptr := st_wptr st; st_wlen := st_wlen st; st_col := st_col st;
     st_flags := st_flags st; st_prefix := st_prefix st; st_if_str := st_if_str st;
     st_else_str := st_else_str st; st_tmp := st_tmp st; st_buf := st_buf st |}.

Definition set_tmp (st : scan_state) (m : block) : scan_state :=
  {| st_src := st_src st; st_wptr := st_wptr st; st_wlen := st_wlen st; st_col := st_col st;
     st_flags := st_flags st; st_prefix := st_prefix st; st_if_str := st_if_str st;
     st_else_str := st_else_str st; st_tmp := m; st_buf := st_buf st |}.

Definition set_buf (st : scan_state) (m : block) : scan_state :=
  {| st_src := st_src st; st_wptr := st_wptr st; st_wlen := st_wlen st; st_col := st_col st;
     st_flags := st_flags st; st_prefix := st_prefix st; st_if_str := st_if_str st;
     st_else_str := st_else_str st; st_tmp := st_tmp st; st_buf := m |}.

(** [wptr = buf + wlen'], [wlen = wlen'], [col = col']. *)
Definition set_cursor (st : scan_state) (wptr' wlen' col' : Z) : scan_state :=
  {| st_src := st_src st; st_wptr := wptr'; st_wlen := wlen'; st_col := col';
     st_flags := st_flags st; st_prefix := st_prefix st; st_if_str := st_if_str st;
     st_else_str := st_else_str st; st_tmp := st_tmp st; st_buf := st_buf st |}.

(** [memcpy(wptr, s, n); wptr += n; wlen += n; col += width]. *)
Definition emit (st : scan_state) (s : list ascii) (width : Z) : result scan_state :=
  m <- memcpy (st_buf st) (st_wptr st) s ;;
  Ok (set_buf (set_cursor st (st_wptr st + len s) (size_t (st_wlen st + len s))
                          (size_t (st_col st + width))) m).

(** [while (guard) { *wptr++ = ' '; wlen++; col++; }]; every round adds one
    to [wlen], so [n] rounds are enough once [n] reaches [buflen]. *)
Fixpoint pre_space (n : nat) (guard : scan_state -> bool) (st : scan_state)
  : result scan_state :=
  if guard st then
    match n with
    | O => Timeout
    | S n => st <- emit st [" "] 1 ;; pre_space n guard st
    end
  else Ok st.

(** [while (pad-- > 0) { memcpy(wptr, src, pl); wptr += pl; wlen += pl; col += pw; }] *)
Fixpoint fill (pad : nat) (s : list ascii) (pw : Z) (st : scan_state) : result scan_state :=
  match pad with
  | O => Ok st
  | S pad => st <- emit st s pw ;; fill pad s pw st
  end.

(** The rewrite of [%?x?y&z?] into [%<x?y&z>], on the text from the first
    [?] on. *)
Fixpoint replace_question (s : list ascii) : list ascii :=
  match s with
  | [] => []
  | c :: r => if Ascii.eqb c "?" then ">" :: r else c :: replace_question r
  end.

Fixpoint skip_to_question (s : list ascii) : list ascii :=
  match s with
  | [] => []
  | c :: r => if Ascii.eqb c "?" then c :: replace_question r else c :: skip_to_question r
  end.

Definition legacy_rewrite (s : list ascii) : list ascii :=
  skip_to_question ("<" :: tl s).

(** [while (count < sizeof(prefix) && *src != '?') { *cp++ = *src++; count++; }] *)
Fixpoint eat_optional_prefix (n : nat) (s : list ascii) : list ascii * list ascii :=
  match n with
  | O => ([], s)
  | S n =>
      if Ascii.eqb (hd0 s) "?" then ([], s)
      else let '(p, r) := eat_optional_prefix n (tl s) in (hd0 s :: p, r)
  end.

(** [while (count < sizeof(prefix) && (isdigit(src[0]) || *src == '.' ||
    *src == '-' || *src == '=')) { *cp++ = *src++; count++; }] *)
Fixpoint eat_format_prefix (n : nat) (s : list ascii) : list ascii * list ascii :=
  match n with
  | O => ([], s)
  | S n =>
      let c := hd0 s in
      if isdigit c || Ascii.eqb c "." || Ascii.eqb c "-" || Ascii.eqb c "="
      then let '(p, r) := eat_format_prefix n (tl s) in (c :: p, r)
      else ([], s)
  end.

(** The loop that eats the `if' or the `else' part into an array of [size]
    bytes; [acc] is what has been stored from [cp] on.  [count] grows in
    every round, so [size] rounds are enough. *)
Fixpoint eat_branch (n : nat) (size count lrbalance : Z) (s acc : list ascii)
  : list ascii * list ascii * Z :=
  match n with
  | O => (acc, s, lrbalance)
  | S n =>
      if (lrbalance >? 0) && (count <? size) && negb (is_nul (hd0 s)) then
        if Ascii.eqb (hd0 s) "%" && Ascii.eqb (hd0 (tl s)) ">" then
          eat_branch n size (count + 2) lrbalance (tl (tl s)) (acc ++ [hd0 s; hd0 (tl s)])
        else
          let '(acc1, s1, lr1) :=
            if Ascii.eqb (hd0 s) "\" then (acc ++ [hd0 (tl s)], tl (tl s), lrbalance)
            else if Ascii.eqb (hd0 s) "%" && Ascii.eqb (hd0 (tl s)) "<"
                 then (acc, s, lrbalance + 1)
            else if Ascii.eqb (hd0 s) ">" then (acc, s, lrbalance - 1)
            else (acc, s, lrbalance) in
          if lr1 =? 0 then (acc1, s1, lr1)
          else if (lr1 =? 1) && Ascii.eqb (hd0 s1) "&" then (acc1, s1, lr1)
          else eat_branch n size (count + 1) lr1 (tl s1) (acc1 ++ [hd0 s1])
      else (acc, s, lrbalance)
  end.

(** [while (ch == '_' || ch == ':') { ...; ch = *src++; }] *)
Fixpoint modifiers (ch : ascii) (s : list ascii) (lower nodots : bool)
  : ascii * list ascii * bool * bool :=
  if Ascii.eqb ch "_" || Ascii.eqb ch ":" then
    let lower := lower || Ascii.eqb ch "_" in
    let nodots := nodots || (negb (Ascii.eqb ch "_") && Ascii.eqb ch ":") in
    match s with
    | [] => (zero, [], lower, nodots)
    | c :: r => modifiers c r lower nodots
    end
  else (ch, s, lower, nodots).

(** The quoting loop of the filter path over the string at [tmp]. *)
Definition shell_quote (s : list ascii) : list ascii :=
  flat_map (fun p => if Ascii.eqb p "'" then ["'"; "034"; "'"; "034"; "'"] else [p]) s.

(** The scan backwards for backslashes:
    [while (off > 0 && src[off - 2] == '\\') off--;] *)
Fixpoint scan_backslashes (n : nat) (src : list ascii) (off : Z) : result Z :=
  if off >? 0 then
    if off - 2 <? 0 then Fault
    else if Ascii.eqb (peek src (off - 2)) "\" then
      match n with
      | O => Timeout
      | S n => scan_backslashes n src (off - 1)
      end
    else Ok off
  else Ok off.

(** [while ((n > 0) && (buf[n - 1] == '\n' || buf[n - 1] == '\r')) buf[--n] = '\0';] *)
Fixpoint strip_newlines (k : nat) (buf : block) (n : Z) : result (block * Z) :=
  if (n >? 0) && (Ascii.eqb (peek buf (n - 1)) "010" || Ascii.eqb (peek buf (n - 1)) "013")
  then
    match k with
    | O => Timeout
    | S k => buf <- poke buf (n - 1) zero ;; strip_newlines k buf (n - 1)
    end
  else Ok (buf, n).

(** What a directive header leaves in the locals. *)
Record directive : Type := {
  d_ch : ascii;
  d_src : list ascii;
  d_flags : Z;
  d_prefix : list ascii;
  d_if_str : list ascii;
  d_else_str : list ascii
}.

Inductive control : Type :=
| Continue (st : scan_state)
| Break (st : scan_state).

Section Renderer.

Variable E : collaborators.

(** The calls of mutt_expando_format to itself:
    [render buf buflen col cols src flags] is the memory at [buf] afterwards. *)
Variable render : block -> Z -> Z -> Z -> list ascii -> Z -> result block.

Definition arrow_cursor (flags : Z) : Z :=
  if negb (Z.land flags (MUTT_FORMAT_ARROWCURSOR E) =? 0) && OPT_ARROW_CURSOR E then 3 else 0.

(** [pl = mutt_mb_charlen(src, &pw); if (pl <= 0) pl = pw = 1;] *)
Definition fill_charlen (s : list ascii) : Z * Z :=
  let '(pl, pw) := mutt_mb_charlen E s in
  if pl <=? 0 then (1, 1) else (pl, pw).

(** From the character after [%] (which is not [%]) to the character the
    switch is on: [None] is a bad format, on which the loop is left. *)
Definition parse_directive (s : list ascii) (st : scan_state) : result (option directive) :=
  let s := if Ascii.eqb (hd0 s) "?" then legacy_rewrite s else s in
  hdr <- (if Ascii.eqb (hd0 s) "<" then
            let flags := Z.lor (st_flags st) (MUTT_FORMAT_OPTIONAL E) in
            let ch := hd0 (tl s) in
            let '(p, s) := eat_optional_prefix (Z.to_nat (SHORT_STRING E)) (tl (tl s)) in
            if SHORT_STRING E <=? len p then Fault
            else Ok (Some (flags, ch, p, s))
          else
            let flags := Z.land (st_flags st) (Z.lnot (MUTT_FORMAT_OPTIONAL E)) in
            let '(p, s) := eat_format_prefix (Z.to_nat (SHORT_STRING E)) s in
            if SHORT_STRING E <=? len p then Fault
            else if is_nul (hd0 s) then Ok None
            else Ok (Some (flags, hd0 s, p, tl s))) ;;
  match hdr with
  | None => Ok None
  | Some (flags, ch, p, s) =>
      if Z.land flags (MUTT_FORMAT_OPTIONAL E) =? 0 then
        Ok (Some {| d_ch := ch; d_src := s; d_flags := flags; d_prefix := cstr p;
                    d_if_str := st_if_str st; d_else_str := st_else_str st |})
      else if negb (Ascii.eqb (hd0 s) "?") then Ok None
      else
        let s := tl s in
        let '(if_str, s, lrbalance) :=
          eat_branch (Z.to_nat (SHORT_STRING E)) (SHORT_STRING E) 0 1 s [] in
        if SHORT_STRING E <=? len if_str then Fault
        else
          let s := if Ascii.eqb (hd0 s) "&" then tl s else s in
          let '(else_str, s, lrbalance) :=
            eat_branch (Z.to_nat (SHORT_STRING E)) (SHORT_STRING E) 0 lrbalance s [] in
          if SHORT_STRING E <=? len else_str then Fault
          else if is_nul (hd0 s) then Ok None
          else
            Ok (Some {| d_ch := ch; d_src := tl s; d_flags := flags; d_prefix := cstr p;
                        d_if_str := cstr if_str; d_else_str := cstr else_str |})
  end.

Definition enter_directive (st : scan_state) (d : directive) : scan_state :=
  {| st_src := d_src d; st_wptr := st_wptr st; st_wlen := st_wlen st; st_col := st_col st;
     st_flags := d_flags d; st_prefix := d_prefix d; st_if_str := d_if_str d;
     st_else_str := d_else_str d; st_tmp := st_tmp st; st_buf := st_buf st |}.

(** [pad = (cols - col - wid) / pw]: the operands are converted to size_t,
    the quotient to int. *)
Definition compute_pad (cols col wid pw : Z) : Z :=
  int (size_t (size_t (size_t cols - col) - wid) / size_t pw).

(** [ch == '>' || ch == '*'], up to the [break]. *)
Definition justify (buflen cols : Z) (ch : ascii) (st : scan_state) : result scan_state :=
  let s := st_src st in
  let soft := Ascii.eqb ch "*" in
  let '(pl, pw) := fill_charlen s in
  if ((st_col st <? size_t cols) && (st_wlen st <? buflen)) || soft then
    tmp <- render (st_tmp st) (LONG_STRING E) 0 cols (advance pl s) (st_flags st) ;;
    let st := set_tmp st tmp in
    let len0 := len (cstr tmp) in
    let wid := size_t (mutt_strwidth E (cstr tmp)) in
    if size_t pw =? 0 then Fault
    else
      let pad := compute_pad cols (st_col st) wid pw in
      r <- (if pad >=? 0 then
              if size_t (st_wlen st + pad * pl + len0) >? buflen then
                let pad :=
                  if buflen >? size_t (st_wlen st + len0)
                  then int (size_t (buflen - st_wlen st - len0) / size_t pl)
                  else 0 in
                st <- fill (Z.to_nat pad) (read_bytes pl s) pw st ;;
                Ok (st, len0, wid)
              else
                st <- pre_space (Z.to_nat buflen)
                        (fun st => (size_t (st_col st + pad * pw + wid) <? size_t cols)
                                   && (size_t (st_wlen st + pad * pl + len0) <? buflen))
                        st ;;
                st <- fill (Z.to_nat pad) (read_bytes pl s) pw st ;;
                Ok (st, len0, wid)
            else if soft && (pad <? 0) then
              let offset := arrow_cursor (st_flags st) in
              let avail_cols := if cols >? offset then cols - offset else 0 in
              m <- poke (st_buf st) (st_wptr st) zero ;;
              let st := set_buf st m in
              let '(len1, wid) := mutt_wstr_trunc E (cstr tmp) buflen (size_t avail_cols) in
              let '(wlen, col) :=
                mutt_wstr_trunc E (cstr (st_buf st)) (size_t (buflen - len1))
                                (size_t (avail_cols - wid)) in
              let st := set_cursor st wlen wlen col in
              st <- pre_space (Z.to_nat buflen)
                      (fun st => (size_t (st_col st + wid) <? size_t avail_cols)
                                 && (size_t (st_wlen st + len1) <? buflen))
                      st ;;
              Ok (st, len1, wid)
            else Ok (st, len0, wid)) ;;
      let '(st, len1, wid) := r in
      let len2 :=
        if size_t (len1 + st_wlen st) >? buflen
        then fst (mutt_wstr_trunc E (cstr tmp) (size_t (buflen - st_wlen st))
                                  (size_t (size_t cols - st_col st)))
        else len1 in
      st <- emit st (read_bytes len2 (cstr tmp)) wid ;;
      Ok (set_src st (advance pl s))
  else Ok st.

(** [ch == '|'], up to the [break]. *)
Definition pad_eol (buflen cols : Z) (st : scan_state) : result scan_state :=
  let s := st_src st in
  let '(pl, pw) := fill_charlen s in
  if (st_col st <? size_t cols) && (st_wlen st <? buflen) then
    if size_t pw =? 0 then Fault
    else
      let c := int (size_t (size_t cols - st_col st) / size_t pw) in
      let c :=
        if (c >? 0) && (size_t (st_wlen st + c * pl) >? buflen)
        then Z.quot (int (size_t (buflen - st_wlen st))) pl
        else c in
      st <- fill (Z.to_nat c) (read_bytes pl s) pw st ;;
      Ok (set_src st (advance pl s))
  else Ok st.

(** Any other [ch]: the modifiers, the callback, the copy of its text. *)
Definition expando (buflen cols : Z) (ch : ascii) (st : scan_state) : result scan_state :=
  let '(ch, s, lower, nodots) := modifiers ch (st_src st) false false in
  let '(text, skip) :=
    callback E (cstr (st_tmp st)) (st_col st) cols ch s (st_prefix st)
             (st_if_str st) (st_else_str st) (st_flags st) in
  let text := if lower then map tolower text else text in
  let text := if nodots then map (fun c => if Ascii.eqb c "." then "_" else c) text
              else text in
  tmp <- memcpy (st_tmp st) 0 (text ++ [zero]) ;;
  let st := set_src (set_tmp st tmp) (skipn skip s) in
  let len0 := len (cstr tmp) in
  let len1 :=
    if size_t (len0 + st_wlen st) >? buflen
    then fst (mutt_wstr_trunc E (cstr tmp) (size_t (buflen - st_wlen st))
                              (size_t (size_t cols - st_col st)))
    else len0 in
  emit st (read_bytes len1 (cstr tmp)) (mutt_strwidth E (cstr tmp)).

(** One round of [while (src[0] && wlen < buflen)]. *)
Definition step (buflen cols : Z) (st : scan_state) : result control :=
  let s := st_src st in
  if Ascii.eqb (hd0 s) "%" then
    let s := tl s in
    if Ascii.eqb (hd0 s) "%" then
      st <- emit st ["%"] 1 ;;
      Ok (Continue (set_src st (tl s)))
    else
      d <- parse_directive s st ;;
      match d with
      | None => Ok (Break st)
      | Some d =>
          let st := enter_directive st d in
          let ch := d_ch d in
          if Ascii.eqb ch ">" || Ascii.eqb ch "*" then
            st <- justify buflen cols ch st ;; Ok (Break st)
          else if Ascii.eqb ch "|" then
            st <- pad_eol buflen cols st ;; Ok (Break st)
          else
            st <- expando buflen cols ch st ;; Ok (Continue st)
      end
  else if Ascii.eqb (hd0 s) "\" then
    let s := tl s in
    if is_nul (hd0 s) then Ok (Break st)
    else
      let c := hd0 s in
      let c :=
        if Ascii.eqb c "n" then "010"
        else if Ascii.eqb c "t" then "009"
        else if Ascii.eqb c "r" then "013"
        else if Ascii.eqb c "f" then "012"
        else if Ascii.eqb c "v" then "011"
        else c in
      st <- emit st [c] 1 ;;
      Ok (Continue (set_src st (tl s)))
  else
    let '(bytes, width) := mutt_mb_charlen E s in
    let '(bytes, width) := if bytes <? 0 then (1, 1) else (bytes, width) in
    if (bytes >? 0) && (size_t (st_wlen st + bytes) <? buflen) then
      st <- emit st (read_bytes bytes s) width ;;
      Ok (Continue (set_src st (advance bytes s)))
    else
      Ok (Continue (set_cursor (set_src st (advance (size_t (buflen - st_wlen st)) s))
                               (st_wptr st) buflen (st_col st))).

(** The main loop and the store [*wptr = 0] after it.  Every round that
    continues moves [src] forward, so one round more than the length of
    the template is enough. *)
Fixpoint scan (n : nat) (buflen cols : Z) (st : scan_state) : result block :=
  if negb (is_nul (hd0 (st_src st))) && (st_wlen st <? buflen) then
    match n with
    | O => Timeout
    | S n =>
        c <- step buflen cols st ;;
        match c with
        | Continue st => scan n buflen cols st
        | Break st => poke (st_buf st) (st_wptr st) zero
        end
    end
  else poke (st_buf st) (st_wptr st) zero.

(** The pre-scan: is the template a filter request? *)
Definition filter_requested (src : list ascii) (flags : Z) : result bool :=
  if Z.land flags (MUTT_FORMAT_NOFILTER E) =? 0 then
    let n := int (len src) in
    off <- (if (n >? 1) && Ascii.eqb (peek src (n - 1)) "|"
            then scan_backslashes (length src) src n
            else Ok (-1)) ;;
    Ok ((off >? 0) && (Z.rem (n - off) 2 =? 0))
  else Ok false.

(** The do-while loop over the arguments.  [command] is the content of the
    Buffer of that name: every mutt_buffer_addch and mutt_buffer_addstr
    appends to it.  The loop leaves when MoreArgs fails; [n] bounds the
    rounds by the length of the text to tokenize. *)
Fixpoint pipe_tokens (n : nat) (buf : block) (cols flags : Z)
         (srcbuf command : list ascii) : result (block * list ascii) :=
  match n with
  | O => Timeout
  | S n =>
      let '(word, srcbuf) := mutt_extract_token E srcbuf in
      let command := command ++ ["'"] in
      buf <- render buf sizeof_char_ptr 0 cols word (Z.lor flags (MUTT_FORMAT_NOFILTER E)) ;;
      let command := command ++ shell_quote (cstr (stack_tmp E)) in
      let command := command ++ ["'"] in
      let command := command ++ [" "] in
      if MoreArgs E srcbuf then pipe_tokens n buf cols flags srcbuf command
      else Ok (buf, command)
  end.

(** The filter path after the command line is built: from the return of
    mutt_create_filter, [r], to the [return] of the path. *)
Definition read_filter (buf : block) (buflen col cols flags : Z)
           (r : option (list ascii * Z)) : result block :=
  match r with
  | Some (out, rc) =>
      let got := Z.min buflen (len out) in     (* fread(buf, 1, buflen, filter) *)
      let n := int got in
      buf <- memcpy buf 0 (firstn (Z.to_nat got) out) ;;
      if n >? 0 then
        buf <- poke buf n zero ;;
        r <- strip_newlines (Z.to_nat n) buf n ;;
        let '(buf, n) := r in
        if (n >? 0) && Ascii.eqb (peek buf (n - 1)) "%" then
          let n := n - 1 in
          buf <- poke buf n zero ;;
          if (n >? 0) && negb (Ascii.eqb (peek buf (n - 1)) "%") then
            match mutt_str_strdup (Some (cstr buf)) with
            | Some recycler =>
                render buf (size_t (buflen + 1)) col cols (cstr recycler) flags
            | None => Ok buf
            end
          else Ok buf
        else Ok buf
      else poke buf 0 zero
  | None => poke buf 0 zero
  end.

(** The text the filter path tokenizes:
    [strncpy(srccopy, src, n); srccopy[n - 1] = '\0';] *)
Definition srccopy (src : list ascii) : list ascii :=
  firstn (Z.to_nat (int (len src) - 1)) src.

(** The filter path, from [strncpy(srccopy, src, n)] to its [return]. *)
Definition pipe_path (buf : block) (buflen col cols : Z) (src : list ascii) (flags : Z)
  : result block :=
  r <- pipe_tokens (S (length (srccopy src))) buf cols flags (srccopy src) [] ;;
  let '(buf, command) := r in
  let col := size_t (col - arrow_cursor flags) in
  read_filter buf buflen col cols flags (mutt_create_filter E command).

(** The locals with which the main loop is entered. *)
Definition initial_state (buf : block) (wlen col : Z) (src : list ascii) (flags : Z)
  : scan_state :=
  {| st_src := src; st_wptr := 0; st_wlen := wlen; st_col := col;
     st_flags := flags; st_prefix := []; st_if_str := stack_if_str E;
     st_else_str := stack_else_str E; st_tmp := stack_tmp E; st_buf := buf |}.

(** The body of mutt_expando_format. *)
Definition format_body (buf : block) (buflen col cols : Z) (src : list ascii) (flags : Z)
  : result block :=
  if STRING E <=? len src then Fault   (* the copy into src2[STRING] *)
  else
    let buflen := size_t (buflen - 1) in
    let wlen := arrow_cursor flags in
    let col := size_t (col + wlen) in
    pipe <- filter_requested src flags ;;
    if pipe then pipe_path buf buflen col cols src flags
    else
      scan (S (length src)) buflen cols (initial_state buf wlen col src flags).

End Renderer.

(** [mutt_expando_format(buf, buflen, col, cols, src, callback, data, flags)]:
    the memory at [buf] when the call returns.  [depth] bounds the depth of
    the calls of the function to itself. *)
Fixpoint mutt_expando_format (E : collaborators) (depth : nat)
         (buf : block) (buflen col cols : Z) (src : list ascii) (flags : Z)
  : result block :=
  match depth with
  | O => Timeout
  | S depth => format_body E (mutt_expando_format E depth) buf buflen col cols src flags
  end.

(** *** A single-byte locale, for running the renderer

    Modelled from the spec: the width helpers (4.3), for text in which every
    character is one byte and one column wide. *)
Definition sb_charlen (s : list ascii) : Z * Z :=
  match s with
  | [] => (0, 0)
  | _ :: _ => (1, 1)
  end.

Definition sb_strwidth (s : list ascii) : Z := len s.

Definition sb_wstr_trunc (s : list ascii) (maxlen maxwid : Z) : Z * Z :=
  let n := Z.min (len s) (Z.min maxlen maxwid) in (n, n).

(** A tokenizer for plain words separated by blanks, and MoreArgs (mutt.h). *)
Fixpoint skip_blanks (s : list ascii) : list ascii :=
  match s with
  | c :: r => if Ascii.eqb c " " then skip_blanks r else s
  | [] => []
  end.

Fixpoint take_word (s : list ascii) : list ascii * list ascii :=
  match s with
  | c :: r => if Ascii.eqb c " " then ([], s)
              else let '(w, t) := take_word r in (c :: w, t)
  | [] => ([], [])
  end.

Definition words_extract_token (s : list ascii) : list ascii * list ascii :=
  let '(w, t) := take_word (skip_blanks s) in (w, skip_blanks t).

Definition more_args (s : list ascii) : bool :=
  negb (is_nul (hd0 s)) && negb (Ascii.eqb (hd0 s) ";") && negb (Ascii.eqb (hd0 s) "#").

(** A callback that knows the directive [%s] only and returns [src]. *)
Definition subject_callback (tmp : list ascii) (col cols : Z) (ch : ascii)
           (src prefix if_str else_str : list ascii) (flags : Z) : list ascii * nat :=
  (if Ascii.eqb ch "s" then list_ascii_of_string "subject" else [], 0%nat).

(** The collaborators of the examples: [filter] is the filter bridge,
    [arrow] the option, [junk] the string lying in [tmp] on entry. *)
Definition example_env (filter : list ascii -> option (list ascii * Z)) (arrow : bool)
           (junk : list ascii) : collaborators :=
  {| SHORT_STRING := 128;
     STRING := 256;
     LONG_STRING := 1024;
     MUTT_FORMAT_OPTIONAL := Z.shiftl 1 3;
     MUTT_FORMAT_ARROWCURSOR := Z.shiftl 1 5;
     MUTT_FORMAT_NOFILTER := Z.shiftl 1 7;
     mutt_mb_charlen := sb_charlen;
     mutt_strwidth := sb_strwidth;
     mutt_wstr_trunc := sb_wstr_trunc;
     callback := subject_callback;
     mutt_extract_token := words_extract_token;
     MoreArgs := more_args;
     mutt_create_filter := filter;
     OPT_ARROW_CURSOR := arrow;
     stack_tmp := junk ++ repeat zero (1024 - length junk);
     stack_if_str := [];
     stack_else_str := [] |}.

Definition str (s : string) : list ascii := list_ascii_of_string s.

(** ** Vocabulary of the statements *)

Definition allocated (buf : Buffer) : Z :=
  match data buf with
  | Some m => len m
  | None => 0
  end.

Definition bytes (buf : Buffer) : block := block_of (data buf).

(** The logical content: the bytes before the cursor. *)
Definition content (buf : Buffer) : list ascii :=
  firstn (Z.to_nat (dptr buf)) (bytes buf).

(** A buffer the operations can work on: the cursor offset is at most the
    recorded capacity, which is at most the size of the allocation. *)
Definition usable (buf : Buffer) : Prop :=
  0 <= dptr buf <= dsize buf /\ dsize buf <= allocated buf.

(** The invariant of the data model: the cursor offset lies within
    [0, capacity) when [data] is not NULL, and a zero byte lies at or after
    the cursor, inside the capacity. *)
Definition invariant (buf : Buffer) : Prop :=
  match data buf with
  | None => dptr buf = 0 /\ dsize buf = 0
  | Some m =>
      0 <= dptr buf < dsize buf /\ dsize buf <= len m /\
      exists k, dptr buf <= k < dsize buf /\ peek m k = zero
  end.

(** What each operation asks of the buffer it is applied to. *)
Definition op_pre (op : buffer_op) (buf : Buffer) : Prop :=
  match op with
  | OpInit | OpReinit => True
  | OpReset | OpRewind | OpAdd None | OpAddstr None | OpFrom None => invariant buf
  | OpAdd (Some s) | OpAddstr (Some s) =>
      usable buf /\ dsize buf + Z.max 128 (len s + 1) < 2 ^ 64
  | OpAddch c => usable buf /\ dsize buf + 128 < 2 ^ 64
  | OpPrintf text => usable buf /\ dsize buf + len text + 129 < 2 ^ 31
  | OpFrom (Some seed) => seed <> [] /\ len seed < 2 ^ 64
  end.

(** The writers leave the terminator at the cursor. *)
Definition terminated_at_cursor (buf : Buffer) : Prop :=
  peek (bytes buf) (dptr buf) = zero.

(** What holds afterwards: the invariant, and after add, addstr, addch and
    printf of a string the zero byte at the cursor itself; except after
    [from] of a string, which leaves the cursor at the capacity and the
    terminator behind it. *)
Definition op_post (op : buffer_op) (buf' : Buffer) : Prop :=
  match op with
  | OpFrom (Some seed) =>
      dptr buf' = dsize buf' /\ dsize buf' = len seed /\
      data buf' = Some (seed ++ [zero]) /\ peek (bytes buf') (dsize buf') = zero
  | OpAdd (Some _) | OpAddstr (Some _) | OpAddch _ | OpPrintf _ =>
      invariant buf' /\ terminated_at_cursor buf'
  | _ => invariant buf'
  end.

(** The reading of a template of literal text and [%%] escapes only, as
    the spec words it: every [%%] collapsed to [%]; [None] for a template
    with another directive, a backslash or a NUL. *)
Fixpoint collapse (s : list ascii) : option (list ascii) :=
  match s with
  | [] => Some []
  | c :: r =>
      if Ascii.eqb c "%" then
        match r with
        | c2 :: r2 => if Ascii.eqb c2 "%" then option_map (cons "%") (collapse r2) else None
        | [] => None
        end
      else if Ascii.eqb c "\" then None
      else if is_nul c then None
      else option_map (cons c) (collapse r)
  end.

(** Every character of the text [s] is one byte long. *)
Definition single_byte_text (E : collaborators) (s : list ascii) : Prop :=
  forall k, (k < length s)%nat -> fst (mutt_mb_charlen E (skipn k s)) = 1.

(** Whether the character at index [i] of the collapsed text is written
    [%%] in the template. *)
Fixpoint escaped_at (s : list ascii) (i : nat) : bool :=
  match s with
  | [] => false
  | c :: r =>
      if Ascii.eqb c "%" then
        match r with
        | _ :: r2 => match i with O => true | S i => escaped_at r2 i end
        | [] => false
        end
      else match i with O => false | S i => escaped_at r i end
  end.

(** The number of characters of a template of literal text and [%%]
    escapes that are stored when [room] bytes are left below [buflen]: a
    literal character is stored while one byte more than it needs is left,
    an escaped [%] while one byte is left.  So all but one of the bytes are
    used, and the last one too when the character there is written [%%]. *)
Definition literal_budget (room : Z) (s : list ascii) : Z :=
  if room <=? 0 then 0
  else if escaped_at s (Z.to_nat (room - 1)) then room else room - 1.

(** ** Calls on the Buffer, in sequence *)



(** A sequence of calls on one Buffer. *)
Fixpoint run_ops (heap_junk : nat -> ascii) (ops : list buffer_op) (buf : Buffer)
  : result Buffer :=
  match ops with
  | [] => Ok buf
  | op :: r => buf <- run_op heap_junk op buf ;; run_ops heap_junk r buf
  end.

(** The calls that append a string, and the string they append. *)
Definition appends (op : buffer_op) : option (list ascii) :=
  match op with
  | OpAdd (Some s) | OpAddstr (Some s) | OpPrintf s => Some s
  | OpAddch c => Some [c]
  | _ => None
  end.

Fixpoint appended (ops : list buffer_op) : option (list ascii) :=
  match ops with
  | [] => Some []
  | op :: r =>
      match appends op, appended r with
      | Some s, Some t => Some (s ++ t)
      | _, _ => None
      end
  end.

(** ** Vocabulary for templates *)

(** The character a backslash escape stores. *)
Definition escape_char (c : ascii) : ascii :=
  if Ascii.eqb c "n" then "010"
  else if Ascii.eqb c "t" then "009"
  else if Ascii.eqb c "r" then "013"
  else if Ascii.eqb c "f" then "012"
  else if Ascii.eqb c "v" then "011"
  else c.

(** The text of a template made of literal characters, [%%] and backslash
    escapes; [None] for a template with another directive, a NUL or a
    backslash at its end. *)
Fixpoint plain_text (s : list ascii) : option (list ascii) :=
  match s with
  | [] => Some []
  | c :: r =>
      if Ascii.eqb c "%" then
        match r with
        | c2 :: r2 => if Ascii.eqb c2 "%" then option_map (cons "%") (plain_text r2) else None
        | [] => None
        end
      else if Ascii.eqb c "\" then
        match r with
        | c2 :: r2 => if is_nul c2 then None
                      else option_map (cons (escape_char c2)) (plain_text r2)
        | [] => None
        end
      else if is_nul c then None
      else option_map (cons c) (plain_text r)
  end.

(** Every character of [s], followed by [rest], is one byte long and one
    column wide. *)
Definition single_width_run (E : collaborators) (s rest : list ascii) : Prop :=
  forall k, (k < length s)%nat -> mutt_mb_charlen E (skipn k s ++ rest) = (1, 1).

(** The locals after [n] bytes, [t], have been stored through [wptr], each
    one column wide, and [src] has moved to [rest]. *)
Definition stored (st : scan_state) (t rest : list ascii) : scan_state :=
  {| st_src := rest;
     st_wptr := st_wptr st + len t;
     st_wlen := st_wlen st + len t;
     st_col := size_t (st_col st + len t);
     st_flags := st_flags st; st_prefix := st_prefix st;
     st_if_str := st_if_str st; st_else_str := st_else_str st;
     st_tmp := st_tmp st;
     st_buf := firstn (Z.to_nat (st_wptr st)) (st_buf st) ++ t ++
               skipn (Z.to_nat (st_wptr st + len t)) (st_buf st) |}.

(** [isdigit(c) || c == '.' || c == '-' || c == '=']: the characters of a
    format prefix. *)
Definition format_char (c : ascii) : bool :=
  isdigit c || Ascii.eqb c "." || Ascii.eqb c "-" || Ascii.eqb c "=".

(** The locals when the header of a directive that is no conditional has
    been read: [p] is the format prefix, [r] the text after the character
    switched on. *)
Definition after_header (E : collaborators) (st : scan_state) (p r : list ascii)
  : scan_state :=
  {| st_src := r; st_wptr := st_wptr st; st_wlen := st_wlen st; st_col := st_col st;
     st_flags := Z.land (st_flags st) (Z.lnot (MUTT_FORMAT_OPTIONAL E));
     st_prefix := p; st_if_str := st_if_str st; st_else_str := st_else_str st;
     st_tmp := st_tmp st; st_buf := st_buf st |}.








(** [flags & MUTT_FORMAT_NOFILTER]: the filter path is switched off. *)
Definition filtering_off (E : collaborators) (flags : Z) : Prop :=
  Z.land flags (MUTT_FORMAT_NOFILTER E) <> 0.

(** Neither [%<] nor [%?] occurs in the template: it holds no conditional. *)
Fixpoint no_conditional (s : list ascii) : bool :=
  match s with
  | [] => true
  | c :: r =>
      negb (Ascii.eqb c "%" && (Ascii.eqb (hd0 r) "<" || Ascii.eqb (hd0 r) "?"))
      && no_conditional r
  end.

(** The template does not end in one of the characters after which the code
    looks at the next one without a test for the terminator: [>] and [*],
    which take a fill character, and the modifiers [_] and [:]. *)
Definition closed_end (s : list ascii) : bool :=
  let c := last s " " in
  negb (Ascii.eqb c ">" || Ascii.eqb c "*" || Ascii.eqb c "_" || Ascii.eqb c ":").

(** A template on which the code loads nothing from behind the terminator
    of its copy in [src2]: a string (no NUL inside) without a conditional
    and with a closed end. *)
Definition complete_template (src : list ascii) : Prop :=
  Forall (fun c => c <> zero) src /\ no_conditional src = true /\ closed_end src = true.

(** mutt_mb_charlen in a locale of single bytes: a character is one byte
    long and at most one column wide; the result is 0 for the empty string
    only, and negative for a byte that is no character.  Then the fill
    character of a padding directive has [pl = 1] and [pw <= 1], so that the
    int products [pad * pl], [pad * pw] and [c * pl] of the code are those
    of the model, and [src + bytes] stays in the template. *)
Definition one_byte_characters (E : collaborators) : Prop :=
  forall s : list ascii,
    fst (mutt_mb_charlen E s) <= 1 /\
    (s <> [] -> fst (mutt_mb_charlen E s) <> 0) /\
    0 <= snd (mutt_mb_charlen E s) <= 1.

(** The pointer the callback returns lies in the template it was given, at
    its terminator at most. *)
Definition callback_stays_inside (E : collaborators) : Prop :=
  forall tmp col cols ch src prefix if_str else_str flags,
    (snd (callback E tmp col cols ch src prefix if_str else_str flags) <= length src)%nat.

(** What the main loop keeps of the memory, [B] being [buflen] after its
    decrement, [buf0] the memory at [buf] on entry and [T] the size of
    [tmp]: [buf] keeps its size and its bytes from [buf + B + 1] on, and
    [wptr] is at most [wlen] bytes into [buf] and at most [B]. *)
Definition in_capacity (B : Z) (buf0 : block) (T : Z) (st : scan_state) : Prop :=
  0 <= st_wptr st <= st_wlen st /\ st_wptr st <= B /\
  len (st_buf st) = len buf0 /\
  skipn (Z.to_nat (B + 1)) (st_buf st) = skipn (Z.to_nat (B + 1)) buf0 /\
  len (st_tmp st) = T.

(** mutt_wstr_trunc gives a number of bytes of the string, the limit at
    most. *)
Definition trunc_within (E : collaborators) : Prop :=
  forall s maxlen maxwid, 0 <= maxlen -> 0 <= maxwid ->
    0 <= fst (mutt_wstr_trunc E s maxlen maxwid) <= Z.min maxlen (len s).

(** ** Other functions of muttlib.c *)

(** [static const unsigned char base32[]]. *)
Definition base32 : list ascii := list_ascii_of_string "abcdefghijklmnopqrstuvwxyz234567".

(** [mutt_randbuf(out, len)]: more than 1048576 bytes are refused and the
    process ends ([None]); otherwise [out] holds the [len] bytes [random]
    that the system delivers (the process ends as well when it delivers
    none). *)
Definition mutt_randbuf (random : list ascii) : option (list ascii) :=
  if len random >? 1048576 then None else Some random.

(** [mutt_rand_base32(out, len)]: the bytes at [out] afterwards. *)
Definition mutt_rand_base32 (random : list ascii) : option (list ascii) :=
  match mutt_randbuf random with
  | None => None
  | Some p => Some (map (fun b => nth (nat_of_ascii b mod 32) base32 zero) p)
  end.

(** [strcmp(a, b) == 0]. *)
Definition streq (a b : list ascii) : bool :=
  if list_eq_dec ascii_dec a b then true else false.

(** The loop of mutt_remove_from_regex_list over a [struct RegexList],
    given as the list of the patterns of its entries; [same a b] stands for
    [mutt_str_strcasecmp(a, b) == 0].  An entry that matches is unlinked and
    freed; [FREE(&p)] leaves [p] NULL, so the loop ends there.  The result
    is the list afterwards and [rc]. *)
Fixpoint remove_walk (same : list ascii -> list ascii -> bool) (str : list ascii)
         (l : list (list ascii)) : list (list ascii) * Z :=
  match l with
  | [] => ([], -1)
  | p :: r =>
      if same str p then (r, 0)
      else let '(r', rc) := remove_walk same str r in (p :: r', rc)
  end.

(** [mutt_remove_from_regex_list(&l, str)]: the list afterwards and the
    value returned. *)
Definition mutt_remove_from_regex_list (same : list ascii -> list ascii -> bool)
           (l : list (list ascii)) (str : list ascii) : list (list ascii) * Z :=
  if streq ["*"] str then ([], 0)   (* mutt_free_regex_list(l) *)
  else remove_walk same str l.

(** [if ((p = strpbrk(d, accept))) *p = 0;]: the string at [d] afterwards. *)
Fixpoint cut_at_any (accept d : list ascii) : list ascii :=
  match d with
  | [] => []
  | c :: r => if existsb (Ascii.eqb c) accept then [] else c :: cut_at_any accept r
  end.

(** What mutt_save_path and mutt_safe_path use but muttlib.c does not
    define: [strfcpy src dsize] is the string mutt_str_strfcpy leaves at its
    destination of [dsize] bytes, [save_address] the option
    OPT_SAVE_ADDRESS, [isspace] and [isprint] the macros ISSPACE and
    IsPrint. *)
Record path_helpers : Type := {
  strfcpy : list ascii -> Z -> list ascii;
  save_address : bool;
  isspace : ascii -> bool;
  isprint : ascii -> bool
}.

(** [mutt_save_path(d, dsize, a)]: the string at [d] afterwards; [mailbox]
    is [a->mailbox], [None] when [a] or [a->mailbox] is NULL. *)
Definition mutt_save_path (H : path_helpers) (dsize : Z) (mailbox : option (list ascii))
  : list ascii :=
  match mailbox with
  | Some m =>
      let d := strfcpy H m dsize in
      let d := if save_address H then d else cut_at_any ["%"; "@"] d in
      map tolower d
  | None => []
  end.

(** [mutt_safe_path(s, l, a)]: the string at [s] afterwards. *)
Definition mutt_safe_path (H : path_helpers) (l : Z) (mailbox : option (list ascii))
  : list ascii :=
  map (fun c => if Ascii.eqb c "/" || isspace H c || negb (isprint H c) then "_" else c)
      (mutt_save_path H l mailbox).

(** [for (n--; n >= 0 && output[n] != '/'; n--);] entered with [n] the
    number given: the index at which the loop stops, [-1] when it leaves
    with a negative [n]. *)
Fixpoint back_to_slash (output : block) (n : nat) : Z :=
  match n with
  | O => -1
  | S k => if Ascii.eqb (nth k output zero) "/" then Z.of_nat k else back_to_slash output k
  end.

(** The functions of mutt/string.c that take a destination:
    [mutt_str_strfcpy dest src dsize] is the memory from [dest] on after
    [mutt_str_strfcpy(dest, src, dsize)], and [mutt_str_strcat buf buflen s]
    the memory from [buf] on after [mutt_str_strcat(buf, buflen, s)]. *)
Record string_helpers : Type := {
  mutt_str_strfcpy : block -> list ascii -> Z -> result block;
  mutt_str_strcat : block -> Z -> list ascii -> result block
}.

(** What mutt_get_parent_path takes from the mailbox drivers: [mx_is_imap]
    and [mx_is_notmuch] are false where the program is built without
    USE_IMAP or USE_NOTMUCH; [imap_get_parent_path output path olen] is the
    memory at [output] afterwards; [Folder] is the string of that variable,
    empty when it is null. *)
Record folder_helpers : Type := {
  mx_is_imap : list ascii -> bool;
  mx_is_notmuch : list ascii -> bool;
  imap_get_parent_path : block -> list ascii -> Z -> result block;
  Folder : list ascii
}.

(** [mutt_get_parent_path(output, path, olen)]: the memory at [output]
    afterwards. *)
Definition mutt_get_parent_path (S : string_helpers) (H : folder_helpers) (output : block)
           (path : list ascii) (olen : Z) : result block :=
  if mx_is_imap H path then imap_get_parent_path H output path olen
  else if mx_is_notmuch H path then mutt_str_strfcpy S output (Folder H) olen
  else
    output <- mutt_str_strfcpy S output path olen ;;
    let n := back_to_slash output (Z.to_nat (int (len (cstr output)))) in
    if n >? 0 then poke output n zero
    else output <- poke output 0 "/" ;; poke output 1 zero.

(** [strrchr(s, c) - s] for a [c] other than NUL; [None] is the null
    pointer. *)
Fixpoint strrchr (s : list ascii) (c : ascii) : option Z :=
  match s with
  | [] => None
  | x :: r =>
      match strrchr r c with
      | Some k => Some (1 + k)
      | None => if Ascii.eqb x c then Some 0 else None
      end
  end.

(** The comparisons of mutt/string.c that mutt_inbox_cmp calls, on the
    strings at their arguments. *)
Record case_helpers : Type := {
  mutt_str_strcasecmp : list ascii -> list ascii -> Z;
  mutt_str_strncasecmp : list ascii -> list ascii -> Z -> Z
}.

(** [mutt_inbox_cmp(a, b)].  The two tests on [a_end] and [b_end] are the
    branches of the match in which one of them is null. *)
Definition mutt_inbox_cmp (H : case_helpers) (a b : list ascii) : Z :=
  if Ascii.eqb (hd0 a) "=" && Ascii.eqb (hd0 b) "=" then
    if mutt_str_strcasecmp H (tl a) (str "inbox") =? 0 then -1
    else if mutt_str_strcasecmp H (tl b) (str "inbox") =? 0 then 1
    else 0
  else
    match strrchr a "/", strrchr b "/" with
    | Some a_len, Some b_len =>
        let min := Z.min a_len b_len in
        let same :=
          Ascii.eqb (peek a min) "/" && Ascii.eqb (peek b min) "/" &&
          negb (is_nul (peek a (min + 1))) && negb (is_nul (peek b (min + 1))) &&
          (mutt_str_strncasecmp H a b min =? 0) in
        if negb same then 0
        else if mutt_str_strcasecmp H (advance (min + 1) a) (str "inbox") =? 0 then -1
        else if mutt_str_strcasecmp H (advance (min + 1) b) (str "inbox") =? 0 then 1
        else 0
    | _, _ => 0
    end.

(** A call that is handed the pointer [m + d]: it sees, and leaves changed,
    the memory from there on. *)
Definition at_offset (m : block) (d : Z) (call : block -> result block) : result block :=
  if (0 <=? d) && (d <=? len m)
  then r <- call (skipn (Z.to_nat d) m) ;; Ok (firstn (Z.to_nat d) m ++ r)
  else Fault.

(** The loop of mutt_expand_fmt from [p] on, [d] being the offset of the
    pointer of that name in [dest]: the memory at [dest], [d], [destlen] and
    [found] when it is left. *)
Fixpoint expand_loop (S : string_helpers) (src : list ascii) (slen : Z) (p : list ascii)
         (dest : block) (d destlen : Z) (found : bool) : result (block * Z * Z * bool) :=
  match p with
  | [] => Ok (dest, d, destlen, found)
  | c :: r =>
      if destlen =? 0 then Ok (dest, d, destlen, found)
      else if Ascii.eqb c "%" then
        match r with
        | x :: r' =>
            if Ascii.eqb x "%" then
              dest <- poke dest d c ;;
              expand_loop S src slen r' dest (d + 1) (size_t (destlen - 1)) found
            else if Ascii.eqb x "s" then
              dest <- at_offset dest d
                        (fun m => mutt_str_strfcpy S m src (size_t (destlen + 1))) ;;
              let n := if destlen >? slen then slen else destlen in
              expand_loop S src slen r' dest (d + n) (size_t (destlen - n)) true
            else
              dest <- poke dest d c ;;
              expand_loop S src slen r dest (d + 1) (size_t (destlen - 1)) found
        | [] =>
            dest <- poke dest d c ;;
            expand_loop S src slen r dest (d + 1) (size_t (destlen - 1)) found
        end
      else
        dest <- poke dest d c ;;
        expand_loop S src slen r dest (d + 1) (size_t (destlen - 1)) found
  end.

(** [mutt_expand_fmt(dest, destlen, fmt, src)]: the memory at [dest]
    afterwards. *)
Definition mutt_expand_fmt (S : string_helpers) (dest : block) (destlen : Z)
           (fmt src : list ascii) : result block :=
  let slen := size_t (len src) in
  let destlen := size_t (destlen - 1) in
  st <- expand_loop S src slen fmt dest 0 destlen false ;;
  let '(dest, d, destlen, found) := st in
  dest <- poke dest d zero ;;
  if negb found && (destlen >? 0) then
    dest <- mutt_str_strcat S dest destlen (str " ") ;;
    mutt_str_strcat S dest destlen src
  else Ok dest.

(** The format with [src] for each [%s] and one percent sign for each
    [%%]. *)
Fixpoint expanded (fmt src : list ascii) : list ascii :=
  match fmt with
  | [] => []
  | c :: r =>
      if Ascii.eqb c "%" then
        match r with
        | x :: r' =>
            if Ascii.eqb x "%" then c :: expanded r' src
            else if Ascii.eqb x "s" then src ++ expanded r' src
            else c :: expanded r src
        | [] => c :: expanded r src
        end
      else c :: expanded r src
  end.

(** Whether the format holds a [%s], read as above. *)
Fixpoint uses_src (fmt : list ascii) : bool :=
  match fmt with
  | [] => false
  | c :: r =>
      if Ascii.eqb c "%" then
        match r with
        | x :: r' =>
            if Ascii.eqb x "%" then uses_src r'
            else if Ascii.eqb x "s" then true
            else uses_src r
        | [] => uses_src r
        end
      else uses_src r
  end.

(** * Properties *)

(** ** Arithmetic and array lemmas *)

Lemma size_t_small (x : Z) : 0 <= x < 2 ^ 64 -> size_t x = x.
Proof. intros H. unfold size_t. apply Z.mod_small. exact H. Qed.

Lemma int_small (x : Z) : - 2 ^ 31 <= x < 2 ^ 31 -> int x = x.
Proof.
  intros H. unfold int. rewrite Z.mod_small by lia. lia.
Qed.

Lemma len_nonneg (s : list ascii) : 0 <= len s.
Proof. unfold len. lia. Qed.

Lemma len_app (s t : list ascii) : len (s ++ t) = len s + len t.
Proof. unfold len. rewrite length_app. lia. Qed.

Lemma len_cons (c : ascii) (s : list ascii) : len (c :: s) = 1 + len s.
Proof. unfold len. simpl length. lia. Qed.

Lemma memcpy_inv (m : block) (i : Z) (s : list ascii) (m' : block) :
  memcpy m i s = Ok m' ->
  0 <= i /\ i + len s <= len m /\
  m' = firstn (Z.to_nat i) m ++ s ++ skipn (Z.to_nat i + length s) m.
Proof.
  unfold memcpy. intros H.
  destruct (0 <=? i) eqn:Hi; simpl in H; [| discriminate].
  destruct (i + len s <=? len m) eqn:Hj; [| discriminate].
  apply Z.leb_le in Hi. apply Z.leb_le in Hj.
  injection H as <-. auto.
Qed.

Lemma memcpy_Ok (m : block) (i : Z) (s : list ascii) :
  0 <= i -> i + len s <= len m ->
  memcpy m i s = Ok (firstn (Z.to_nat i) m ++ s ++ skipn (Z.to_nat i + length s) m).
Proof.
  intros Hi Hj. unfold memcpy.
  apply Z.leb_le in Hi. apply Z.leb_le in Hj. rewrite Hi, Hj. reflexivity.
Qed.

Lemma memcpy_len (m : block) (i : Z) (s : list ascii) (m' : block) :
  memcpy m i s = Ok m' -> len m' = len m.
Proof.
  intros H. apply memcpy_inv in H. destruct H as (Hi & Hj & ->).
  unfold len in *. rewrite !length_app, length_firstn, length_skipn. lia.
Qed.

(** After a copy at offset [i], the array starts with its old first [i]
    bytes followed by the bytes copied. *)
Lemma memcpy_firstn (m : block) (i : Z) (s : list ascii) (m' : block) :
  memcpy m i s = Ok m' ->
  firstn (Z.to_nat (i + len s)) m' = firstn (Z.to_nat i) m ++ s.
Proof.
  intros H. apply memcpy_inv in H. destruct H as (Hi & Hj & ->).
  unfold len in *.
  replace (Z.to_nat (i + Z.of_nat (length s))) with (Z.to_nat i + length s)%nat by lia.
  rewrite app_assoc.
  rewrite firstn_app.
  rewrite length_app, length_firstn.
  replace (Z.to_nat i + length s - (Nat.min (Z.to_nat i) (length m) + length s))%nat
    with 0%nat by lia.
  rewrite firstn_O, app_nil_r.
  apply firstn_all2. rewrite length_app, length_firstn. lia.
Qed.

Lemma memcpy_prefix (m : block) (i : Z) (s : list ascii) (m' : block) (k : nat) :
  memcpy m i s = Ok m' -> (k <= Z.to_nat i)%nat -> firstn k m' = firstn k m.
Proof.
  intros H Hk. apply memcpy_inv in H. destruct H as (Hi & Hj & ->).
  unfold len in *.
  rewrite firstn_app, length_firstn.
  replace (k - Nat.min (Z.to_nat i) (length m))%nat with 0%nat by lia.
  rewrite firstn_O, app_nil_r, firstn_firstn. f_equal. lia.
Qed.

Lemma poke_peek (m : block) (i : Z) (c : ascii) (m' : block) :
  poke m i c = Ok m' -> peek m' i = c.
Proof.
  unfold poke. intros H. apply memcpy_inv in H. destruct H as (Hi & Hj & ->).
  unfold peek, len in *. simpl length in *.
  rewrite app_nth2; rewrite length_firstn; [| lia].
  replace (Z.to_nat i - Nat.min (Z.to_nat i) (length m))%nat with 0%nat by lia.
  reflexivity.
Qed.

Lemma firstn_app_le {A : Type} (k : nat) (l1 l2 : list A) :
  (k <= length l1)%nat -> firstn k (l1 ++ l2) = firstn k l1.
Proof.
  intros H. rewrite firstn_app.
  replace (k - length l1)%nat with 0%nat by lia.
  rewrite firstn_O, app_nil_r. reflexivity.
Qed.

(** ** The Buffer *)

Section BufferFacts.

Variable heap_junk : nat -> ascii.

Lemma realloc_spec (p : option block) (siz : Z) :
  0 < siz ->
  exists m', mutt_mem_realloc heap_junk p siz = Some m' /\ len m' = siz /\
    forall k, (k <= Z.to_nat siz)%nat -> (k <= length (block_of p))%nat ->
      firstn k m' = firstn k (block_of p).
Proof.
  intros Hs. unfold mutt_mem_realloc.
  destruct (siz =? 0) eqn:E; [apply Z.eqb_eq in E; lia |].
  eexists. split; [reflexivity |]. split.
  - unfold len. rewrite length_app, length_firstn, length_map, length_seq. lia.
  - intros k Hk1 Hk2.
    rewrite firstn_app_le by (rewrite length_firstn; lia).
    rewrite firstn_firstn. f_equal. lia.
Qed.

Lemma grow_spec (buf : Buffer) (inc off : Z) :
  usable buf -> 0 < inc -> dsize buf + inc < 2 ^ 64 ->
  exists m', data (grow heap_junk buf inc off) = Some m' /\
    len m' = dsize buf + inc /\
    dsize (grow heap_junk buf inc off) = dsize buf + inc /\
    dptr (grow heap_junk buf inc off) = off /\
    firstn (Z.to_nat (dptr buf)) m' = content buf.
Proof.
  intros (Hc & Ha) Hinc Hfit. unfold grow, mutt_buffer_seek. simpl.
  rewrite size_t_small by lia.
  destruct (realloc_spec (data buf) (dsize buf + inc)) as (m' & E & Hl & Hp); [lia |].
  exists m'. rewrite E. repeat split; auto.
  unfold content, bytes. apply Hp; [lia |].
  unfold allocated, len in Ha. destruct (data buf); simpl in *; lia.
Qed.

(** What one [mutt_buffer_add] of a non-null string does to a usable
    buffer. *)
Lemma buffer_add_spec (buf : Buffer) (s : list ascii) :
  usable buf ->
  dsize buf + Z.max 128 (len s + 1) < 2 ^ 64 ->
  exists buf',
    mutt_buffer_add heap_junk buf (Some s) = Ok buf' /\
    dptr buf' = dptr buf + len s /\
    dptr buf' < dsize buf' /\
    dsize buf' <= allocated buf' /\
    (dsize buf' = dsize buf \/ dsize buf' = dsize buf + Z.max 128 (len s + 1)) /\
    content buf' = content buf ++ s /\
    peek (bytes buf') (dptr buf') = zero.
Proof.
  intros Hu Hfit. pose proof Hu as ((Hc1 & Hc2) & Ha).
  pose proof (len_nonneg s) as Hs.
  unfold mutt_buffer_add.
  set (inc := if len s <? 128 then 128 else len s + 1).
  assert (Hinc : inc = Z.max 128 (len s + 1)).
  { unfold inc. destruct (len s <? 128) eqn:E;
      [apply Z.ltb_lt in E | apply Z.ltb_ge in E]; lia. }
  assert (Hstep : forall b m,
    data b = Some m -> dptr b = dptr buf -> 0 <= dptr b ->
    dptr b + len s + 1 <= dsize b -> dsize b <= len m ->
    firstn (Z.to_nat (dptr buf)) m = content buf ->
    (dsize b = dsize buf \/ dsize b = dsize buf + Z.max 128 (len s + 1)) ->
    exists buf',
      (if dptr_is_null b then Ok b
       else match data b with
            | None => Fault
            | Some m => m0 <- memcpy m (dptr b) s ;;
                        m1 <- poke m0 (dptr b + len s) zero ;;
                        Ok {| data := Some m1; dptr := dptr b + len s; dsize := dsize b |}
            end) = Ok buf' /\
      dptr buf' = dptr buf + len s /\ dptr buf' < dsize buf' /\
      dsize buf' <= allocated buf' /\
      (dsize buf' = dsize buf \/ dsize buf' = dsize buf + Z.max 128 (len s + 1)) /\
      content buf' = content buf ++ s /\ peek (bytes buf') (dptr buf') = zero).
  { intros b m Hd Hp Hp0 Hroom Hlen Hpre Hsz.
    unfold dptr_is_null. rewrite Hd.
    destruct (memcpy m (dptr b) s) as [m0 | |] eqn:E0;
      try (rewrite memcpy_Ok in E0 by lia; discriminate).
    pose proof (memcpy_len _ _ _ _ E0) as L0.
    simpl bind.
    destruct (poke m0 (dptr b + len s) zero) as [m1 | |] eqn:E1;
      try (unfold poke in E1; rewrite memcpy_Ok in E1
             by (change (len [zero]) with 1; lia); discriminate).
    simpl bind. eexists. split; [reflexivity |]. simpl.
    pose proof (memcpy_len _ _ _ _ E1) as L1.
    repeat split; try lia.
    - unfold allocated. simpl. lia.
    - unfold content, bytes. simpl.
      rewrite (memcpy_prefix _ _ _ _ (Z.to_nat (dptr b + len s)) E1) by lia.
      rewrite (memcpy_firstn _ _ _ _ E0). rewrite Hp, Hpre. reflexivity.
    - unfold bytes. simpl. eapply poke_peek. exact E1. }
  destruct (dptr buf + len s + 1 >? dsize buf) eqn:G.
  - apply Z.gtb_lt in G.
    destruct (grow_spec buf inc (dptr buf) Hu) as (m' & Hd & Hl & Hsz & Hp & Hpre);
      [lia | lia |].
    apply (Hstep _ m'); auto; try lia.
  - assert (G' : dptr buf + len s + 1 <= dsize buf).
    { destruct (Z.gtb_spec (dptr buf + len s + 1) (dsize buf)); [discriminate | lia]. }
    assert (Hm : exists m, data buf = Some m /\ dsize buf <= len m).
    { unfold allocated in Ha. destruct (data buf) as [m |]; [eauto | lia]. }
    destruct Hm as (m & Hd & Hm).
    apply (Hstep buf m); auto; try lia.
    unfold content, bytes. rewrite Hd. reflexivity.
Qed.

End BufferFacts.

Lemma memcpy_app_inv (m : block) (i : Z) (t u : list ascii) (m' : block) :
  memcpy m i (t ++ u) = Ok m' ->
  exists m0, memcpy m i t = Ok m0 /\ memcpy m0 (i + len t) u = Ok m'.
Proof.
  intros H. apply memcpy_inv in H. destruct H as (Hi & Hj & ->).
  rewrite len_app in Hj. pose proof (len_nonneg t). pose proof (len_nonneg u).
  eexists. split; [apply memcpy_Ok; lia |].
  set (m0 := firstn (Z.to_nat i) m ++ t ++ skipn (Z.to_nat i + length t) m).
  assert (L0 : len m0 = len m).
  { unfold m0, len in *. rewrite !length_app, length_firstn, length_skipn. lia. }
  rewrite memcpy_Ok by lia. f_equal.
  assert (F : firstn (Z.to_nat (i + len t)) m0 = firstn (Z.to_nat i) m ++ t).
  { apply memcpy_firstn. apply memcpy_Ok; lia. }
  rewrite F. rewrite <- !app_assoc. f_equal. f_equal. f_equal.
  unfold m0. rewrite app_assoc. rewrite skipn_app.
  rewrite length_app, length_firstn. unfold len in *.
  rewrite (skipn_all2 (firstn (Z.to_nat i) m ++ t))
    by (rewrite length_app, length_firstn; lia).
  simpl. rewrite skipn_skipn. f_equal. rewrite length_app. lia.
Qed.

(** A string stored with its terminator: the first [i] bytes are kept, the
    string follows, and the byte after it is NUL. *)
Lemma memcpy_terminated (m : block) (i : Z) (t : list ascii) (m' : block) :
  memcpy m i (t ++ [zero]) = Ok m' ->
  len m' = len m /\
  firstn (Z.to_nat (i + len t)) m' = firstn (Z.to_nat i) m ++ t /\
  peek m' (i + len t) = zero.
Proof.
  intros H. pose proof (memcpy_len _ _ _ _ H) as L.
  apply memcpy_app_inv in H. destruct H as (m0 & H0 & H1).
  pose proof (memcpy_inv _ _ _ _ H0) as (Hi & _ & _).
  pose proof (len_nonneg t).
  split; [exact L |]. split.
  - rewrite (memcpy_prefix _ _ _ _ _ H1) by lia. apply memcpy_firstn. exact H0.
  - eapply poke_peek. exact H1.
Qed.

Section PrintfFacts.

Variable heap_junk : nat -> ascii.

(** What [mutt_buffer_printf] does to a usable buffer whose sizes fit [int]. *)
Lemma buffer_printf_spec (buf : Buffer) (text : list ascii) :
  usable buf ->
  dsize buf + len text + 129 < 2 ^ 31 ->
  exists buf',
    mutt_buffer_printf heap_junk buf text = Ok (buf', len text) /\
    dptr buf' = dptr buf + len text /\
    dptr buf' < dsize buf' /\
    dsize buf' <= allocated buf' /\
    content buf' = content buf ++ text /\
    peek (bytes buf') (dptr buf') = zero.
Proof.
  intros ((Hc1 & Hc2) & Ha) Hfit.
  pose proof (len_nonneg text) as HL.
  assert (P31 : 2 ^ 31 = 2147483648) by reflexivity.
  assert (P64 : 2 ^ 64 = 18446744073709551616) by reflexivity.
  unfold mutt_buffer_printf.
  (* the buffer after the optional rewind has the same fields *)
  set (b0 := if dptr_is_null buf then mutt_buffer_rewind buf else buf).
  assert (B0 : data b0 = data buf /\ dptr b0 = dptr buf /\ dsize b0 = dsize buf).
  { unfold b0, dptr_is_null. destruct (data buf) eqn:Hd; auto.
    destruct (dptr buf =? 0) eqn:E; auto.
    apply Z.eqb_eq in E. simpl. auto. }
  destruct B0 as (Bd & Bp & Bz). rewrite Bp, Bz.
  rewrite (int_small (dptr buf)) by lia.
  rewrite (int_small (dsize buf - dptr buf)) by lia.
  rewrite (int_small (len text)) by lia.
  (* the buffer the first vsnprintf writes into *)
  assert (S1 : exists b1 blen m1,
    (if dsize buf - dptr buf =? 0
     then (grow heap_junk b0 128 (dptr buf), 128)
     else (b0, dsize buf - dptr buf)) = (b1, blen) /\
    data b1 = Some m1 /\ dptr b1 = dptr buf /\ 1 <= blen /\
    dptr buf + blen = dsize b1 /\ dsize b1 <= len m1 /\
    dsize b1 <= dsize buf + 128 /\
    firstn (Z.to_nat (dptr buf)) m1 = content buf).
  { destruct (dsize buf - dptr buf =? 0) eqn:E.
    - apply Z.eqb_eq in E.
      assert (U0 : usable b0).
      { unfold usable, allocated. rewrite Bd, Bp, Bz. unfold allocated in Ha. lia. }
      destruct (grow_spec heap_junk b0 128 (dptr buf) U0) as (m' & Hd & Hl & Hz & Hp & Hpre);
        [lia | lia |].
      exists (grow heap_junk b0 128 (dptr buf)), 128, m'.
      rewrite Hz, Hp, Bz. repeat split; auto; try lia.
      rewrite Bp in Hpre. rewrite Hpre. unfold content, bytes. rewrite Bd, Bp. reflexivity.
    - apply Z.eqb_neq in E.
      assert (Hm : exists m, data buf = Some m /\ dsize buf <= len m).
      { unfold allocated in Ha. destruct (data buf) as [m |]; [eauto | lia]. }
      destruct Hm as (m & Hd & Hm).
      exists b0, (dsize buf - dptr buf), m.
      rewrite Bd, Bp, Bz. repeat split; auto; try lia.
      unfold content, bytes. rewrite Hd. reflexivity. }
  destruct S1 as (b1 & blen & m1 & -> & Hd1 & Hp1 & Hb & Hz1 & Hl1 & Hz1' & Hpre1).
  rewrite Hd1, Hp1. unfold vsnprintf at 1.
  rewrite (size_t_small blen) by lia.
  destruct (blen =? 0) eqn:E0; [apply Z.eqb_eq in E0; lia |].
  set (k := Z.to_nat (Z.min (len text) (blen - 1))).
  assert (Hk : len (firstn k text) = Z.min (len text) (blen - 1)).
  { subst k. unfold len in *. rewrite length_firstn. lia. }
  destruct (memcpy m1 (dptr buf) (firstn k text ++ [zero])) as [m2 | |] eqn:E2;
    try (rewrite memcpy_Ok in E2
           by (try rewrite len_app; change (len [zero]) with 1; lia); discriminate).
  simpl bind. cbn [data dptr dsize].
  pose proof (memcpy_terminated _ _ _ _ E2) as (L2 & F2 & K2).
  destruct (len text >=? blen) eqn:G.
  - assert (G' : blen <= len text).
    { destruct (Z.geb_spec (len text) blen); [lia | discriminate]. }
    rewrite (int_small (len text + 1)) by lia.
    rewrite (int_small (len text + 1 - blen)) by lia.
    set (inc := if len text + 1 - blen <? 128 then 128 else len text + 1 - blen).
    assert (Hinc : 128 <= inc /\ len text + 1 - blen <= inc /\ inc <= len text + 129).
    { unfold inc. destruct (len text + 1 - blen <? 128) eqn:E;
        [apply Z.ltb_lt in E | apply Z.ltb_ge in E]; lia. }
    set (b2 := {| data := Some m2; dptr := dptr buf; dsize := dsize b1 |}).
    assert (U2 : usable b2).
    { unfold usable, allocated, b2. simpl. lia. }
    destruct (grow_spec heap_junk b2 inc (dptr buf) U2) as (m3 & Hd3 & Hl3 & Hz3 & Hp3 & Hpre3);
      [lia | unfold b2; simpl; lia |].
    clear Hp3. unfold grow, mutt_buffer_seek, b2 in Hd3, Hz3.
    cbn [data dptr dsize] in Hd3, Hz3.
    rewrite Hd3, !Hz3. unfold vsnprintf.
    rewrite (size_t_small (len text + 1)) by lia.
    destruct (len text + 1 =? 0) eqn:E1; [apply Z.eqb_eq in E1; lia |].
    replace (Z.min (len text) (len text + 1 - 1)) with (len text) by lia.
    replace (Z.to_nat (len text)) with (length text) by (unfold len; lia).
    rewrite firstn_all.
    unfold b2 in Hl3, Hpre3. cbn [data dptr dsize] in Hl3, Hpre3.
    destruct (memcpy m3 (dptr buf) (text ++ [zero])) as [m4 | |] eqn:E4;
      try (rewrite memcpy_Ok in E4
             by (try rewrite len_app; change (len [zero]) with 1; lia); discriminate).
    simpl bind.
    pose proof (memcpy_terminated _ _ _ _ E4) as (L4 & F4 & K4).
    destruct (len text >? 0) eqn:P;
      [| destruct (Z.gtb_spec (len text) 0); [discriminate | lia]].
    eexists. split; [reflexivity |]. cbn [data dptr dsize].
    unfold b2. cbn [dsize].
    repeat split; try lia.
    + unfold allocated. simpl. lia.
    + unfold content at 1, bytes. cbn [data dptr block_of]. rewrite F4.
      f_equal. unfold content, bytes in Hpre3. cbn [data dptr block_of] in Hpre3.
      rewrite Hpre3. rewrite <- Hpre1.
      apply (memcpy_prefix _ _ _ _ _ E2). lia.
    + unfold bytes. simpl. exact K4.
  - assert (G' : len text < blen).
    { destruct (Z.geb_spec (len text) blen); [discriminate | lia]. }
    simpl bind.
    assert (Kt : firstn k text = text).
    { apply firstn_all2. unfold k, len in *. lia. }
    rewrite Kt in *.
    exists {| data := Some m2; dptr := dptr buf + len text; dsize := dsize b1 |}.
    split.
    { destruct (len text >? 0) eqn:P; [reflexivity |].
      assert (len text = 0) by (destruct (Z.gtb_spec (len text) 0); [discriminate | lia]).
      do 2 f_equal. replace (dptr buf + len text) with (dptr buf) by lia. reflexivity. }
    cbn [data dptr dsize]. repeat split; try lia.
    + unfold allocated. simpl. lia.
    + unfold content at 1, bytes. cbn [data dptr block_of]. rewrite F2, Hpre1. reflexivity.
    + unfold bytes. simpl. exact K2.
Qed.

End PrintfFacts.

(** ** Claims about the Buffer *)

(** C10. In mutt_buffer_add, for a buffer whose cursor offset is at most
    its capacity, the one growth step of max(128, len+1) bytes is enough:
    after the reallocation (the new size being representable), cursor offset
    + len + 1 <= new capacity, and the call completes with the copy of the
    [len] bytes and the terminator inside the allocation. *)
Theorem buffer_add_single_growth (heap_junk : nat -> ascii) (buf : Buffer) (s : list ascii) :
  0 <= dptr buf <= dsize buf ->
  dsize buf + Z.max 128 (len s + 1) < 2 ^ 64 ->
  dptr buf + len s + 1 > dsize buf ->
  let grown := grow heap_junk buf (if len s <? 128 then 128 else len s + 1) (dptr buf) in
  dsize grown = dsize buf + Z.max 128 (len s + 1) /\
  allocated grown = dsize grown /\
  dptr grown + len s + 1 <= dsize grown /\
  exists buf',
    mutt_buffer_add heap_junk buf (Some s) = Ok buf' /\
    dsize buf' = dsize grown /\ allocated buf' = dsize buf' /\
    dptr buf' = dptr buf + len s /\ dptr buf' + 1 <= dsize buf'.
Proof.
  intros Hc Hfit Hneed grown.
  pose proof (len_nonneg s) as Hs.
  assert (Hinc : (if len s <? 128 then 128 else len s + 1) = Z.max 128 (len s + 1)).
  { destruct (len s <? 128) eqn:E;
      [apply Z.ltb_lt in E | apply Z.ltb_ge in E]; lia. }
  assert (G : exists m, data grown = Some m /\ len m = dsize buf + Z.max 128 (len s + 1)
                        /\ dsize grown = dsize buf + Z.max 128 (len s + 1)
                        /\ dptr grown = dptr buf).
  { unfold grown, grow, mutt_buffer_seek. cbn [data dptr dsize].
    rewrite Hinc. rewrite size_t_small by lia.
    destruct (realloc_spec heap_junk (data buf) (dsize buf + Z.max 128 (len s + 1)))
      as (m & E & Hl & _); [lia |].
    exists m. rewrite E. auto. }
  destruct G as (m & Gd & Gl & Gz & Gp).
  split; [exact Gz |]. split; [unfold allocated; rewrite Gd; lia |].
  split; [lia |].
  unfold mutt_buffer_add.
  destruct (dptr buf + len s + 1 >? dsize buf) eqn:T;
    [| destruct (Z.gtb_spec (dptr buf + len s + 1) (dsize buf)); [discriminate | lia]].
  fold grown. clearbody grown. unfold dptr_is_null. rewrite Gd, Gp.
  destruct (memcpy m (dptr buf) s) as [m0 | |] eqn:E0;
    try (rewrite memcpy_Ok in E0 by lia; discriminate).
  pose proof (memcpy_len _ _ _ _ E0) as L0. simpl bind.
  destruct (poke m0 (dptr buf + len s) zero) as [m1 | |] eqn:E1;
    try (unfold poke in E1; rewrite memcpy_Ok in E1
           by (change (len [zero]) with 1; lia); discriminate).
  pose proof (memcpy_len _ _ _ _ E1) as L1. simpl bind.
  eexists. split; [reflexivity |]. cbn [data dptr dsize]. unfold allocated. simpl.
  repeat split; lia.
Qed.

Lemma buffer_add_single_growth_witness :
  exists buf',
    mutt_buffer_add (fun _ => "x") (mutt_buffer_from (mkBuffer None 0 0) (Some (str "abc")))
                    (Some (str "de")) = Ok buf' /\
    dsize buf' = 131 /\ dptr buf' = 5.
Proof.
  destruct (buffer_add_single_growth (fun _ => "x")
              (mutt_buffer_from (mkBuffer None 0 0) (Some (str "abc"))) (str "de"))
    as (_ & _ & _ & buf' & H & Hz & _ & Hp & _).
  - vm_compute. split; discriminate.
  - vm_compute. reflexivity.
  - vm_compute. reflexivity.
  - exists buf'. split; [exact H |]. split; [rewrite Hz | rewrite Hp]; vm_compute; reflexivity.
Defined.



Lemma invariant_of_writer (buf : Buffer) :
  0 <= dptr buf -> dptr buf < dsize buf -> dsize buf <= allocated buf ->
  peek (bytes buf) (dptr buf) = zero ->
  invariant buf.
Proof.
  intros H0 H1 H2 H3. unfold invariant, allocated, bytes in *.
  destruct (data buf) as [m |]; simpl in *; [| lia].
  repeat split; try lia. exists (dptr buf). split; [lia | exact H3].
Qed.

Lemma usable_dptr_nonneg (buf : Buffer) : usable buf -> 0 <= dptr buf.
Proof. intros ((? & ?) & ?). assumption. Qed.

(** The claim C4 as stated fails after [from]: the cursor offset of a buffer
    made from "abc" is 3, its capacity is 3, and its data is not empty. *)
Lemma buffer_from_cursor_at_capacity :
  let buf := mutt_buffer_from (mkBuffer None 0 0) (Some (str "abc")) in
  data buf = Some (str "abc" ++ [zero]) /\ dptr buf = 3 /\ dsize buf = 3 /\
  ~ (data buf <> None -> 0 <= dptr buf < dsize buf).
Proof.
  vm_compute. repeat split; try reflexivity.
  intros H. destruct H as [_ H]; [discriminate |]. discriminate.
Qed.

(** C4, amended.  init and reinit establish the invariant (cursor within
    [0, capacity) when data is not NULL, a zero byte at or after the cursor
    inside the capacity); reset, rewind and the operations given a null
    string keep it; add and addstr of a string, addch and printf establish
    it from any buffer whose cursor is at most its capacity (sizes
    representable), and leave the zero byte at the cursor itself.
    from(seed), for a non-empty seed, leaves the cursor at the capacity
    strlen(seed), with the terminating zero byte at that index, behind the
    recorded capacity. *)
Theorem buffer_ops_invariant (heap_junk : nat -> ascii) (op : buffer_op) (buf : Buffer) :
  op_pre op buf ->
  exists buf', run_op heap_junk op buf = Ok buf' /\ op_post op buf'.
Proof.
  intros Hpre.
  assert (Hadd : forall s, usable buf -> dsize buf + Z.max 128 (len s + 1) < 2 ^ 64 ->
            exists buf', mutt_buffer_add heap_junk buf (Some s) = Ok buf' /\
                         invariant buf' /\ terminated_at_cursor buf').
  { intros s Hu Hfit.
    destruct (buffer_add_spec heap_junk buf s Hu Hfit)
      as (b' & E & Hp & Hlt & Ha & _ & _ & Ht).
    exists b'. split; [exact E |]. split; [| exact Ht].
    pose proof (usable_dptr_nonneg _ Hu). pose proof (len_nonneg s).
    apply invariant_of_writer; auto; lia. }
  destruct op as [ | | | s | s | c | text | seed | ]; simpl in *.
  - eexists. split; [reflexivity |]. unfold invariant. simpl. auto.
  - eexists. split; [reflexivity |]. unfold invariant. simpl. auto.
  - unfold mutt_buffer_reset. unfold invariant in Hpre.
    destruct (data buf) as [m |] eqn:Hd.
    + destruct Hpre as ((H0 & H1) & H2 & _).
      unfold memset0.
      destruct ((0 <=? dsize buf) && (dsize buf <=? len m)) eqn:G.
      * simpl bind. eexists. split; [reflexivity |].
        unfold invariant, mutt_buffer_rewind, mutt_buffer_seek. cbn [data dptr dsize].
        split; [lia |]. split.
        { unfold len in *. rewrite length_app, repeat_length, length_skipn. lia. }
        exists 0. split; [lia |]. unfold peek. simpl.
        destruct (Z.to_nat (dsize buf)) eqn:N; [lia |]. reflexivity.
      * apply andb_false_iff in G. destruct G as [G | G]; apply Z.leb_gt in G; lia.
    + destruct Hpre as (H0 & H1). rewrite H1. simpl.
      eexists. split; [reflexivity |].
      unfold invariant, mutt_buffer_rewind, mutt_buffer_seek. cbn [data dptr dsize].
      rewrite Hd. auto.
  - destruct s as [s |].
    + destruct Hpre as (Hu & Hfit). apply Hadd; assumption.
    + eexists. split; [reflexivity | exact Hpre].
  - unfold mutt_buffer_addstr. destruct s as [s |].
    + destruct Hpre as (Hu & Hfit). apply Hadd; assumption.
    + eexists. split; [reflexivity | exact Hpre].
  - unfold mutt_buffer_addch. destruct Hpre as (Hu & Hfit).
    apply Hadd; [assumption |]. change (len [c]) with 1. lia.
  - destruct Hpre as (Hu & Hfit).
    destruct (buffer_printf_spec heap_junk buf text Hu Hfit)
      as (b' & E & Hp & Hlt & Ha & _ & Ht).
    exists b'. rewrite E. simpl. split; [reflexivity |]. split; [| exact Ht].
    pose proof (usable_dptr_nonneg _ Hu). pose proof (len_nonneg text).
    apply invariant_of_writer; auto; lia.
  - destruct seed as [seed |].
    + destruct Hpre as (Hne & Hfit). eexists. split; [reflexivity |].
      unfold mutt_buffer_from, mutt_buffer_seek, mutt_buffer_init, mutt_str_strlen, bytes.
      cbn [data dptr dsize].
      pose proof (len_nonneg seed).
      rewrite size_t_small by lia.
      repeat split; auto.
      simpl block_of. unfold peek, len.
      rewrite app_nth2 by lia.
      replace (Z.to_nat (Z.of_nat (length seed)) - length seed)%nat with 0%nat by lia.
      reflexivity.
    + eexists. split; [reflexivity | exact Hpre].
  - eexists. split; [reflexivity |].
    unfold invariant in *. unfold mutt_buffer_rewind, mutt_buffer_seek. cbn [data dptr dsize].
    destruct (data buf) as [m |].
    + destruct Hpre as ((H0 & H1) & H2 & k & Hk & Hz).
      split; [lia |]. split; [lia |]. exists k. split; [lia | exact Hz].
    + destruct Hpre as (_ & H1). auto.
Qed.

Lemma buffer_ops_invariant_witness :
  exists buf',
    run_op (fun _ => "x") (OpAddch "d")
           (mutt_buffer_from (mkBuffer None 0 0) (Some (str "abc"))) = Ok buf' /\
    invariant buf' /\ terminated_at_cursor buf'.
Proof.
  apply (buffer_ops_invariant (fun _ => "x") (OpAddch "d")
           (mutt_buffer_from (mkBuffer None 0 0) (Some (str "abc")))).
  vm_compute. repeat split; discriminate.
Defined.

(** ** The renderer: evaluation lemmas *)

Lemma memcpy_skipn (m : block) (i : Z) (s : list ascii) (m' : block) (j : nat) :
  memcpy m i s = Ok m' -> (Z.to_nat i + length s <= j)%nat -> skipn j m' = skipn j m.
Proof.
  intros H Hj. apply memcpy_inv in H. destruct H as (Hi & Hl & ->).
  unfold len in *.
  rewrite app_assoc, skipn_app.
  rewrite (skipn_all2 (firstn (Z.to_nat i) m ++ s))
    by (rewrite length_app, length_firstn; lia).
  simpl. rewrite length_app, length_firstn, skipn_skipn. f_equal. lia.
Qed.

Lemma poke_Ok (m : block) (i : Z) (c : ascii) :
  0 <= i < len m ->
  poke m i c = Ok (firstn (Z.to_nat i) m ++ c :: skipn (Z.to_nat (i + 1)) m).
Proof.
  intros H. unfold poke. rewrite memcpy_Ok by (change (len [c]) with 1; lia).
  simpl. repeat f_equal. lia.
Qed.

Lemma cstr_app_zero (t r : list ascii) :
  Forall (fun c => c <> zero) t -> cstr (t ++ zero :: r) = t.
Proof.
  induction 1 as [| c t Hc _ IH]; simpl.
  - reflexivity.
  - unfold is_nul. destruct (Ascii.eqb_spec c zero); [contradiction |].
    rewrite IH. reflexivity.
Qed.

Lemma collapse_no_nul (s T : list ascii) :
  collapse s = Some T -> Forall (fun c => c <> zero) T.
Proof.
  remember (length s) as n eqn:Hn. revert s T Hn.
  induction n as [n IH] using lt_wf_ind. intros s T Hn H.
  destruct s as [| c r]; simpl in H.
  - injection H as <-. constructor.
  - destruct (Ascii.eqb_spec c "%").
    + destruct r as [| c2 r2]; [discriminate |].
      destruct (Ascii.eqb c2 "%"); [| discriminate].
      destruct (collapse r2) as [T2 |] eqn:E2; [| discriminate].
      injection H as <-. constructor; [discriminate |].
      apply (IH (length r2)) with (s := r2); auto. subst n. simpl. lia.
    + destruct (Ascii.eqb c "\"); [discriminate |].
      unfold is_nul in H. destruct (Ascii.eqb_spec c zero); [discriminate |].
      destruct (collapse r) as [T2 |] eqn:E2; [| discriminate].
      injection H as <-. constructor; [assumption |].
      apply (IH (length r)) with (s := r); auto. subst n. simpl. lia.
Qed.

Lemma firstn_succ_memcpy (m : block) (i : Z) (c : ascii) (m' : block) :
  memcpy m i [c] = Ok m' ->
  firstn (Z.to_nat (i + 1)) m' = firstn (Z.to_nat i) m ++ [c].
Proof. intros H. apply (memcpy_firstn m i [c] m' H). Qed.

Lemma literal_budget_range (room : Z) (s : list ascii) :
  0 <= literal_budget room s /\ (0 <= room -> literal_budget room s <= room).
Proof.
  unfold literal_budget. destruct (Z.leb_spec room 0); [lia |].
  destruct (escaped_at s (Z.to_nat (room - 1))); lia.
Qed.

Lemma literal_budget_escape (room : Z) (r : list ascii) :
  1 <= room ->
  literal_budget room ("%" :: "%" :: r) = 1 + literal_budget (room - 1) r.
Proof.
  intros Hr. unfold literal_budget.
  destruct (Z.leb_spec room 0); [lia |].
  destruct (Z.leb_spec (room - 1) 0).
  - replace (Z.to_nat (room - 1)) with 0%nat by lia. cbn. lia.
  - replace (Z.to_nat (room - 1)) with (S (Z.to_nat (room - 1 - 1))) by lia.
    cbn [escaped_at]. change (Ascii.eqb "%" "%") with true. cbv iota.
    destruct (escaped_at r (Z.to_nat (room - 1 - 1))); lia.
Qed.

Lemma literal_budget_literal (room : Z) (c : ascii) (r : list ascii) :
  c <> "%" -> 2 <= room ->
  literal_budget room (c :: r) = 1 + literal_budget (room - 1) r.
Proof.
  intros Hc Hr. unfold literal_budget.
  destruct (Z.leb_spec room 0); [lia |].
  destruct (Z.leb_spec (room - 1) 0); [lia |].
  replace (Z.to_nat (room - 1)) with (S (Z.to_nat (room - 1 - 1))) by lia.
  cbn [escaped_at]. destruct (Ascii.eqb_spec c "%"); [contradiction |].
  destruct (escaped_at r (Z.to_nat (room - 1 - 1))); lia.
Qed.

Lemma literal_budget_last (c : ascii) (r : list ascii) :
  c <> "%" -> literal_budget 1 (c :: r) = 0.
Proof.
  intros Hc. unfold literal_budget. cbn. destruct (Ascii.eqb_spec c "%"); [contradiction |].
  reflexivity.
Qed.

Section LiteralText.

Variable E : collaborators.
Variable render : block -> Z -> Z -> Z -> list ascii -> Z -> result block.
Variables buflen cols : Z.
Hypothesis buflen_range : 0 <= buflen < 2 ^ 64.

(** One byte stored through [wptr]. *)
Lemma emit_byte (st : scan_state) (c : ascii) (w : Z) :
  0 <= st_wptr st < len (st_buf st) -> 0 <= st_wlen st < buflen ->
  exists m,
    memcpy (st_buf st) (st_wptr st) [c] = Ok m /\
    emit st [c] w =
      Ok (set_buf (set_cursor st (st_wptr st + 1) (st_wlen st + 1)
                              (size_t (st_col st + w))) m).
Proof.
  intros Hp Hl. unfold emit. change (len [c]) with 1.
  destruct (memcpy (st_buf st) (st_wptr st) [c]) as [m | |] eqn:Em;
    try (rewrite memcpy_Ok in Em by (change (len [c]) with 1; lia); discriminate).
  exists m. split; [reflexivity |]. simpl bind.
  rewrite (size_t_small (st_wlen st + 1)) by lia. reflexivity.
Qed.

(** The loop is left, and the terminator stored, when the template is
    exhausted or [wlen] has reached [buflen]. *)
Lemma scan_exit (n : nat) (st : scan_state) :
  negb (is_nul (hd0 (st_src st))) && (st_wlen st <? buflen) = false ->
  scan E render n buflen cols st = poke (st_buf st) (st_wptr st) zero.
Proof. intros H. destruct n; simpl; rewrite H; reflexivity. Qed.

(** The main loop over a template of literal single-byte text and [%%]
    escapes: it stores the first [literal_budget] characters of the
    collapsed text, the whole of it when [wlen] stays below [buflen], and
    the terminator. *)
Lemma scan_literal (n : nat) : forall s T st,
  collapse s = Some T -> single_byte_text E s -> (length s < n)%nat ->
  st_src st = s -> 0 <= st_wptr st <= st_wlen st -> st_wptr st <= buflen ->
  buflen < len (st_buf st) ->
  exists k, 0 <= k <= len T /\ st_wptr st + k <= buflen /\
    (st_wlen st + len T < buflen -> k = len T) /\
    k = Z.min (len T) (literal_budget (buflen - st_wlen st) s) /\
    scan E render n buflen cols st =
      Ok (firstn (Z.to_nat (st_wptr st)) (st_buf st) ++ firstn (Z.to_nat k) T
          ++ zero :: skipn (Z.to_nat (st_wptr st + k + 1)) (st_buf st)).
Proof.
  induction n as [| n IH]; intros s T st Hc Hsb Hn Hsrc Hw Hwb Hbuf; [lia |].
  pose proof (len_nonneg T) as HT.
  assert (Hexit : poke (st_buf st) (st_wptr st) zero =
                  Ok (firstn (Z.to_nat (st_wptr st)) (st_buf st) ++ firstn (Z.to_nat 0) T
                      ++ zero :: skipn (Z.to_nat (st_wptr st + 0 + 1)) (st_buf st))).
  { rewrite poke_Ok by lia. simpl. repeat f_equal. lia. }
  (* what a round that stores one byte and continues leads to *)
  assert (Hround : forall c w r T2,
    T = c :: T2 -> collapse r = Some T2 -> single_byte_text E r ->
    (length r < n)%nat -> st_wlen st < buflen ->
    literal_budget (buflen - st_wlen st) s =
      1 + literal_budget (buflen - (st_wlen st + 1)) r ->
    exists k, 0 <= k <= len T /\ st_wptr st + k <= buflen /\
      (st_wlen st + len T < buflen -> k = len T) /\
      k = Z.min (len T) (literal_budget (buflen - st_wlen st) s) /\
      (c0 <- (st' <- emit st [c] w ;; Ok (Continue (set_src st' r))) ;;
       match c0 with
       | Continue st0 => scan E render n buflen cols st0
       | Break st0 => poke (st_buf st0) (st_wptr st0) zero
       end) =
      Ok (firstn (Z.to_nat (st_wptr st)) (st_buf st) ++ firstn (Z.to_nat k) T
          ++ zero :: skipn (Z.to_nat (st_wptr st + k + 1)) (st_buf st))).
  { intros c w r T2 HT2 Hc2 Hsb2 Hn2 Hlt Hbud.
    destruct (emit_byte st c w) as (m & Em & ->); [lia | lia |].
    simpl bind.
    pose proof (memcpy_len _ _ _ _ Em) as Lm.
    destruct (IH r T2 (set_src (set_buf (set_cursor st (st_wptr st + 1) (st_wlen st + 1)
                                          (size_t (st_col st + w))) m) r))
      as (k & Hk & Hkb & Hall & Hcut & ->); auto; cbn [st_src st_wptr st_wlen st_buf set_src
                                                 set_buf set_cursor] in *; try lia.
    exists (k + 1). subst T. rewrite len_cons.
    split; [lia |]. split; [lia |]. split; [intros; lia |].
    split; [rewrite Hbud; lia |].
    f_equal.
    rewrite (firstn_succ_memcpy _ _ _ _ Em).
    rewrite (memcpy_skipn _ _ _ _ _ Em) by (simpl; lia).
    rewrite <- app_assoc.
    replace (Z.to_nat (k + 1)) with (S (Z.to_nat k)) by lia.
    replace (st_wptr st + (k + 1) + 1) with (st_wptr st + 1 + k + 1) by lia.
    reflexivity. }
  destruct st as [src wptr wlen col flags prefix ifs els tmp buf].
  cbn [st_src st_wptr st_wlen st_col st_buf] in *. subst src.
  cbn [scan st_src st_wlen st_buf st_wptr].
  destruct s as [| c r].
  - simpl. exists 0. split; [lia |]. split; [lia |].
    simpl in Hc. injection Hc as <-. split; [reflexivity |].
    split; [| exact Hexit].
    change (len []) with 0. pose proof (literal_budget_range (buflen - wlen) []). lia.
  - cbn [hd0 hd].
    destruct (wlen <? buflen) eqn:Hlt.
    2:{ rewrite andb_false_r. exists 0. apply Z.ltb_ge in Hlt.
        split; [lia |]. split; [lia |]. split; [intros; lia |].
        split; [| exact Hexit].
        unfold literal_budget. destruct (Z.leb_spec (buflen - wlen) 0); lia. }
    apply Z.ltb_lt in Hlt. rewrite andb_true_r.
    simpl in Hc. unfold step. cbn [st_src hd0 hd tl].
    destruct (Ascii.eqb_spec c "%") as [-> | Hpc].
    + (* an escape [%%] *)
      destruct r as [| c2 r2]; [discriminate |].
      cbn [hd0 hd tl].
      destruct (Ascii.eqb_spec c2 "%") as [-> | ?]; [| discriminate].
      destruct (collapse r2) as [T2 |] eqn:E2; [| discriminate].
      injection Hc as <-.
      simpl is_nul. simpl negb. cbv iota.
      apply (Hround "%" 1 r2 T2); auto.
      * intros k Hk. specialize (Hsb (S (S k))). simpl in Hsb. apply Hsb. simpl in *. lia.
      * simpl in Hn. lia.
      * rewrite literal_budget_escape by lia. f_equal. f_equal. lia.
    + destruct (Ascii.eqb_spec c "\") as [-> | Hbc]; [discriminate |].
      unfold is_nul in *. destruct (Ascii.eqb_spec c zero) as [-> | Hzc]; [discriminate |].
      destruct (collapse r) as [T2 |] eqn:E2; [| discriminate].
      injection Hc as <-.
      simpl negb. cbv iota.
      pose proof (Hsb 0%nat) as H0. simpl in H0.
      destruct (mutt_mb_charlen E (c :: r)) as [bytes width] eqn:Ecl.
      simpl in H0. rewrite H0 by lia.
      change (1 <? 0) with false. cbn iota. change (1 >? 0) with true. rewrite andb_true_l.
      cbn [st_src st_wptr st_wlen st_col st_buf].
      rewrite (size_t_small (wlen + 1)) by lia.
      assert (Hsb2 : single_byte_text E r).
      { intros k Hk. specialize (Hsb (S k)). simpl in Hsb. apply Hsb. lia. }
      destruct (wlen + 1 <? buflen) eqn:Hroom.
      * change (read_bytes 1 (c :: r)) with [c].
        change (advance 1 (c :: r)) with r.
        apply Z.ltb_lt in Hroom.
        apply (Hround c width r T2); auto; [simpl in Hn; lia |].
        rewrite literal_budget_literal by (assumption || lia). f_equal. f_equal. lia.
      * apply Z.ltb_ge in Hroom. simpl bind.
        rewrite scan_exit
          by (cbn [st_src st_wlen set_src set_cursor]; rewrite Z.ltb_irrefl; apply andb_false_r).
        cbn [st_src st_wlen st_wptr st_buf set_src set_cursor].
        pose proof (len_nonneg T2).
        exists 0. split; [rewrite len_cons; lia |]. split; [lia |].
        split; [rewrite len_cons; intros; lia |].
        split; [| exact Hexit].
        replace (buflen - wlen) with 1 by lia.
        rewrite literal_budget_last by assumption. rewrite len_cons. lia.
Qed.

End LiteralText.

Lemma Forall_firstn_keep {A : Type} (P : A -> Prop) (k : nat) (l : list A) :
  Forall P l -> Forall P (firstn k l).
Proof.
  intros H. revert k. induction H as [| x l Hx _ IH]; intros [| k]; simpl; auto.
Qed.

(** A template without a pipe at its end is no filter request. *)
Lemma no_trailing_pipe_no_filter (E : collaborators) (src : list ascii) (flags : Z) :
  peek src (int (len src) - 1) <> "|" -> filter_requested E src flags = Ok false.
Proof.
  intros H. unfold filter_requested.
  destruct (Z.land flags (MUTT_FORMAT_NOFILTER E) =? 0); [| reflexivity].
  destruct (Ascii.eqb_spec (peek src (int (len src) - 1)) "|"); [contradiction |].
  rewrite andb_false_r. reflexivity.
Qed.

(** The rendering of a template of literal text and [%%] escapes. *)
Lemma render_literal_text (E : collaborators) (depth : nat) (buf : block)
        (buflen col cols : Z) (src T : list ascii) (flags : Z) :
  collapse src = Some T ->
  single_byte_text E src ->
  len src < STRING E ->
  filter_requested E src flags = Ok false ->
  1 <= buflen < 2 ^ 64 ->
  buflen <= len buf ->
  exists m k,
    mutt_expando_format E (S depth) buf buflen col cols src flags = Ok m /\
    cstr m = firstn k T /\
    peek m (len (cstr m)) = zero /\
    len (cstr m) <= buflen - 1 /\
    (arrow_cursor E flags + len T < buflen - 1 -> cstr m = T).
Proof.
  intros Hc Hsb Hlen Hnf Hcap Hbuf.
  cbn [mutt_expando_format]. unfold format_body.
  destruct (STRING E <=? len src) eqn:G; [apply Z.leb_le in G; lia |].
  rewrite Hnf. cbn [bind]. cbv iota.
  rewrite (size_t_small (buflen - 1)) by lia.
  assert (Ha : 0 <= arrow_cursor E flags).
  { unfold arrow_cursor. destruct (_ && _); lia. }
  destruct (scan_literal E (mutt_expando_format E depth) (buflen - 1) cols
              ltac:(lia) (S (length src)) src T
              (initial_state E buf (arrow_cursor E flags)
                             (size_t (col + arrow_cursor E flags)) src flags))
    as (k & Hk & Hkb & Hall & _ & ->); auto; cbn [initial_state st_src st_wptr st_wlen st_buf];
    try lia.
  cbn [initial_state st_src st_wptr st_wlen st_buf] in Hkb, Hall.
  pose proof (collapse_no_nul _ _ Hc) as Hnn.
  pose proof (Forall_firstn_keep _ (Z.to_nat k) _ Hnn) as Hnk.
  assert (Hl : len (firstn (Z.to_nat k) T) = k).
  { unfold len in *. rewrite length_firstn. lia. }
  eexists. exists (Z.to_nat k). split; [reflexivity |].
  simpl firstn. simpl app.
  rewrite cstr_app_zero by assumption.
  split; [reflexivity |]. split.
  { unfold peek. rewrite Hl. rewrite app_nth2 by (unfold len in Hl; lia).
    replace (Z.to_nat k - length (firstn (Z.to_nat k) T))%nat with 0%nat
      by (unfold len in Hl; lia).
    reflexivity. }
  split; [lia |].
  intros Hfit. rewrite (Hall Hfit).
  apply firstn_all2. unfold len. lia.
Qed.


(** ** The rounds of the main loop *)

Lemma length_tl_le (s : list ascii) : (length (tl s) <= length s)%nat.
Proof. destruct s; simpl; lia. Qed.

Lemma length_replace_question (s : list ascii) :
  length (replace_question s) = length s.
Proof.
  induction s as [| c r IH]; simpl; [reflexivity |].
  destruct (Ascii.eqb c "?"); simpl; congruence.
Qed.

Lemma length_skip_to_question (s : list ascii) :
  length (skip_to_question s) = length s.
Proof.
  induction s as [| c r IH]; simpl; [reflexivity |].
  destruct (Ascii.eqb c "?"); simpl; [rewrite length_replace_question |]; congruence.
Qed.

Lemma length_legacy_rewrite (s : list ascii) :
  s <> [] -> length (legacy_rewrite s) = length s.
Proof.
  intros H. unfold legacy_rewrite. rewrite length_skip_to_question.
  destruct s; [contradiction | reflexivity].
Qed.

Lemma eat_optional_prefix_le (n : nat) : forall s p r,
  eat_optional_prefix n s = (p, r) -> (length r <= length s)%nat.
Proof.
  induction n as [| n IH]; intros s p r H; simpl in H.
  - injection H as _ <-. lia.
  - destruct (Ascii.eqb (hd0 s) "?").
    + injection H as _ <-. lia.
    + destruct (eat_optional_prefix n (tl s)) as [p' r'] eqn:E.
      injection H as _ <-. apply IH in E. pose proof (length_tl_le s). lia.
Qed.

Lemma eat_format_prefix_le (n : nat) : forall s p r,
  eat_format_prefix n s = (p, r) -> (length r <= length s)%nat.
Proof.
  induction n as [| n IH]; intros s p r H; simpl in H.
  - injection H as _ <-. lia.
  - destruct (isdigit (hd0 s) || Ascii.eqb (hd0 s) "." || Ascii.eqb (hd0 s) "-"
              || Ascii.eqb (hd0 s) "=").
    + destruct (eat_format_prefix n (tl s)) as [p' r'] eqn:E.
      injection H as _ <-. apply IH in E. pose proof (length_tl_le s). lia.
    + injection H as _ <-. lia.
Qed.

Lemma eat_branch_le (n : nat) : forall size count lr s acc acc' s' lr',
  eat_branch n size count lr s acc = (acc', s', lr') -> (length s' <= length s)%nat.
Proof.
  induction n as [| n IH]; intros size count lr s acc acc' s' lr' H; simpl in H.
  - injection H as _ <- _. lia.
  - destruct ((lr >? 0) && (count <? size) && negb (is_nul (hd0 s))).
    2:{ injection H as _ <- _. lia. }
    pose proof (length_tl_le s) as T1. pose proof (length_tl_le (tl s)) as T2.
    destruct (Ascii.eqb (hd0 s) "%" && Ascii.eqb (hd0 (tl s)) ">").
    { apply IH in H. lia. }
    destruct (Ascii.eqb (hd0 s) "\").
    { destruct (lr =? 0); [injection H as _ <- _; lia |].
      destruct ((lr =? 1) && Ascii.eqb (hd0 (tl (tl s))) "&");
        [injection H as _ <- _; lia |].
      apply IH in H. pose proof (length_tl_le (tl (tl s))). lia. }
    destruct (Ascii.eqb (hd0 s) "%" && Ascii.eqb (hd0 (tl s)) "<").
    { destruct (lr + 1 =? 0); [injection H as _ <- _; lia |].
      destruct ((lr + 1 =? 1) && Ascii.eqb (hd0 s) "&"); [injection H as _ <- _; lia |].
      apply IH in H. lia. }
    destruct (Ascii.eqb (hd0 s) ">").
    { destruct (lr - 1 =? 0); [injection H as _ <- _; lia |].
      destruct ((lr - 1 =? 1) && Ascii.eqb (hd0 s) "&"); [injection H as _ <- _; lia |].
      apply IH in H. lia. }
    destruct (lr =? 0); [injection H as _ <- _; lia |].
    destruct ((lr =? 1) && Ascii.eqb (hd0 s) "&"); [injection H as _ <- _; lia |].
    apply IH in H. lia.
Qed.

Lemma modifiers_le (s : list ascii) : forall ch lower nodots ch' s' lower' nodots',
  modifiers ch s lower nodots = (ch', s', lower', nodots') -> (length s' <= length s)%nat.
Proof.
  induction s as [| c r IH]; intros ch lower nodots ch' s' lower' nodots' H; simpl in H.
  - destruct (Ascii.eqb ch "_" || Ascii.eqb ch ":"); injection H as _ <- _ _; simpl; lia.
  - destruct (Ascii.eqb ch "_" || Ascii.eqb ch ":").
    + apply IH in H. simpl. lia.
    + injection H as _ <- _ _. lia.
Qed.

Lemma parse_directive_le (E : collaborators) (s : list ascii) (st : scan_state)
      (d : directive) :
  parse_directive E s st = Ok (Some d) -> (length (d_src d) <= length s)%nat.
Proof.
  unfold parse_directive. intros H.
  set (s1 := if Ascii.eqb (hd0 s) "?" then legacy_rewrite s else s) in H.
  assert (L1 : length s1 = length s).
  { unfold s1. destruct (Ascii.eqb (hd0 s) "?") eqn:Q; [| reflexivity].
    apply length_legacy_rewrite. intros ->. discriminate. }
  clearbody s1.
  assert (Hhdr : forall flags ch p s2,
    (if Ascii.eqb (hd0 s1) "<"
     then let '(p, s) := eat_optional_prefix (Z.to_nat (SHORT_STRING E)) (tl (tl s1)) in
          if SHORT_STRING E <=? len p then Fault
          else Ok (Some (Z.lor (st_flags st) (MUTT_FORMAT_OPTIONAL E), hd0 (tl s1), p, s))
     else let '(p, s) := eat_format_prefix (Z.to_nat (SHORT_STRING E)) s1 in
          if SHORT_STRING E <=? len p then Fault
          else if is_nul (hd0 s) then Ok None
          else Ok (Some (Z.land (st_flags st) (Z.lnot (MUTT_FORMAT_OPTIONAL E)),
                         hd0 s, p, tl s))) = Ok (Some (flags, ch, p, s2)) ->
    (length s2 <= length s1)%nat).
  { intros flags ch p s2 Hh.
    destruct (Ascii.eqb (hd0 s1) "<").
    - destruct (eat_optional_prefix _ _) as [p' r'] eqn:Ee.
      destruct (SHORT_STRING E <=? len p'); [discriminate |].
      injection Hh as _ _ _ <-. apply eat_optional_prefix_le in Ee.
      pose proof (length_tl_le s1). pose proof (length_tl_le (tl s1)). lia.
    - destruct (eat_format_prefix _ _) as [p' r'] eqn:Ee.
      destruct (SHORT_STRING E <=? len p'); [discriminate |].
      destruct (is_nul (hd0 r')); [discriminate |].
      injection Hh as _ _ _ <-. apply eat_format_prefix_le in Ee.
      pose proof (length_tl_le r'). lia. }
  match type of H with
  | bind ?h _ = _ => destruct h as [[[[[flags ch] p] s2] |] | |] eqn:Eh;
                     cbn [bind] in H; try discriminate
  end.
  specialize (Hhdr flags ch p s2 eq_refl).
  destruct (Z.land flags (MUTT_FORMAT_OPTIONAL E) =? 0).
  { injection H as <-. simpl. lia. }
  destruct (negb (Ascii.eqb (hd0 s2) "?")); [discriminate |].
  destruct (eat_branch _ _ 0 1 (tl s2) []) as [[ifs s3] lr] eqn:E1.
  destruct (SHORT_STRING E <=? len ifs); [discriminate |].
  destruct (eat_branch _ _ 0 lr _ []) as [[els s4] lr'] eqn:E2.
  destruct (SHORT_STRING E <=? len els); [discriminate |].
  destruct (is_nul (hd0 s4)); [discriminate |].
  injection H as <-. simpl.
  apply eat_branch_le in E1. apply eat_branch_le in E2.
  pose proof (length_tl_le s2). pose proof (length_tl_le s3). pose proof (length_tl_le s4).
  destruct (Ascii.eqb (hd0 s3) "&"); lia.
Qed.

Lemma emit_src (st : scan_state) (s : list ascii) (w : Z) (st' : scan_state) :
  emit st s w = Ok st' -> st_src st' = st_src st.
Proof.
  unfold emit. destruct (memcpy _ _ _); cbn [bind]; try discriminate.
  intros H. injection H as <-. reflexivity.
Qed.

Lemma poke_no_timeout (m : block) (i : Z) (c : ascii) : poke m i c <> Timeout.
Proof. unfold poke, memcpy. destruct (_ && _); discriminate. Qed.

Section Rounds.

Variable E : collaborators.
Variable render : block -> Z -> Z -> Z -> list ascii -> Z -> result block.
Variables buflen cols : Z.

(** A round after which the loop goes on has moved [src] forward, or has
    set [wlen] to [buflen]. *)
Lemma step_progress (st st' : scan_state) :
  st_src st <> [] ->
  step E render buflen cols st = Ok (Continue st') ->
  (length (st_src st') < length (st_src st))%nat \/ (st_wlen st' <? buflen) = false.
Proof.
  intros Hne H. unfold step in H.
  destruct (st_src st) as [| c r] eqn:Es; [contradiction |]. clear Hne.
  cbn [hd0 hd tl] in H.
  destruct (Ascii.eqb c "%").
  - destruct (Ascii.eqb (hd0 r) "%").
    + destruct (emit st ["%"] 1) as [st1 | |] eqn:Ee; cbn [bind] in H; try discriminate.
      injection H as <-. left. cbn [set_src st_src]. simpl.
      pose proof (length_tl_le r). lia.
    + destruct (parse_directive E r st) as [[d |] | |] eqn:Ep; cbn [bind] in H;
        try discriminate.
      apply parse_directive_le in Ep.
      destruct (Ascii.eqb (d_ch d) ">" || Ascii.eqb (d_ch d) "*").
      { destruct (justify _ _ _ _ _ _); cbn [bind] in H; discriminate. }
      destruct (Ascii.eqb (d_ch d) "|").
      { destruct (pad_eol _ _ _ _); cbn [bind] in H; discriminate. }
      destruct (expando E buflen cols (d_ch d) (enter_directive st d)) as [st1 | |] eqn:Ex;
        cbn [bind] in H; try discriminate.
      injection H as <-. left.
      unfold expando in Ex. cbn [enter_directive st_src] in Ex.
      destruct (modifiers (d_ch d) (d_src d) false false) as [[[ch s1] lo] nd] eqn:Em.
      apply modifiers_le in Em.
      destruct (callback E _ _ _ _ _ _ _ _ _) as [text skip].
      destruct (memcpy _ 0 _) as [tmp | |]; cbn [bind] in Ex; try discriminate.
      apply emit_src in Ex. rewrite Ex. cbn [set_src st_src].
      rewrite length_skipn. simpl. lia.
  - destruct (Ascii.eqb c "\").
    + destruct (is_nul (hd0 r)); [discriminate |].
      destruct (emit st _ 1) as [st1 | |] eqn:Ee; cbn [bind] in H; try discriminate.
      injection H as <-. left. cbn [set_src st_src]. simpl.
      pose proof (length_tl_le r). lia.
    + destruct (mutt_mb_charlen E (c :: r)) as [b0 w0].
      destruct (if b0 <? 0 then (1, 1) else (b0, w0)) as [bytes width].
      destruct (bytes >? 0) eqn:Eb; cbn [andb] in H.
      * destruct (size_t (st_wlen st + bytes) <? buflen).
        -- destruct (emit st _ width) as [st1 | |] eqn:Ee; cbn [bind] in H; try discriminate.
           injection H as <-. left. cbn [set_src st_src].
           unfold advance. rewrite length_skipn. simpl length.
           destruct (Z.gtb_spec bytes 0); [lia | discriminate].
        -- injection H as <-. right. cbn [set_cursor st_wlen]. apply Z.ltb_irrefl.
      * injection H as <-. right. cbn [set_cursor st_wlen]. apply Z.ltb_irrefl.
Qed.

(** The loop never uses up its rounds: started with more rounds than the
    template is long, it times out only if a round does (in a call of the
    function to itself or in a spacing loop). *)
Lemma scan_rounds_enough :
  (forall st, step E render buflen cols st <> Timeout) ->
  forall n st, (length (st_src st) < n)%nat -> scan E render n buflen cols st <> Timeout.
Proof.
  intros Hstep n. induction n as [| n IH]; intros st Hn; [lia |].
  cbn [scan].
  destruct (negb (is_nul (hd0 (st_src st))) && (st_wlen st <? buflen)) eqn:G;
    [| apply poke_no_timeout].
  assert (Hne : st_src st <> []).
  { intros Hnil. rewrite Hnil in G. discriminate. }
  destruct (step E render buflen cols st) as [[st' | st'] | |] eqn:Es; cbn [bind].
  - destruct (step_progress st st' Hne Es) as [Hl | Hw].
    + apply IH. lia.
    + destruct n; cbn [scan]; rewrite Hw, andb_false_r; apply poke_no_timeout.
  - apply poke_no_timeout.
  - discriminate.
  - exfalso. apply (Hstep st). exact Es.
Qed.

End Rounds.

(** ** Claims about the renderer *)




(** C9. The pre-scan treats a template as a filter request only when it is
    longer than one character; the template "|" is handed to the main loop,
    whatever the flags, and (when the capacity leaves room for it) is
    rendered as the literal "|". *)
Theorem lone_pipe_is_literal (E : collaborators) :
  1 < STRING E ->
  (forall src flags, filter_requested E src flags = Ok true -> 1 < len src) /\
  (forall depth buf buflen col cols flags,
     filter_requested E ["|"] flags = Ok false /\
     mutt_expando_format E (S depth) buf buflen col cols ["|"] flags =
       scan E (mutt_expando_format E depth) 2 (size_t (buflen - 1)) cols
            (initial_state E buf (arrow_cursor E flags)
                           (size_t (col + arrow_cursor E flags)) ["|"] flags)) /\
  (forall depth buf buflen col cols flags,
     single_byte_text E ["|"] ->
     arrow_cursor E flags + 2 < buflen < 2 ^ 64 ->
     buflen <= len buf ->
     exists m,
       mutt_expando_format E (S depth) buf buflen col cols ["|"] flags = Ok m /\
       cstr m = ["|"]).
Proof.
  intros Hsz.
  assert (Hone : forall flags, filter_requested E ["|"] flags = Ok false).
  { intros flags. unfold filter_requested.
    destruct (Z.land flags (MUTT_FORMAT_NOFILTER E) =? 0); reflexivity. }
  split; [| split].
  - intros src flags H. unfold filter_requested in H.
    destruct (Z.land flags (MUTT_FORMAT_NOFILTER E) =? 0); [| discriminate].
    destruct (int (len src) >? 1) eqn:G.
    + pose proof (len_nonneg src) as Hs.
      destruct (Z.gtb_spec (int (len src)) 1) as [G' | ?]; [| discriminate].
      destruct (Z.le_gt_cases (len src) 1) as [Hle | ?]; [| lia].
      rewrite int_small in G' by (change (2 ^ 31) with 2147483648; lia). lia.
    + simpl in H. discriminate.
  - intros depth buf buflen col cols flags. split; [apply Hone |].
    cbn [mutt_expando_format]. unfold format_body.
    change (len ["|"]) with 1.
    destruct (STRING E <=? 1) eqn:G; [apply Z.leb_le in G; lia |].
    rewrite Hone. reflexivity.
  - intros depth buf buflen col cols flags Hsb Hcap Hbuf.
    assert (Ha : 0 <= arrow_cursor E flags).
    { unfold arrow_cursor. destruct (_ && _); lia. }
    destruct (render_literal_text E depth buf buflen col cols ["|"] ["|"] flags)
      as (m & k & H & Hk & _ & _ & Hall);
      [reflexivity | exact Hsb | exact Hsz | apply Hone | lia | exact Hbuf |].
    exists m. split; [exact H |]. apply Hall. change (len ["|"]) with 1. lia.
Qed.

Lemma lone_pipe_is_literal_witness :
  1 < len (str "a|") /\
  exists m,
    mutt_expando_format (example_env (fun _ => None) false []) 1 (repeat "x" 8)
                        8 0 80 ["|"] 0 = Ok m /\
    cstr m = ["|"].
Proof.
  destruct (lone_pipe_is_literal (example_env (fun _ => None) false [])) as (H1 & _ & H3);
    [reflexivity |].
  split.
  - apply (H1 (str "a|") 0). vm_compute. reflexivity.
  - apply H3.
    + intros k Hk. simpl in Hk. destruct k as [| k]; [reflexivity | lia].
    + vm_compute. split; reflexivity.
    + vm_compute. discriminate.
Defined.

Lemma land_clear_bit (f m : Z) : Z.land (Z.land f (Z.lnot m)) m = 0.
Proof.
  rewrite <- Z.land_assoc. rewrite (Z.land_comm (Z.lnot m) m).
  rewrite Z.land_lnot_diag. apply Z.land_0_r.
Qed.

(** The claim C2 as stated fails: with 3 columns, the template "ab%> xyz"
    reaches the directive at column 2, the remainder "xyz" is 3 wide, the pad
    is negative, and the remainder is still appended: the output is "abxyz",
    not "ab". *)
Lemma hard_justify_emits_remainder :
  compute_pad 3 2 3 1 < 0 /\
  exists m,
    mutt_expando_format (example_env (fun _ => None) false []) 2 (repeat "x" 64)
                        64 0 3 (str "ab%> xyz") 0 = Ok m /\
    cstr m = str "abxyz" /\ cstr m <> str "ab".
Proof.
  split; [vm_compute; reflexivity |].
  eexists. split; [vm_compute; reflexivity |].
  split; [reflexivity | discriminate].
Qed.

(** Evaluation of the tests on characters that are known. *)
Ltac eval_chars :=
  cbn [hd0 hd tl bind is_nul zero Ascii.eqb Bool.eqb andb orb negb fst snd].

(** The header of [%>]: no prefix, not optional. *)
Lemma parse_hard_justify (E : collaborators) (rest : list ascii) (st : scan_state) :
  0 < SHORT_STRING E ->
  parse_directive E (">" :: rest) st =
  Ok (Some {| d_ch := ">"; d_src := rest;
              d_flags := Z.land (st_flags st) (Z.lnot (MUTT_FORMAT_OPTIONAL E));
              d_prefix := []; d_if_str := st_if_str st; d_else_str := st_else_str st |}).
Proof.
  intros Hsz. unfold parse_directive. eval_chars.
  replace (eat_format_prefix (Z.to_nat (SHORT_STRING E)) (">" :: rest)) with
    (@nil ascii, ">" :: rest) by (destruct (Z.to_nat (SHORT_STRING E)); reflexivity).
  change (len []) with 0.
  destruct (SHORT_STRING E <=? 0) eqn:G; [apply Z.leb_le in G; lia |].
  eval_chars.
  rewrite land_clear_bit. reflexivity.
Qed.

(** C2, amended.  When the main loop reaches a hard right-justify
    directive [%>F] with room left (col < cols, wlen < buflen) and the
    computed pad is negative, no padding is stored, the recursively
    rendered remainder is still appended (cut by mutt_wstr_trunc when it
    does not fit the remaining bytes), the terminator follows it and the
    function returns: nothing after the directive is scanned by this loop. *)
Theorem hard_justify_negative_pad (E : collaborators)
        (render : block -> Z -> Z -> Z -> list ascii -> Z -> result block)
        (n : nat) (buflen cols : Z) (st : scan_state) (rest : list ascii)
        (pl pw : Z) (tmp : block) :
  0 < SHORT_STRING E ->
  st_src st = "%" :: ">" :: rest ->
  fill_charlen E rest = (pl, pw) ->
  st_wlen st < buflen ->
  st_col st < size_t cols ->
  render (st_tmp st) (LONG_STRING E) 0 cols (advance pl rest)
         (Z.land (st_flags st) (Z.lnot (MUTT_FORMAT_OPTIONAL E))) = Ok tmp ->
  size_t pw <> 0 ->
  compute_pad cols (st_col st) (size_t (mutt_strwidth E (cstr tmp))) pw < 0 ->
  let len1 := len (cstr tmp) in
  let len2 :=
    if size_t (len1 + st_wlen st) >? buflen
    then fst (mutt_wstr_trunc E (cstr tmp) (size_t (buflen - st_wlen st))
                              (size_t (size_t cols - st_col st)))
    else len1 in
  scan E render (S n) buflen cols st =
    (m <- memcpy (st_buf st) (st_wptr st) (read_bytes len2 (cstr tmp)) ;;
     poke m (st_wptr st + len (read_bytes len2 (cstr tmp))) zero).
Proof.
  intros Hsz Hsrc Hfc Hwl Hcol Hr Hpw Hpad len1 len2.
  destruct st as [src wptr wlen col flags prefix ifs els tmp0 buf].
  cbn [st_src st_wptr st_wlen st_col st_flags st_tmp st_buf] in *. subst src.
  cbn [scan st_src st_wlen]. eval_chars.
  apply Z.ltb_lt in Hwl. rewrite Hwl. cbv iota.
  unfold step. cbn [st_src]. eval_chars.
  rewrite parse_hard_justify by exact Hsz. cbn [bind d_ch]. eval_chars.
  unfold justify, enter_directive.
  cbn [st_src st_wptr st_wlen st_col st_flags st_tmp st_buf d_src d_flags].
  eval_chars.
  rewrite Hfc.
  apply Z.ltb_lt in Hcol. rewrite Hcol, Hwl. eval_chars.
  rewrite Hr. cbn [bind set_tmp st_src st_wptr st_wlen st_col st_flags st_tmp st_buf].
  destruct (size_t pw =? 0) eqn:Epw; [apply Z.eqb_eq in Epw; contradiction |].
  destruct (compute_pad cols col (size_t (mutt_strwidth E (cstr tmp))) pw >=? 0) eqn:Epad.
  { destruct (Z.geb_spec (compute_pad cols col (size_t (mutt_strwidth E (cstr tmp))) pw) 0);
      [lia | discriminate]. }
  cbn [andb bind]. cbv iota beta.
  unfold emit.
  cbn [set_tmp set_src set_buf set_cursor st_src st_wptr st_wlen st_col st_flags st_tmp
       st_buf d_prefix d_if_str d_else_str].
  fold len1. fold len2.
  destruct (memcpy buf wptr (read_bytes len2 (cstr tmp))) as [m | |];
    cbn [bind set_tmp set_src set_buf set_cursor st_wptr st_buf]; reflexivity.
Qed.

Lemma hard_justify_negative_pad_witness :
  exists m,
    scan (example_env (fun _ => None) false [])
         (mutt_expando_format (example_env (fun _ => None) false []) 1) 1 63 3
         {| st_src := str "%> xyz"; st_wptr := 2; st_wlen := 2; st_col := 2; st_flags := 0;
            st_prefix := []; st_if_str := []; st_else_str := [];
            st_tmp := repeat zero 1024; st_buf := str "ab" ++ repeat "x" 14 |} = Ok m /\
    cstr m = str "abxyz".
Proof.
  eexists. split.
  - rewrite (hard_justify_negative_pad (example_env (fun _ => None) false [])
               (mutt_expando_format (example_env (fun _ => None) false []) 1) 0 63 3
               _ (str " xyz") 1 1 (str "xyz" ++ repeat zero 1021)).
    + vm_compute. reflexivity.
    + reflexivity.
    + reflexivity.
    + reflexivity.
    + reflexivity.
    + reflexivity.
    + vm_compute. reflexivity.
    + vm_compute. discriminate.
    + vm_compute. reflexivity.
  - reflexivity.
Defined.

(** ** The filter path *)

Lemma peek_app_l (t r : list ascii) (i : Z) :
  0 <= i < len t -> peek (t ++ r) i = peek t i.
Proof. intros H. unfold peek, len in *. apply app_nth1. lia. Qed.

Lemma peek_app_r (t r : list ascii) (i : Z) :
  len t <= i -> peek (t ++ r) i = peek r (i - len t).
Proof.
  intros H. unfold peek, len in *. rewrite app_nth2 by lia. f_equal. lia.
Qed.

Lemma peek_last (t : list ascii) : t <> [] -> peek t (len t - 1) = last t zero.
Proof.
  intros H. destruct (exists_last H) as (t' & x & ->).
  rewrite last_last. rewrite len_app. change (len [x]) with 1.
  rewrite peek_app_r by lia. replace (len t' + 1 - 1 - len t') with 0 by lia. reflexivity.
Qed.

Lemma poke_app (t r : list ascii) (c x : ascii) :
  poke (t ++ x :: r) (len t) c = Ok (t ++ c :: r).
Proof.
  pose proof (len_nonneg t). pose proof (len_nonneg r).
  rewrite poke_Ok by (rewrite len_app, len_cons; lia).
  unfold len. rewrite firstn_app_le by lia.
  rewrite firstn_all2 by lia. f_equal. f_equal.
  replace (Z.to_nat (Z.of_nat (length t) + 1)) with (length t + 1)%nat by lia.
  rewrite skipn_app. rewrite skipn_all2 by lia.
  replace (length t + 1 - length t)%nat with 1%nat by lia. reflexivity.
Qed.

(** The loop that strips the newlines and carriage returns at the end of
    what was read. *)
Lemma strip_newlines_spec (nl : list ascii) :
  forall (body rest : list ascii) (k : nat),
  Forall (fun c => c = "010" \/ c = "013") nl ->
  (body = [] \/ (last body zero <> "010" /\ last body zero <> "013")) ->
  (length nl <= k)%nat ->
  strip_newlines k (body ++ nl ++ rest) (len body + len nl) =
  Ok (body ++ repeat zero (length nl) ++ rest, len body).
Proof.
  induction nl as [| x nl IH] using rev_ind; intros body rest k Hnl Hbody Hk.
  - simpl. change (len []) with 0. rewrite Z.add_0_r.
    assert (G : (len body >? 0)
                && (Ascii.eqb (peek (body ++ rest) (len body - 1)) "010"
                    || Ascii.eqb (peek (body ++ rest) (len body - 1)) "013") = false).
    { destruct Hbody as [-> | (H1 & H2)]; [reflexivity |].
      destruct body as [| b body']; [reflexivity |].
      rewrite peek_app_l by (rewrite len_cons; pose proof (len_nonneg body'); lia).
      rewrite peek_last by discriminate.
      destruct (Ascii.eqb_spec (last (b :: body') zero) "010"); [contradiction |].
      destruct (Ascii.eqb_spec (last (b :: body') zero) "013"); [contradiction |].
      apply andb_false_r. }
    destruct k; simpl; rewrite G; reflexivity.
  - apply Forall_app in Hnl. destruct Hnl as (Hnl & Hx).
    inversion Hx as [| ? ? Hx' _]; subst.
    rewrite length_app in Hk. simpl in Hk.
    destruct k as [| k]; [lia |].
    pose proof (len_nonneg body). pose proof (len_nonneg nl).
    rewrite len_app. change (len [x]) with 1.
    assert (P : peek (body ++ (nl ++ [x]) ++ rest) (len body + (len nl + 1) - 1) = x).
    { rewrite <- app_assoc. rewrite app_assoc.
      rewrite peek_app_r by (rewrite len_app; lia).
      rewrite len_app. replace (len body + (len nl + 1) - 1 - (len body + len nl)) with 0 by lia.
      reflexivity. }
    cbn [strip_newlines]. rewrite P.
    assert (G : (len body + (len nl + 1) >? 0)
                && (Ascii.eqb x "010" || Ascii.eqb x "013") = true).
    { apply andb_true_iff. split.
      - apply Z.gtb_lt. lia.
      - destruct Hx' as [-> | ->]; reflexivity. }
    rewrite G.
    replace (body ++ (nl ++ [x]) ++ rest) with ((body ++ nl) ++ x :: rest)
      by (rewrite <- !app_assoc; reflexivity).
    replace (len body + (len nl + 1) - 1) with (len (body ++ nl)) by (rewrite len_app; lia).
    rewrite poke_app. cbn [bind].
    rewrite <- app_assoc. rewrite len_app.
    rewrite (IH body (zero :: rest) k Hnl Hbody) by lia.
    f_equal. f_equal. f_equal.
    rewrite length_app. simpl length. rewrite repeat_app. rewrite <- app_assoc. reflexivity.
Qed.

Lemma size_t_nonneg (x : Z) : 0 <= size_t x < 2 ^ 64.
Proof. unfold size_t. apply Z.mod_pos_bound. reflexivity. Qed.

Section FilterOutput.


Variable render : block -> Z -> Z -> Z -> list ascii -> Z -> result block.

(** What the filter path makes of output that ends, before its newlines,
    in [%]: the [%] is cut off and the rest is rendered again as a template,
    unless the rest is empty or ends in [%] itself. *)
Lemma read_filter_percent (buf1 : block) (buflen col cols flags : Z)
      (out : list ascii) (rc : Z) (t nl : list ascii) :
  0 <= buflen < 2 ^ 31 -> buflen < len buf1 ->
  Forall (fun c => c <> zero) t ->
  Forall (fun c => c = "010" \/ c = "013") nl ->
  firstn (Z.to_nat (Z.min buflen (len out))) out = t ++ "%" :: nl ->
  exists buf2,
    cstr buf2 = t /\ len buf2 = len buf1 /\
    read_filter render buf1 buflen col cols flags (Some (out, rc)) =
    if (len t >? 0) && negb (Ascii.eqb (last t zero) "%")
    then render buf2 (size_t (buflen + 1)) col cols t flags
    else Ok buf2.
Proof.
  intros Hb Hroom Ht Hnl Hcap.
  pose proof (len_nonneg out) as Ho. pose proof (len_nonneg t) as Hlt.
  pose proof (len_nonneg nl) as Hln.
  assert (Hgot : Z.min buflen (len out) = len t + 1 + len nl).
  { assert (L : len (firstn (Z.to_nat (Z.min buflen (len out))) out)
                = Z.min buflen (len out)).
    { unfold len in *. rewrite length_firstn. lia. }
    rewrite Hcap in L. rewrite len_app, len_cons in L. lia. }
  unfold read_filter. rewrite Hcap.
  rewrite (int_small (Z.min buflen (len out)))
    by (change (2 ^ 31) with 2147483648 in *; lia).
  rewrite memcpy_Ok by (try rewrite len_app, len_cons; lia).
  cbn [bind]. simpl firstn. simpl app.
  rewrite Hgot.
  destruct (len t + 1 + len nl >? 0) eqn:G;
    [| destruct (Z.gtb_spec (len t + 1 + len nl) 0); [discriminate | lia]].
  set (R := skipn (length (t ++ "%" :: nl)) buf1).
  assert (HR : len R = len buf1 - (len t + 1 + len nl)).
  { unfold R, len in *. rewrite length_skipn, length_app. simpl length. lia. }
  destruct R as [| r0 R'] eqn:ER; [change (len []) with 0 in HR; lia |].
  replace (poke ((t ++ "%" :: nl) ++ r0 :: R') (len t + 1 + len nl) zero)
    with (poke ((t ++ "%" :: nl) ++ r0 :: R') (len (t ++ "%" :: nl)) zero)
    by (rewrite len_app, len_cons; f_equal; lia).
  rewrite poke_app. cbn [bind].
  replace ((t ++ "%" :: nl) ++ zero :: R') with ((t ++ ["%"]) ++ nl ++ zero :: R')
    by (rewrite <- !app_assoc; reflexivity).
  replace (len t + 1 + len nl) with (len (t ++ ["%"]) + len nl)
    by (rewrite len_app; change (len ["%"]) with 1; lia).
  rewrite strip_newlines_spec; auto.
  2:{ right. rewrite last_last. split; discriminate. }
  2:{ rewrite len_app in *. change (len ["%"]) with 1. unfold len in *. lia. }
  cbn [bind]. rewrite len_app. change (len ["%"]) with 1.
  replace (len t + 1 - 1) with (len t) by lia.
  assert (P : peek ((t ++ ["%"]) ++ repeat zero (length nl) ++ zero :: R') (len t) = "%").
  { rewrite <- app_assoc. rewrite peek_app_r by lia.
    replace (len t - len t) with 0 by lia. reflexivity. }
  rewrite P.
  destruct (len t + 1 >? 0) eqn:G1; [| destruct (Z.gtb_spec (len t + 1) 0); [discriminate | lia]].
  cbn [andb Ascii.eqb Bool.eqb]. cbv iota.
  replace ((t ++ ["%"]) ++ repeat zero (length nl) ++ zero :: R')
    with (t ++ "%" :: repeat zero (length nl) ++ zero :: R')
    by (rewrite <- app_assoc; reflexivity).
  rewrite poke_app. cbn [bind].
  set (buf2 := t ++ zero :: repeat zero (length nl) ++ zero :: R').
  assert (C2 : cstr buf2 = t) by (apply cstr_app_zero; exact Ht).
  exists buf2. split; [exact C2 |]. split.
  { unfold buf2. rewrite len_app, len_cons, len_app, len_cons.
    rewrite len_cons in HR. unfold len at 2. rewrite repeat_length. fold (len nl). lia. }
  destruct (len t >? 0) eqn:G2; cbn [andb]; [| reflexivity].
  assert (Hne : t <> []).
  { intros ->. discriminate. }
  assert (P2 : peek buf2 (len t - 1) = last t zero).
  { unfold buf2. rewrite peek_app_l by lia. apply peek_last. exact Hne. }
  rewrite P2.
  destruct (Ascii.eqb (last t zero) "%"); cbn [negb]; [reflexivity |].
  rewrite C2.
  destruct t as [| a t']; [contradiction |].
  cbn [mutt_str_strdup].
  change ((a :: t') ++ [zero]) with ((a :: t') ++ zero :: []).
  rewrite cstr_app_zero by exact Ht. reflexivity.
Qed.

End FilterOutput.

Lemma arrow_cursor_range (E : collaborators) (flags : Z) :
  arrow_cursor E flags = 0 \/ arrow_cursor E flags = 3.
Proof. unfold arrow_cursor. destruct (_ && _); auto. Qed.

(** The filter path of the function, once the command line is built. *)
Lemma format_filter_path (E : collaborators) (depth : nat) (buf : block)
      (buflen col cols : Z) (src : list ascii) (flags : Z) (buf1 : block)
      (command : list ascii) :
  len src < STRING E ->
  filter_requested E src flags = Ok true ->
  pipe_tokens E (mutt_expando_format E depth) (S (length (srccopy src))) buf cols flags
              (srccopy src) [] = Ok (buf1, command) ->
  1 <= buflen < 2 ^ 64 -> 0 <= col -> col + 3 < 2 ^ 64 ->
  mutt_expando_format E (S depth) buf buflen col cols src flags =
  read_filter (mutt_expando_format E depth) buf1 (buflen - 1) col cols flags
              (mutt_create_filter E command).
Proof.
  intros Hlen Hreq Htok Hcap Hc0 Hc1.
  cbn [mutt_expando_format]. unfold format_body.
  destruct (STRING E <=? len src) eqn:G; [apply Z.leb_le in G; lia |].
  rewrite Hreq. cbn [bind]. cbv iota.
  unfold pipe_path. rewrite Htok. cbn [bind]. cbv iota beta.
  rewrite (size_t_small (buflen - 1)) by lia.
  destruct (arrow_cursor_range E flags) as [-> | ->].
  - rewrite Z.add_0_r, (size_t_small col) by lia.
    rewrite Z.sub_0_r, (size_t_small col) by lia. reflexivity.
  - rewrite (size_t_small (col + 3)) by lia.
    replace (col + 3 - 3) with col by lia.
    rewrite (size_t_small col) by lia. reflexivity.
Qed.

(** C5. In the filter path, captured output that ends (before its trailing
    newlines and carriage returns) in one [%] not preceded by another has the
    [%] cut off and the text before it rendered again as a new template,
    under the same capacity, column and flags; output that ends in [%%]
    only loses its last [%] and is not rendered again: "abc%" is rendered
    again as the template "abc", "abc%%" yields "abc%". *)
Theorem filter_output_recycling (E : collaborators) (depth : nat) (buf : block)
        (buflen col cols : Z) (src : list ascii) (flags : Z) (buf1 : block)
        (command out : list ascii) (rc : Z) (t nl : list ascii) :
  len src < STRING E ->
  filter_requested E src flags = Ok true ->
  pipe_tokens E (mutt_expando_format E depth) (S (length (srccopy src))) buf cols flags
              (srccopy src) [] = Ok (buf1, command) ->
  mutt_create_filter E command = Some (out, rc) ->
  1 <= buflen <= 2 ^ 31 -> buflen <= len buf1 ->
  0 <= col -> col + 3 < 2 ^ 64 ->
  Forall (fun c => c <> zero) t ->
  Forall (fun c => c = "010" \/ c = "013") nl ->
  firstn (Z.to_nat (Z.min (buflen - 1) (len out))) out = t ++ "%" :: nl ->
  (t <> [] -> last t zero <> "%" ->
   exists buf2,
     cstr buf2 = t /\ len buf2 = len buf1 /\
     mutt_expando_format E (S depth) buf buflen col cols src flags =
     mutt_expando_format E depth buf2 buflen col cols t flags) /\
  (t = [] \/ last t zero = "%" ->
   exists m,
     mutt_expando_format E (S depth) buf buflen col cols src flags = Ok m /\
     cstr m = t).
Proof.
  intros Hlen Hreq Htok Hfil Hcap Hroom Hc0 Hc1 Ht Hnl Hout.
  assert (P31 : 2 ^ 31 = 2147483648) by reflexivity.
  assert (P64 : 2 ^ 64 = 18446744073709551616) by reflexivity.
  rewrite (format_filter_path E depth buf buflen col cols src flags buf1 command)
    by (auto; lia).
  rewrite Hfil.
  destruct (read_filter_percent (mutt_expando_format E depth) buf1 (buflen - 1) col cols
              flags out rc t nl) as (buf2 & C2 & L2 & ->); auto; try lia.
  replace (buflen - 1 + 1) with buflen by lia.
  rewrite (size_t_small buflen) by lia.
  split.
  - intros Hne Hlast. exists buf2. split; [exact C2 |]. split; [exact L2 |].
    destruct (len t >? 0) eqn:G.
    + destruct (Ascii.eqb_spec (last t zero) "%"); [contradiction | reflexivity].
    + destruct t; [contradiction | discriminate].
  - intros Hor. exists buf2. split; [| exact C2].
    destruct Hor as [-> | ->]; [reflexivity |].
    rewrite andb_false_r. reflexivity.
Qed.

Lemma filter_output_recycling_witness :
  let E := example_env (fun _ => Some (str "abc%", 0)) false [] in
  exists buf2,
    cstr buf2 = str "abc" /\
    mutt_expando_format E 2 (repeat "x" 16) 16 0 80 (str "cat|") 0 =
    mutt_expando_format E 1 buf2 16 0 80 (str "abc") 0.
Proof.
  intros E.
  destruct (filter_output_recycling E 1 (repeat "x" 16) 16 0 80 (str "cat|") 0
              (str "cat" ++ zero :: repeat "x" 12) (str "'' ") (str "abc%") 0
              (str "abc") [])
    as ((buf2 & C2 & _ & H) & _).
  - vm_compute. reflexivity.
  - vm_compute. reflexivity.
  - vm_compute. reflexivity.
  - reflexivity.
  - vm_compute. split; discriminate.
  - vm_compute. discriminate.
  - lia.
  - vm_compute. reflexivity.
  - repeat constructor; discriminate.
  - constructor.
  - vm_compute. reflexivity.
  - discriminate.
  - discriminate.
  - exists buf2. split; [exact C2 | exact H].
Defined.

(** C5, the two examples of the claim: the filter output "abc%" renders as
    the template "abc" does, the filter output "abc%%" renders as "abc%". *)
Lemma filter_output_recycling_examples :
  (exists m,
     mutt_expando_format (example_env (fun _ => Some (str "abc%", 0)) false []) 2
                         (repeat "x" 16) 16 0 80 (str "cat|") 0 = Ok m /\
     cstr m = str "abc") /\
  (exists m,
     mutt_expando_format (example_env (fun _ => Some (str "abc%%", 0)) false []) 2
                         (repeat "x" 16) 16 0 80 (str "cat|") 0 = Ok m /\
     cstr m = str "abc%").
Proof.
  split; eexists; (split; [vm_compute; reflexivity | reflexivity]).
Qed.

(** The claim C6 as stated fails for a filter that exits with a non-zero
    status: its output is used all the same.  A filter printing "abc" and
    exiting with status 1 renders as "abc", not as the empty string. *)
Lemma filter_nonzero_exit_output_kept :
  exists m,
    mutt_expando_format (example_env (fun _ => Some (str "abc", 1)) false []) 2
                        (repeat "x" 16) 16 0 80 (str "cat|") 0 = Ok m /\
    cstr m = str "abc" /\ cstr m <> [].
Proof.
  eexists. split; [vm_compute; reflexivity |]. split; [reflexivity | discriminate].
Qed.

(** C6, amended.  In a filter render whose command line has been built,
    when the filter process cannot be started, or the read of its output
    yields no byte, the output is the empty string and the function returns
    normally.  The exit status of the filter does not enter the result: a
    non-zero status is only logged, and the output read is used as it is
    after a zero status. *)
Theorem filter_failure_renders_empty (E : collaborators) (depth : nat) (buf : block)
        (buflen col cols : Z) (src : list ascii) (flags : Z) (buf1 : block)
        (command : list ascii) :
  len src < STRING E ->
  filter_requested E src flags = Ok true ->
  pipe_tokens E (mutt_expando_format E depth) (S (length (srccopy src))) buf cols flags
              (srccopy src) [] = Ok (buf1, command) ->
  1 <= buflen < 2 ^ 64 -> 1 <= len buf1 ->
  0 <= col -> col + 3 < 2 ^ 64 ->
  (mutt_create_filter E command = None \/
   (exists rc, mutt_create_filter E command = Some ([], rc)) ->
   exists m,
     mutt_expando_format E (S depth) buf buflen col cols src flags = Ok m /\
     cstr m = []) /\
  (forall out rc,
     mutt_create_filter E command = Some (out, rc) ->
     mutt_expando_format E (S depth) buf buflen col cols src flags =
     read_filter (mutt_expando_format E depth) buf1 (buflen - 1) col cols flags
                 (Some (out, 0))).
Proof.
  intros Hlen Hreq Htok Hcap Hroom Hc0 Hc1.
  rewrite (format_filter_path E depth buf buflen col cols src flags buf1 command)
    by (auto; lia).
  assert (Hpoke : exists m, poke buf1 0 zero = Ok m /\ cstr m = []).
  { rewrite poke_Ok by lia. eexists. split; reflexivity. }
  split.
  - intros [-> | (rc & ->)]; [exact Hpoke |].
    unfold read_filter. change (len []) with 0.
    replace (Z.min (buflen - 1) 0) with 0 by lia.
    change (int 0) with 0. change (Z.to_nat 0) with 0%nat. cbn [firstn].
    rewrite memcpy_Ok by (change (len []) with 0; lia).
    cbn [bind]. change (0 >? 0) with false. cbv iota.
    simpl firstn. simpl app. simpl skipn. exact Hpoke.
  - intros out rc ->. reflexivity.
Qed.

Lemma filter_failure_renders_empty_witness :
  exists m,
    mutt_expando_format (example_env (fun _ => None) false []) 2 (repeat "x" 16)
                        16 0 80 (str "cat|") 0 = Ok m /\
    cstr m = [].
Proof.
  destruct (filter_failure_renders_empty (example_env (fun _ => None) false []) 1
              (repeat "x" 16) 16 0 80 (str "cat|") 0
              (str "cat" ++ zero :: repeat "x" 12) (str "'' "))
    as (H & _).
  - vm_compute. reflexivity.
  - vm_compute. reflexivity.
  - vm_compute. reflexivity.
  - vm_compute. split; [discriminate | reflexivity].
  - vm_compute. discriminate.
  - lia.
  - vm_compute. reflexivity.
  - apply H. left. reflexivity.
Defined.

(** C1, the defect.  In the filter path every token is rendered into the
    caller's [buf] with the capacity [sizeof(buf)], the size of a pointer.
    With a capacity of 2 and the template "abcdef|", seven bytes of the
    sixteen at [buf] are stored to (the last store of the path puts NUL in
    the first); in an array of two bytes the stores leave the array. *)
Theorem filter_tokens_overflow_buf :
  mutt_expando_format (example_env (fun _ => None) false []) 2 (repeat "x" 16)
                      2 0 80 (str "abcdef|") 0
  = Ok (zero :: str "bcdef" ++ zero :: repeat "x" 9) /\
  mutt_expando_format (example_env (fun _ => None) false []) 2 (repeat "x" 2)
                      2 0 80 (str "abcdef|") 0
  = Fault.
Proof. split; vm_compute; reflexivity. Qed.

(** C3, the defect.  The token is rendered into [buf], but the quoting loop
    reads the local array [tmp], which nothing has written.  For the text
    "echo hi" and a [tmp] in which the string "junk" happens to lie, the
    command line is "'junk' 'junk' ", and the last rendered token is what
    [buf] holds. *)
Theorem filter_command_quotes_tmp :
  let E := example_env (fun _ => None) false (str "junk") in
  exists buf1,
    pipe_tokens E (mutt_expando_format E 1) 8 (repeat "x" 16) 80 0 (str "echo hi") []
    = Ok (buf1, str "'junk' 'junk' ") /\
    cstr buf1 = str "hi" /\
    str "'junk' 'junk' " <> str "'echo' 'hi'".
Proof.
  intros E. eexists. split; [vm_compute; reflexivity |].
  split; [reflexivity | discriminate].
Qed.

(** * Further properties *)

(** ** More about the Buffer *)

Section BufferStore.

Variable heap_junk : nat -> ascii.

Lemma length_zlen_store (m : block) (i : Z) (s : list ascii) :
  0 <= i -> i + len s + 1 <= len m ->
  len (firstn (Z.to_nat i) m ++ s ++ zero :: skipn (Z.to_nat (i + len s + 1)) m) = len m.
Proof.
  intros Hi Hr. unfold len in *.
  rewrite !length_app. cbn [length]. rewrite length_firstn, length_skipn. lia.
Qed.

(** The store of [mutt_buffer_add] once room is there. *)
Lemma buffer_add_store (b : Buffer) (m : block) (s : list ascii) :
  data b = Some m -> 0 <= dptr b -> dptr b + len s + 1 <= len m ->
  (if dptr_is_null b then Ok b
   else match data b with
        | None => Fault
        | Some m => m0 <- memcpy m (dptr b) s ;;
                    m1 <- poke m0 (dptr b + len s) zero ;;
                    Ok {| data := Some m1; dptr := dptr b + len s; dsize := dsize b |}
        end) =
  Ok {| data := Some (firstn (Z.to_nat (dptr b)) m ++ s ++
                      zero :: skipn (Z.to_nat (dptr b + len s + 1)) m);
        dptr := dptr b + len s; dsize := dsize b |}.
Proof.
  intros Hd Hp Hroom. pose proof (len_nonneg s) as Hs.
  unfold dptr_is_null. rewrite Hd.
  rewrite memcpy_Ok by lia. cbn [bind].
  set (m0 := firstn (Z.to_nat (dptr b)) m ++ s ++ skipn (Z.to_nat (dptr b) + length s) m).
  assert (L0 : len m0 = len m).
  { eapply memcpy_len. apply memcpy_Ok; [exact Hp | lia]. }
  rewrite poke_Ok by lia. cbn [bind]. do 3 f_equal.
  unfold m0.
  assert (Hl : length (firstn (Z.to_nat (dptr b)) m) = Z.to_nat (dptr b)).
  { rewrite length_firstn. unfold len in Hroom. lia. }
  replace (Z.to_nat (dptr b + len s)) with (Z.to_nat (dptr b) + length s)%nat
    by (unfold len; lia).
  rewrite app_assoc.
  rewrite firstn_app_le by (rewrite length_app, Hl; lia).
  rewrite firstn_all2 by (rewrite length_app, Hl; lia).
  rewrite <- app_assoc. do 3 f_equal.
  replace (Z.to_nat (dptr b + len s + 1)) with (Z.to_nat (dptr b) + length s + 1)%nat
    by (unfold len; lia).
  rewrite skipn_app.
  rewrite skipn_all2 by (rewrite length_app, Hl; lia).
  rewrite length_app, Hl.
  replace (Z.to_nat (dptr b) + length s + 1 - (Z.to_nat (dptr b) + length s))%nat with 1%nat by lia.
  rewrite skipn_skipn. cbn [app]. f_equal. lia.
Qed.

(** [mutt_buffer_add] changes the capacity only when the string and its
    terminator do not fit, and then to the size of the new allocation. *)
Lemma buffer_add_capacity (buf : Buffer) (s : list ascii) (buf' : Buffer) :
  usable buf ->
  dsize buf + Z.max 128 (len s + 1) < 2 ^ 64 ->
  mutt_buffer_add heap_junk buf (Some s) = Ok buf' ->
  (dptr buf + len s + 1 <= dsize buf ->
   dsize buf' = dsize buf /\ allocated buf' = allocated buf) /\
  (dsize buf < dptr buf + len s + 1 ->
   dsize buf' = dsize buf + Z.max 128 (len s + 1) /\ allocated buf' = dsize buf').
Proof.
  intros Hu Hfit. pose proof Hu as ((Hc1 & Hc2) & Ha).
  pose proof (len_nonneg s) as Hs.
  unfold mutt_buffer_add.
  destruct (dptr buf + len s + 1 >? dsize buf) eqn:G.
  - apply Z.gtb_lt in G.
    set (inc := if len s <? 128 then 128 else len s + 1).
    assert (Hinc : inc = Z.max 128 (len s + 1)).
    { unfold inc. destruct (len s <? 128) eqn:E;
        [apply Z.ltb_lt in E | apply Z.ltb_ge in E]; lia. }
    destruct (grow_spec heap_junk buf inc (dptr buf) Hu) as (m' & Hd & Hl & Hsz & Hp & Hpre);
      [lia | lia |].
    set (g := grow heap_junk buf inc (dptr buf)) in *. clearbody g.
    rewrite (buffer_add_store _ m') by (auto; lia).
    intros [= <-]. split; [lia |]. intros _. cbn [dsize]. unfold allocated. cbn [data].
    rewrite Hsz, <- Hinc. split; [reflexivity |].
    rewrite length_zlen_store; lia.
  - assert (G' : dptr buf + len s + 1 <= dsize buf).
    { destruct (Z.gtb_spec (dptr buf + len s + 1) (dsize buf)); [discriminate | lia]. }
    assert (Hm : exists m, data buf = Some m /\ dsize buf <= len m).
    { unfold allocated in Ha. destruct (data buf) as [m |]; [eauto | lia]. }
    destruct Hm as (m & Hd & Hm).
    rewrite (buffer_add_store _ m) by (auto; lia).
    intros [= <-]. split; [| lia]. intros _. cbn [dsize]. split; [reflexivity |].
    unfold allocated. cbn [data]. rewrite Hd.
    rewrite length_zlen_store; lia.
Qed.

End BufferStore.

Section BufferCalls.

Variable heap_junk : nat -> ascii.

(** X1.  mutt_buffer_add without growth.  When the string and its terminator fit
    in front of the recorded capacity, nothing is reallocated: the capacity
    and the array size stay, the bytes in front of the cursor and behind the
    new terminator stay, and the string and the terminator are stored at the
    cursor. *)
Theorem buffer_add_in_place (buf : Buffer) (m : block) (s : list ascii) :
  data buf = Some m -> 0 <= dptr buf -> dsize buf <= len m ->
  dptr buf + len s + 1 <= dsize buf ->
  mutt_buffer_add heap_junk buf (Some s) =
  Ok {| data := Some (firstn (Z.to_nat (dptr buf)) m ++ s ++
                      zero :: skipn (Z.to_nat (dptr buf + len s + 1)) m);
        dptr := dptr buf + len s; dsize := dsize buf |}.
Proof.
  intros Hd Hp Hm Hroom. unfold mutt_buffer_add.
  destruct (dptr buf + len s + 1 >? dsize buf) eqn:G;
    [apply Z.gtb_lt in G; lia |].
  apply buffer_add_store; auto. lia.
Qed.

(** X2.  mutt_buffer_from, then mutt_buffer_add.  A buffer made from a string
    holds that string as its content and records its length as capacity;
    the next add, of however short a string, grows it by max(128, len + 1),
    and the content is the seed followed by the string added. *)
Theorem buffer_from_then_add (buf0 : Buffer) (seed s : list ascii) :
  len seed + Z.max 128 (len s + 1) < 2 ^ 64 ->
  let buf := mutt_buffer_from buf0 (Some seed) in
  content buf = seed /\ dsize buf = len seed /\
  exists buf',
    mutt_buffer_add heap_junk buf (Some s) = Ok buf' /\
    content buf' = seed ++ s /\
    terminated_at_cursor buf' /\
    dsize buf' = len seed + Z.max 128 (len s + 1) /\
    allocated buf' = dsize buf'.
Proof.
  intros Hfit buf.
  pose proof (len_nonneg seed) as Hs0. pose proof (len_nonneg s) as Hs.
  assert (Hz : dsize buf = len seed).
  { unfold buf, mutt_buffer_from, mutt_buffer_seek. cbn [dsize mutt_str_strlen].
    apply size_t_small. lia. }
  assert (Hp : dptr buf = len seed).
  { rewrite <- Hz. reflexivity. }
  assert (Hd : data buf = Some (seed ++ [zero])) by reflexivity.
  assert (Hc : content buf = seed).
  { unfold content, bytes. rewrite Hd, Hp. cbn [block_of].
    rewrite firstn_app_le by (unfold len; lia).
    apply firstn_all2. unfold len. lia. }
  assert (Hu : usable buf).
  { unfold usable, allocated. rewrite Hd, Hp, Hz, len_app. change (len [zero]) with 1. lia. }
  split; [exact Hc |]. split; [exact Hz |].
  destruct (buffer_add_spec heap_junk buf s Hu) as (buf' & E & Hp' & Hlt & Ha & Hsz & Hc' & Ht);
    [lia |].
  exists buf'. split; [exact E |]. rewrite Hc in Hc'. split; [exact Hc' |].
  split; [exact Ht |].
  destruct (buffer_add_capacity heap_junk buf s buf' Hu) as (_ & Hg); [lia | exact E |].
  rewrite <- Hz. apply Hg. lia.
Qed.

(** X3.  mutt_buffer_rewind, then mutt_buffer_add.  After a rewind an add
    overwrites from the start: the content is the string added alone,
    terminated at the cursor, and nothing is reallocated when that string is
    no longer than what the buffer held. *)
Theorem buffer_rewind_overwrites (buf : Buffer) (s1 s2 : list ascii) :
  usable buf ->
  dsize buf + Z.max 128 (len s1 + 1) + Z.max 128 (len s2 + 1) < 2 ^ 64 ->
  exists b1 b2,
    mutt_buffer_add heap_junk buf (Some s1) = Ok b1 /\
    mutt_buffer_add heap_junk (mutt_buffer_rewind b1) (Some s2) = Ok b2 /\
    content b2 = s2 /\ terminated_at_cursor b2 /\
    (len s2 <= dptr buf + len s1 -> dsize b2 = dsize b1 /\ allocated b2 = allocated b1).
Proof.
  intros Hu Hfit. pose proof Hu as ((Hc1 & Hc2) & Ha).
  pose proof (len_nonneg s1). pose proof (len_nonneg s2).
  destruct (buffer_add_spec heap_junk buf s1 Hu) as (b1 & E1 & Hp1 & Hlt1 & Ha1 & Hz1 & _ & _);
    [lia |].
  assert (U : usable (mutt_buffer_rewind b1)).
  { unfold usable, allocated, mutt_buffer_rewind, mutt_buffer_seek. cbn [data dptr dsize].
    unfold allocated in Ha1. lia. }
  destruct (buffer_add_spec heap_junk _ s2 U) as (b2 & E2 & Hp2 & Hlt2 & Ha2 & Hz2 & Hc & Ht);
    [cbn [mutt_buffer_rewind mutt_buffer_seek dsize]; lia |].
  exists b1, b2. split; [exact E1 |]. split; [exact E2 |].
  split; [rewrite Hc; reflexivity |]. split; [exact Ht |].
  intros Hle.
  destruct (buffer_add_capacity heap_junk _ s2 b2 U) as (Hin & _);
    [cbn [mutt_buffer_rewind mutt_buffer_seek dsize]; lia | exact E2 |].
  apply Hin. cbn [mutt_buffer_rewind mutt_buffer_seek dsize dptr]. lia.
Qed.

(** X4.  mutt_buffer_reset.  Every byte inside the recorded capacity is set to
    zero, the bytes behind it stay, the cursor returns to the start, and the
    capacity and the allocation are kept. *)
Theorem buffer_reset_clears (buf : Buffer) (m : block) :
  data buf = Some m -> 0 <= dsize buf <= len m ->
  exists m',
    mutt_buffer_reset buf = Ok {| data := Some m'; dptr := 0; dsize := dsize buf |} /\
    len m' = len m /\
    (forall k, 0 <= k < dsize buf -> peek m' k = zero) /\
    skipn (Z.to_nat (dsize buf)) m' = skipn (Z.to_nat (dsize buf)) m.
Proof.
  intros Hd Hz. unfold mutt_buffer_reset, memset0. rewrite Hd.
  replace ((0 <=? dsize buf) && (dsize buf <=? len m)) with true
    by (symmetry; apply andb_true_iff; split; apply Z.leb_le; lia).
  cbn [bind]. eexists. split; [reflexivity |].
  assert (Hr : length (repeat zero (Z.to_nat (dsize buf))) = Z.to_nat (dsize buf))
    by apply repeat_length.
  split; [| split].
  - unfold len in *. rewrite length_app, Hr, length_skipn. lia.
  - intros k Hk. unfold peek. rewrite app_nth1 by lia.
    apply nth_repeat.
  - rewrite skipn_app, Hr, Nat.sub_diag. rewrite skipn_all2 by lia. reflexivity.
Qed.



End BufferCalls.

Lemma buffer_add_in_place_witness :
  mutt_buffer_add (fun _ => "x")
                  {| data := Some (str "ab" ++ zero :: repeat "x" 5); dptr := 2; dsize := 8 |}
                  (Some (str "cd")) =
  Ok {| data := Some (str "abcd" ++ zero :: repeat "x" 3); dptr := 4; dsize := 8 |}.
Proof.
  apply (buffer_add_in_place (fun _ => "x")
           {| data := Some (str "ab" ++ zero :: repeat "x" 5); dptr := 2; dsize := 8 |}
           (str "ab" ++ zero :: repeat "x" 5) (str "cd"));
    [reflexivity | vm_compute; discriminate | vm_compute; discriminate
     | vm_compute; discriminate].
Defined.

Lemma buffer_from_then_add_witness :
  exists buf',
    mutt_buffer_add (fun _ => "x") (mutt_buffer_from (mkBuffer None 0 0) (Some (str "abc")))
                    (Some (str "d")) = Ok buf' /\
    content buf' = str "abcd" /\ dsize buf' = 131.
Proof.
  destruct (buffer_from_then_add (fun _ => "x") (mkBuffer None 0 0) (str "abc") (str "d"))
    as (_ & _ & buf' & E & Hc & _ & Hz & _); [reflexivity |].
  exists buf'. split; [exact E |]. split; [exact Hc | exact Hz].
Defined.

Lemma buffer_rewind_overwrites_witness :
  exists b1 b2,
    mutt_buffer_add (fun _ => "x") (mkBuffer None 0 0) (Some (str "abcd")) = Ok b1 /\
    mutt_buffer_add (fun _ => "x") (mutt_buffer_rewind b1) (Some (str "xy")) = Ok b2 /\
    content b2 = str "xy" /\ dsize b2 = dsize b1.
Proof.
  destruct (buffer_rewind_overwrites (fun _ => "x") (mkBuffer None 0 0) (str "abcd") (str "xy"))
    as (b1 & b2 & E1 & E2 & Hc & _ & Hz).
  - vm_compute. repeat split; discriminate.
  - reflexivity.
  - exists b1, b2. split; [exact E1 |]. split; [exact E2 |]. split; [exact Hc |].
    apply Hz. vm_compute. discriminate.
Defined.

Lemma buffer_reset_clears_witness :
  exists m',
    mutt_buffer_reset {| data := Some (str "abc" ++ [zero]); dptr := 3; dsize := 3 |} =
    Ok {| data := Some m'; dptr := 0; dsize := 3 |} /\
    peek m' 0 = zero /\ peek m' 2 = zero.
Proof.
  destruct (buffer_reset_clears {| data := Some (str "abc" ++ [zero]); dptr := 3; dsize := 3 |}
              (str "abc" ++ [zero]) eq_refl) as (m' & E & _ & Hz & _).
  - vm_compute. split; discriminate.
  - exists m'. split; [exact E |].
    split; apply Hz; vm_compute; split; try discriminate; reflexivity.
Defined.


Section BufferSequences.
Variable heap_junk : nat -> ascii.

Lemma grow_dsize (buf : Buffer) (inc off : Z) :
  0 <= dsize buf -> 0 <= inc -> dsize buf + inc < 2 ^ 64 ->
  dsize (grow heap_junk buf inc off) = dsize buf + inc.
Proof.
  intros. unfold grow, mutt_buffer_seek. cbn [dsize]. apply size_t_small. lia.
Qed.

Lemma buffer_printf_capacity (buf : Buffer) (text : list ascii) (buf' : Buffer) (n : Z) :
  usable buf -> dsize buf + len text + 257 < 2 ^ 31 ->
  mutt_buffer_printf heap_junk buf text = Ok (buf', n) ->
  dsize buf <= dsize buf' <= dsize buf + len text + 256.
Proof.
  intros ((Hc1 & Hc2) & Ha) Hfit.
  pose proof (len_nonneg text) as HL.
  assert (P31 : 2 ^ 31 = 2147483648) by reflexivity.
  assert (P64 : 2 ^ 64 = 18446744073709551616) by reflexivity.
  unfold mutt_buffer_printf.
  set (b0 := if dptr_is_null buf then mutt_buffer_rewind buf else buf).
  assert (B0 : data b0 = data buf /\ dptr b0 = dptr buf /\ dsize b0 = dsize buf).
  { unfold b0, dptr_is_null. destruct (data buf) eqn:Hd; auto.
    destruct (dptr buf =? 0) eqn:E; auto.
    apply Z.eqb_eq in E. simpl. auto. }
  destruct B0 as (Bd & Bp & Bz). rewrite Bp, Bz. clearbody b0.
  rewrite (int_small (dptr buf)) by lia.
  rewrite (int_small (dsize buf - dptr buf)) by lia.
  rewrite (int_small (len text)) by lia.
  assert (S1 : exists b1 blen,
    (if dsize buf - dptr buf =? 0
     then (grow heap_junk b0 128 (dptr buf), 128)
     else (b0, dsize buf - dptr buf)) = (b1, blen) /\
    1 <= blen <= dsize buf + 128 /\
    dsize buf <= dsize b1 <= dsize buf + 128 /\
    (dsize b1 = dsize buf \/ blen = 128)).
  { destruct (dsize buf - dptr buf =? 0) eqn:E.
    - apply Z.eqb_eq in E. eexists _, _. split; [reflexivity |].
      rewrite grow_dsize by lia. lia.
    - apply Z.eqb_neq in E. eexists _, _. split; [reflexivity |]. lia. }
  destruct S1 as (b1 & blen & -> & Hb & Hz1 & Hor).
  destruct (vsnprintf (data b1) (dptr b1) (size_t blen) text) as [d | |];
    cbn [bind]; try discriminate.
  destruct (len text >=? blen) eqn:G.
  - assert (G' : blen <= len text).
    { destruct (Z.geb_spec (len text) blen); [lia | discriminate]. }
    rewrite (int_small (len text + 1)) by lia.
    rewrite (int_small (len text + 1 - blen)) by lia.
    set (inc := if len text + 1 - blen <? 128 then 128 else len text + 1 - blen).
    assert (Hinc : 128 <= inc /\ (inc = 128 \/ inc = len text + 1 - blen)).
    { unfold inc. destruct (len text + 1 - blen <? 128) eqn:E;
        [apply Z.ltb_lt in E | apply Z.ltb_ge in E]; lia. }
    clearbody inc.
    set (b2 := {| data := d; dptr := dptr b1; dsize := dsize b1 |}).
    assert (Hz2 : dsize (grow heap_junk b2 inc (dptr buf)) = dsize b1 + inc).
    { rewrite grow_dsize; unfold b2; cbn [dsize]; lia. }
    set (g := grow heap_junk b2 inc (dptr buf)) in *. clearbody g.
    destruct (vsnprintf (data g) (dptr g) (size_t (len text + 1)) text) as [d' | |];
      cbn [bind]; try discriminate.
    intros [= <- <-].
    destruct (len text >? 0); cbn [dsize]; lia.
  - cbn [bind]. intros [= <- <-].
    destruct (len text >? 0); cbn [dsize]; lia.
Qed.

(** X6.  Sequences of appending calls.  Any sequence of calls of
    mutt_buffer_add, mutt_buffer_addstr, mutt_buffer_addch and
    mutt_buffer_printf with non-null strings, on a buffer whose cursor is at
    most its capacity, appends the concatenation of the strings to the
    content; the capacity never shrinks and stays within the allocation, and
    after the last call the data is terminated at the cursor. *)
Theorem buffer_appends_concat : forall (ops : list buffer_op) (text : list ascii) (buf : Buffer),
  appended ops = Some text ->
  usable buf ->
  dsize buf + len text + 257 * Z.of_nat (length ops) < 2 ^ 31 ->
  exists buf',
    run_ops heap_junk ops buf = Ok buf' /\
    content buf' = content buf ++ text /\
    dsize buf <= dsize buf' /\ dsize buf' <= allocated buf' /\
    (ops <> [] -> dptr buf' < dsize buf' /\ terminated_at_cursor buf').
Proof.
  assert (P : 2 ^ 31 < 2 ^ 64) by reflexivity.
  induction ops as [| op r IH]; intros text buf Happ Hu Hfit.
  - injection Happ as <-. exists buf. rewrite app_nil_r. destruct Hu as ((? & ?) & ?).
    split; [reflexivity |]. split; [reflexivity |]. split; [lia |]. split; [lia |].
    intros H'. exfalso. apply H'. reflexivity.
  - cbn [appended] in Happ.
    destruct (appends op) as [s |] eqn:Hs; [| discriminate].
    destruct (appended r) as [t |] eqn:Ht; [| discriminate].
    injection Happ as <-.
    rewrite len_app in Hfit. cbn [length] in Hfit.
    pose proof (len_nonneg s) as Hs0. pose proof (len_nonneg t) as Ht0.
    assert (Hone : exists b1,
      run_op heap_junk op buf = Ok b1 /\
      content b1 = content buf ++ s /\ dptr b1 < dsize b1 /\ dsize b1 <= allocated b1 /\
      dsize buf <= dsize b1 <= dsize buf + len s + 256 /\ 0 <= dptr b1 /\
      terminated_at_cursor b1).
    { pose proof Hu as ((Hc1 & Hc2) & Ha).
      assert (Hadd : exists b1,
        mutt_buffer_add heap_junk buf (Some s) = Ok b1 /\
        content b1 = content buf ++ s /\ dptr b1 < dsize b1 /\ dsize b1 <= allocated b1 /\
        dsize buf <= dsize b1 <= dsize buf + len s + 256 /\ 0 <= dptr b1 /\
        terminated_at_cursor b1).
      { destruct (buffer_add_spec heap_junk buf s Hu)
          as (b1 & E1 & Hp1 & Hlt1 & Ha1 & Hz1 & Hc & Hterm); [lia |].
        exists b1. repeat split; auto; lia. }
      destruct op as [| | | [s' |] | [s' |] | c | s' | |]; cbn [appends] in Hs;
        try discriminate; injection Hs as <-; cbn [run_op];
        try exact Hadd.
      destruct (buffer_printf_spec heap_junk buf s' Hu)
        as (b1 & E1 & Hp1 & Hlt1 & Ha1 & Hc & Hterm); [lia |].
      rewrite E1. cbn [bind fst]. exists b1.
      pose proof (buffer_printf_capacity buf s' b1 _ Hu ltac:(lia) E1).
      repeat split; auto; lia. }
    destruct Hone as (b1 & E1 & Hc1 & Hlt1 & Ha1 & Hz1 & Hp1 & Hterm1).
    assert (U1 : usable b1) by (unfold usable; lia).
    destruct (IH t b1 eq_refl U1) as (b2 & E2 & Hc2 & Hz2 & Ha2 & Hterm); [lia |].
    exists b2. cbn [run_ops]. rewrite E1. cbn [bind].
    split; [exact E2 |]. split; [rewrite Hc2, Hc1, app_assoc; reflexivity |].
    split; [lia |]. split; [exact Ha2 |]. intros _.
    destruct r as [| op' r'].
    + cbn [run_ops] in E2. injection E2 as <-. split; [exact Hlt1 | exact Hterm1].
    + apply Hterm. discriminate.
Qed.

End BufferSequences.

Lemma buffer_appends_concat_witness :
  exists buf',
    run_ops (fun _ => "x") [OpAddstr (Some (str "ab")); OpAddch "c"; OpPrintf (str "de")]
            (mkBuffer None 0 0) = Ok buf' /\
    content buf' = str "abcde".
Proof.
  destruct (buffer_appends_concat (fun _ => "x")
              [OpAddstr (Some (str "ab")); OpAddch "c"; OpPrintf (str "de")]
              (str "abcde") (mkBuffer None 0 0)) as (buf' & E & Hc & _).
  - reflexivity.
  - vm_compute. repeat split; discriminate.
  - reflexivity.
  - exists buf'. split; [exact E | exact Hc].
Defined.

(** ** More about the renderer *)

Ltac run_chars_from k :=
  destruct k as [| k]; [reflexivity | first [lia | run_chars_from k]].

Ltac run_chars :=
  let k := fresh "k" in let Hk := fresh "Hk" in
  intros k Hk; simpl in Hk; run_chars_from k.

Lemma rem2_even (k : nat) : (Z.rem (Z.of_nat k) 2 =? 0) = Nat.even k.
Proof.
  assert (H : (Z.rem (Z.of_nat k) 2 =? 0) = Nat.even k /\
              (Z.rem (Z.of_nat (S k)) 2 =? 0) = Nat.even (S k)).
  { induction k as [| k (IH1 & IH2)]; [split; reflexivity |].
    split; [exact IH2 |].
    change (Nat.even (S (S k))) with (Nat.even k). rewrite <- IH1.
    rewrite !Z.rem_mod_nonneg by lia.
    replace (Z.of_nat (S (S k))) with (Z.of_nat k + 1 * 2) by lia.
    rewrite Z.mod_add by lia. reflexivity. }
  apply H.
Qed.

Lemma peek_app_cons (t r : list ascii) (c : ascii) : peek (t ++ c :: r) (len t) = c.
Proof.
  unfold peek, len. rewrite Nat2Z.id. rewrite app_nth2 by lia.
  rewrite Nat.sub_diag. reflexivity.
Qed.

(** The backward scan stops in front of the backslashes. *)
Lemma scan_backslashes_run (pre : list ascii) (c : ascii) (k : nat) (tail : list ascii) :
  c <> "\" ->
  forall (j fuel : nat), (j <= k)%nat -> (j <= fuel)%nat ->
  scan_backslashes fuel (pre ++ c :: repeat "\" k ++ tail) (len pre + 2 + Z.of_nat j)
  = Ok (len pre + 2).
Proof.
  intros Hc. pose proof (len_nonneg pre) as Hp.
  induction j as [| j IH]; intros fuel Hj Hf.
  - assert (E : scan_backslashes fuel (pre ++ c :: repeat "\" k ++ tail) (len pre + 2) =
                Ok (len pre + 2)).
    { destruct fuel; cbn [scan_backslashes];
        (destruct (len pre + 2 >? 0) eqn:G;
           [| destruct (Z.gtb_spec (len pre + 2) 0); [discriminate | lia]]);
        (destruct (len pre + 2 - 2 <? 0) eqn:G2; [apply Z.ltb_lt in G2; lia |]);
        replace (len pre + 2 - 2) with (len pre) by lia;
        rewrite peek_app_cons;
        (destruct (Ascii.eqb c "\") eqn:Ec; [apply Ascii.eqb_eq in Ec; contradiction |]);
        reflexivity. }
    replace (len pre + 2 + Z.of_nat 0) with (len pre + 2) by lia. exact E.
  - destruct fuel as [| fuel]; [lia |]. cbn [scan_backslashes].
    destruct (len pre + 2 + Z.of_nat (S j) >? 0) eqn:G;
      [| destruct (Z.gtb_spec (len pre + 2 + Z.of_nat (S j)) 0); [discriminate | lia]].
    destruct (len pre + 2 + Z.of_nat (S j) - 2 <? 0) eqn:G2; [apply Z.ltb_lt in G2; lia |].
    assert (Hb : peek (pre ++ c :: repeat "\" k ++ tail) (len pre + 2 + Z.of_nat (S j) - 2) = "\").
    { unfold peek, len.
      replace (Z.to_nat (Z.of_nat (length pre) + 2 + Z.of_nat (S j) - 2))
        with (length pre + S j)%nat by lia.
      rewrite app_nth2 by lia.
      replace (length pre + S j - length pre)%nat with (S j) by lia.
      cbn [nth]. rewrite app_nth1 by (rewrite repeat_length; lia).
      apply nth_repeat_lt. lia. }
    rewrite Hb. change (Ascii.eqb "\" "\") with true. cbv iota.
    replace (len pre + 2 + Z.of_nat (S j) - 1) with (len pre + 2 + Z.of_nat j) by lia.
    apply IH; lia.
Qed.

(** X7.  The pre-scan: a template that ends in a pipe is a filter request exactly
    when the number of backslashes in front of the pipe is even. *)
Theorem filter_requested_parity (E : collaborators) (pre : list ascii) (c : ascii)
        (k : nat) (flags : Z) :
  Z.land flags (MUTT_FORMAT_NOFILTER E) = 0 ->
  c <> "\" ->
  len (pre ++ c :: repeat "\" k ++ ["|"]) < 2 ^ 31 ->
  filter_requested E (pre ++ c :: repeat "\" k ++ ["|"]) flags = Ok (Nat.even k).
Proof.
  intros Hf Hc Hlen. unfold filter_requested. rewrite Hf. cbn [Z.eqb].
  set (src := pre ++ c :: repeat "\" k ++ ["|"]) in *.
  assert (Hn : len src = len pre + 2 + Z.of_nat k).
  { unfold src. rewrite len_app, len_cons, len_app. unfold len at 2. rewrite repeat_length.
    change (len ["|"]) with 1. lia. }
  pose proof (len_nonneg pre) as Hp.
  rewrite int_small by (rewrite Hn; lia).
  assert (G : (len src >? 1) = true).
  { destruct (Z.gtb_spec (len src) 1); [reflexivity | lia]. }
  rewrite G.
  assert (Hlast : peek src (len src - 1) = "|").
  { unfold src. rewrite app_comm_cons, app_assoc.
    replace (len ((pre ++ c :: repeat "\" k) ++ ["|"]) - 1) with (len (pre ++ c :: repeat "\" k)).
    - apply peek_app_cons.
    - rewrite (len_app (pre ++ c :: repeat "\" k) ["|"]). change (len ["|"]) with 1. lia. }
  rewrite Hlast. change (Ascii.eqb "|" "|") with true. cbn [andb].
  rewrite Hn. unfold src.
  rewrite (scan_backslashes_run pre c k ["|"] Hc k); [| lia | ].
  - cbn [bind]. f_equal.
    destruct (Z.gtb_spec (len pre + 2) 0); [| lia]. cbn [andb].
    replace (len pre + 2 + Z.of_nat k - (len pre + 2)) with (Z.of_nat k) by lia.
    apply rem2_even.
  - rewrite length_app. cbn [length]. rewrite length_app, repeat_length. lia.
Qed.

Lemma filter_requested_parity_witness :
  filter_requested (example_env (fun _ => None) false []) (str "abc\|") 0 = Ok false /\
  filter_requested (example_env (fun _ => None) false []) (str "abc\\|") 0 = Ok true.
Proof.
  split.
  - apply (filter_requested_parity (example_env (fun _ => None) false []) (str "ab") "c" 1 0);
      [reflexivity | discriminate | reflexivity].
  - apply (filter_requested_parity (example_env (fun _ => None) false []) (str "ab") "c" 2 0);
      [reflexivity | discriminate | reflexivity].
Defined.

Section PlainText.

Variable E : collaborators.
Variable render : block -> Z -> Z -> Z -> list ascii -> Z -> result block.
Variables buflen cols : Z.
Hypothesis buflen_range : 0 <= buflen < 2 ^ 64.

Lemma scan_plain (n : nat) : forall s T st,
  plain_text s = Some T -> single_byte_text E s -> (length s < n)%nat ->
  st_src st = s -> 0 <= st_wptr st <= st_wlen st -> st_wptr st <= buflen ->
  buflen < len (st_buf st) ->
  exists k, 0 <= k <= len T /\ st_wptr st + k <= buflen /\
    (st_wlen st + len T < buflen -> k = len T) /\
    scan E render n buflen cols st =
      Ok (firstn (Z.to_nat (st_wptr st)) (st_buf st) ++ firstn (Z.to_nat k) T
          ++ zero :: skipn (Z.to_nat (st_wptr st + k + 1)) (st_buf st)).
Proof.
  induction n as [| n IH]; intros s T st Hc Hsb Hn Hsrc Hw Hwb Hbuf; [lia |].
  pose proof (len_nonneg T) as HT.
  assert (Hexit : poke (st_buf st) (st_wptr st) zero =
                  Ok (firstn (Z.to_nat (st_wptr st)) (st_buf st) ++ firstn (Z.to_nat 0) T
                      ++ zero :: skipn (Z.to_nat (st_wptr st + 0 + 1)) (st_buf st))).
  { rewrite poke_Ok by lia. simpl. repeat f_equal. lia. }
  assert (Hround : forall c w r T2,
    T = c :: T2 -> plain_text r = Some T2 -> single_byte_text E r ->
    (length r < n)%nat -> st_wlen st < buflen ->
    exists k, 0 <= k <= len T /\ st_wptr st + k <= buflen /\
      (st_wlen st + len T < buflen -> k = len T) /\
      (c0 <- (st' <- emit st [c] w ;; Ok (Continue (set_src st' r))) ;;
       match c0 with
       | Continue st0 => scan E render n buflen cols st0
       | Break st0 => poke (st_buf st0) (st_wptr st0) zero
       end) =
      Ok (firstn (Z.to_nat (st_wptr st)) (st_buf st) ++ firstn (Z.to_nat k) T
          ++ zero :: skipn (Z.to_nat (st_wptr st + k + 1)) (st_buf st))).
  { intros c w r T2 HT2 Hc2 Hsb2 Hn2 Hlt.
    destruct (emit_byte buflen buflen_range st c w) as (m & Em & ->); [lia | lia |].
    simpl bind.
    pose proof (memcpy_len _ _ _ _ Em) as Lm.
    destruct (IH r T2 (set_src (set_buf (set_cursor st (st_wptr st + 1) (st_wlen st + 1)
                                          (size_t (st_col st + w))) m) r))
      as (k & Hk & Hkb & Hall & ->); auto; cbn [st_src st_wptr st_wlen st_buf set_src
                                                 set_buf set_cursor] in *; try lia.
    exists (k + 1). subst T. rewrite len_cons.
    split; [lia |]. split; [lia |]. split; [intros; lia |].
    f_equal.
    rewrite (firstn_succ_memcpy _ _ _ _ Em).
    rewrite (memcpy_skipn _ _ _ _ _ Em) by (simpl; lia).
    rewrite <- app_assoc.
    replace (Z.to_nat (k + 1)) with (S (Z.to_nat k)) by lia.
    replace (st_wptr st + (k + 1) + 1) with (st_wptr st + 1 + k + 1) by lia.
    reflexivity. }
  destruct st as [src wptr wlen col flags prefix ifs els tmp buf].
  cbn [st_src st_wptr st_wlen st_col st_buf] in *. subst src.
  cbn [scan st_src st_wlen st_buf st_wptr].
  destruct s as [| c r].
  - simpl. exists 0. split; [lia |]. split; [lia |]. split; [| exact Hexit].
    simpl in Hc. injection Hc as <-. reflexivity.
  - cbn [hd0 hd].
    destruct (wlen <? buflen) eqn:Hlt.
    2:{ rewrite andb_false_r. exists 0. apply Z.ltb_ge in Hlt.
        split; [lia |]. split; [lia |]. split; [intros; lia | exact Hexit]. }
    apply Z.ltb_lt in Hlt. rewrite andb_true_r.
    cbn [plain_text] in Hc. unfold step. cbn [st_src hd0 hd tl].
    destruct (Ascii.eqb_spec c "%") as [-> | Hpc].
    + (* an escape [%%] *)
      destruct r as [| c2 r2]; [discriminate |].
      cbn [hd0 hd tl].
      destruct (Ascii.eqb_spec c2 "%") as [-> | ?]; [| discriminate].
      destruct (plain_text r2) as [T2 |] eqn:E2; [| discriminate].
      injection Hc as <-.
      simpl is_nul. simpl negb. cbv iota.
      apply (Hround "%" 1 r2 T2); auto.
      * intros k Hk. specialize (Hsb (S (S k))). simpl in Hsb. apply Hsb. simpl in *. lia.
      * simpl in Hn. lia.
    + destruct (Ascii.eqb_spec c "\") as [-> | Hbc].
      * (* a backslash escape *)
        destruct r as [| c2 r2]; [discriminate |].
        cbn [hd0 hd tl].
        destruct (is_nul c2) eqn:Hz2; [discriminate |].
        destruct (plain_text r2) as [T2 |] eqn:E2; [| discriminate].
        injection Hc as <-.
        simpl is_nul. simpl negb. cbv iota.
        apply (Hround (escape_char c2) 1 r2 T2); auto.
        -- intros k Hk. specialize (Hsb (S (S k))). simpl in Hsb. apply Hsb. simpl in *. lia.
        -- simpl in Hn. lia.
      * unfold is_nul in *. destruct (Ascii.eqb_spec c zero) as [-> | Hzc]; [discriminate |].
        destruct (plain_text r) as [T2 |] eqn:E2; [| discriminate].
        injection Hc as <-.
        simpl negb. cbv iota.
        pose proof (Hsb 0%nat) as H0. simpl in H0.
        destruct (mutt_mb_charlen E (c :: r)) as [bytes width] eqn:Ecl.
        simpl in H0. rewrite H0 by lia.
        change (1 <? 0) with false. cbn iota. change (1 >? 0) with true. rewrite andb_true_l.
        cbn [st_src st_wptr st_wlen st_col st_buf].
        rewrite (size_t_small (wlen + 1)) by lia.
        assert (Hsb2 : single_byte_text E r).
        { intros k Hk. specialize (Hsb (S k)). simpl in Hsb. apply Hsb. lia. }
        destruct (wlen + 1 <? buflen) eqn:Hroom.
        -- change (read_bytes 1 (c :: r)) with [c].
           change (advance 1 (c :: r)) with r.
           apply (Hround c width r T2); auto. simpl in Hn. lia.
        -- apply Z.ltb_ge in Hroom. simpl bind.
           rewrite scan_exit
             by (cbn [st_src st_wlen set_src set_cursor]; rewrite Z.ltb_irrefl; apply andb_false_r).
           cbn [st_src st_wlen st_wptr st_buf set_src set_cursor].
           pose proof (len_nonneg T2).
           exists 0. split; [rewrite len_cons; lia |]. split; [lia |].
           split; [rewrite len_cons; intros; lia | exact Hexit].
Qed.

Lemma scan_round (n : nat) (st : scan_state) :
  hd0 (st_src st) <> zero -> st_wlen st < buflen ->
  scan E render (S n) buflen cols st =
  (c <- step E render buflen cols st ;;
   match c with
   | Continue st => scan E render n buflen cols st
   | Break st => poke (st_buf st) (st_wptr st) zero
   end).
Proof.
  intros Hc Hl. cbn [scan]. unfold is_nul.
  destruct (Ascii.eqb_spec (hd0 (st_src st)) zero); [contradiction |].
  destruct (Z.ltb_spec (st_wlen st) buflen); [reflexivity | lia].
Qed.

Lemma step_percent (st : scan_state) (r : list ascii) :
  st_src st = "%" :: "%" :: r ->
  step E render buflen cols st = (st' <- emit st ["%"] 1 ;; Ok (Continue (set_src st' r))).
Proof. intros H. unfold step. rewrite H. reflexivity. Qed.

Lemma step_escape (st : scan_state) (c : ascii) (r : list ascii) :
  st_src st = "\" :: c :: r -> c <> zero ->
  step E render buflen cols st =
  (st' <- emit st [escape_char c] 1 ;; Ok (Continue (set_src st' r))).
Proof.
  intros H Hc. unfold step. rewrite H. cbn [hd0 hd tl].
  change (Ascii.eqb "\" "%") with false. change (Ascii.eqb "\" "\") with true. cbv iota.
  unfold is_nul. destruct (Ascii.eqb_spec c zero); [contradiction | reflexivity].
Qed.

Lemma step_literal (st : scan_state) (c : ascii) (r : list ascii) (w : Z) :
  st_src st = c :: r -> c <> "%" -> c <> "\" ->
  mutt_mb_charlen E (c :: r) = (1, w) ->
  0 <= st_wlen st -> st_wlen st + 1 < buflen ->
  step E render buflen cols st = (st' <- emit st [c] w ;; Ok (Continue (set_src st' r))).
Proof.
  intros H Hp Hb Hw H0 Hl. unfold step. rewrite H. cbn [hd0 hd].
  destruct (Ascii.eqb_spec c "%"); [contradiction |].
  destruct (Ascii.eqb_spec c "\"); [contradiction |].
  rewrite Hw. change (1 <? 0) with false. cbv iota.
  change (1 >? 0) with true. cbn [andb].
  rewrite (size_t_small (st_wlen st + 1)) by lia.
  destruct (Z.ltb_spec (st_wlen st + 1) buflen); [reflexivity | lia].
Qed.

Lemma stored_nil (st : scan_state) :
  0 <= st_wptr st -> 0 <= st_col st < 2 ^ 64 ->
  stored st [] (st_src st) = st.
Proof.
  intros Hp Hc. destruct st as [src wptr wlen col flags prefix ifs els tmp buf].
  unfold stored. cbn [st_src st_wptr st_wlen st_col st_flags st_prefix st_if_str st_else_str
                      st_tmp st_buf] in *.
  change (len []) with 0. rewrite !Z.add_0_r. rewrite size_t_small by lia.
  cbn [app]. rewrite firstn_skipn. reflexivity.
Qed.

Lemma stored_stored (st : scan_state) (t u r1 r2 : list ascii) :
  0 <= st_wptr st -> st_wptr st + len t + len u <= len (st_buf st) ->
  stored (stored st t r1) u r2 = stored st (t ++ u) r2.
Proof.
  intros Hp Hr. pose proof (len_nonneg t) as Ht. pose proof (len_nonneg u) as Hu.
  unfold stored. cbn [st_src st_wptr st_wlen st_col st_flags st_prefix st_if_str st_else_str
                      st_tmp st_buf].
  rewrite len_app.
  assert (Hl : length (firstn (Z.to_nat (st_wptr st)) (st_buf st)) = Z.to_nat (st_wptr st)).
  { rewrite length_firstn. unfold len in *. lia. }
  f_equal; try lia.
  - unfold size_t. rewrite Zplus_mod_idemp_l. f_equal. lia.
  - replace (Z.to_nat (st_wptr st + len t))
      with (length (firstn (Z.to_nat (st_wptr st)) (st_buf st) ++ t))%nat
      by (rewrite length_app, Hl; unfold len; lia).
    rewrite (app_assoc _ t). rewrite firstn_app_le by lia. rewrite firstn_all.
    rewrite <- !app_assoc. do 3 f_equal.
    rewrite app_assoc.
    replace (Z.to_nat (st_wptr st + len t + len u))
      with (length (firstn (Z.to_nat (st_wptr st)) (st_buf st) ++ t) + length u)%nat
      by (rewrite length_app, Hl; unfold len; lia).
    rewrite skipn_app.
    rewrite skipn_all2 by lia. cbn [app].
    rewrite skipn_skipn. f_equal. rewrite length_app, Hl. unfold len. lia.
Qed.

Lemma emit_stored (st : scan_state) (c : ascii) (r : list ascii) :
  0 <= st_wptr st < len (st_buf st) -> 0 <= st_wlen st < buflen ->
  (st' <- emit st [c] 1 ;; Ok (Continue (set_src st' r))) = Ok (Continue (stored st [c] r)).
Proof.
  intros Hp Hl.
  destruct (emit_byte buflen buflen_range st c 1) as (m & Em & ->); [lia | lia |].
  cbn [bind]. do 2 f_equal.
  rewrite memcpy_Ok in Em by (change (len [c]) with 1; lia).
  injection Em as <-.
  unfold stored, set_src, set_buf, set_cursor.
  cbn [st_src st_wptr st_wlen st_col st_flags st_prefix st_if_str st_else_str st_tmp st_buf].
  change (len [c]) with 1. f_equal. cbn [app length]. do 3 f_equal. lia.
Qed.

Lemma single_width_run_tl (c : ascii) (r rest : list ascii) :
  single_width_run E (c :: r) rest -> single_width_run E r rest.
Proof. intros H k Hk. apply (H (S k)). simpl. lia. Qed.

(** The main loop over a plain part of the template that fits: its text is
    stored and the loop goes on with what follows it. *)
Lemma scan_plain_run (fuel : nat) : forall s T rest st,
  (length s < fuel)%nat ->
  plain_text s = Some T -> single_width_run E s rest ->
  st_src st = s ++ rest ->
  0 <= st_wptr st <= st_wlen st -> st_wlen st + len T < buflen ->
  buflen < len (st_buf st) -> 0 <= st_col st < 2 ^ 64 ->
  exists j, (j <= length s)%nat /\
    forall n, scan E render (j + n) buflen cols st =
              scan E render n buflen cols (stored st T rest).
Proof.
  induction fuel as [| fuel IH]; intros s T rest st Hf HT Hw Hsrc Hp Hfit Hbuf Hcol; [lia |].
  pose proof (len_nonneg T) as HT0.
  assert (Hnext : forall c T2 r,
    T = c :: T2 -> plain_text r = Some T2 -> single_width_run E r rest ->
    (length r < fuel)%nat -> (length r < length s)%nat ->
    step E render buflen cols st = Ok (Continue (stored st [c] (r ++ rest))) ->
    hd0 (st_src st) <> zero ->
    exists j, (j <= length s)%nat /\
      forall n, scan E render (j + n) buflen cols st =
                scan E render n buflen cols (stored st T rest)).
  { intros c T2 r -> HT2 Hw2 Hf2 Hlt Hstep Hnz.
    rewrite len_cons in Hfit. pose proof (len_nonneg T2) as HT20.
    destruct (IH r T2 rest (stored st [c] (r ++ rest))) as (j & Hj & Hrun); auto.
    - unfold stored; cbn [st_wptr st_wlen]. change (len [c]) with 1. lia.
    - unfold stored; cbn [st_wlen]. change (len [c]) with 1. lia.
    - unfold stored; cbn [st_buf]. change (len [c]) with 1.
      unfold len in *. rewrite !length_app, length_firstn, length_skipn. cbn [length]. lia.
    - unfold stored; cbn [st_col]. apply size_t_nonneg.
    - exists (S j). split; [lia |]. intros n.
      change (S j + n)%nat with (S (j + n)).
      rewrite scan_round by (auto; lia).
      rewrite Hstep. cbn [bind]. rewrite Hrun.
      rewrite stored_stored by (change (len [c]) with 1; lia).
      reflexivity. }
  destruct s as [| c r].
  - cbn [plain_text] in HT. injection HT as <-. exists 0%nat. split; [lia |].
    intros n. cbn [Nat.add]. f_equal. cbn [app] in Hsrc. rewrite <- Hsrc.
    symmetry. apply stored_nil; lia.
  - cbn [plain_text] in HT. cbn [app] in Hsrc.
    destruct (Ascii.eqb_spec c "%") as [-> | Hpc].
    + destruct r as [| c2 r2]; [discriminate |].
      destruct (Ascii.eqb_spec c2 "%") as [-> | ?]; [| discriminate].
      destruct (plain_text r2) as [T2 |] eqn:E2; [| discriminate].
      injection HT as <-.
      apply (Hnext "%" T2 r2); auto.
      * apply single_width_run_tl with (c := "%"). apply single_width_run_tl with (c := "%").
        exact Hw.
      * cbn [length] in Hf. lia.
      * cbn [length]. lia.
      * rewrite (step_percent st (r2 ++ rest)) by exact Hsrc.
        apply emit_stored; lia.
      * rewrite Hsrc. discriminate.
    + destruct (Ascii.eqb_spec c "\") as [-> | Hbc].
      * destruct r as [| c2 r2]; [discriminate |].
        destruct (is_nul c2) eqn:Hz2; [discriminate |].
        destruct (plain_text r2) as [T2 |] eqn:E2; [| discriminate].
        injection HT as <-.
        assert (Hc2 : c2 <> zero).
        { unfold is_nul in Hz2. destruct (Ascii.eqb_spec c2 zero); [discriminate | auto]. }
        apply (Hnext (escape_char c2) T2 r2); auto.
        -- apply single_width_run_tl with (c := c2). apply single_width_run_tl with (c := "\").
           exact Hw.
        -- cbn [length] in Hf. lia.
        -- cbn [length]. lia.
        -- rewrite (step_escape st c2 (r2 ++ rest)) by auto.
           apply emit_stored; lia.
        -- rewrite Hsrc. discriminate.
      * destruct (is_nul c) eqn:Hz; [discriminate |].
        destruct (plain_text r) as [T2 |] eqn:E2; [| discriminate].
        injection HT as <-.
        assert (Hc : c <> zero).
        { unfold is_nul in Hz. destruct (Ascii.eqb_spec c zero); [discriminate | auto]. }
        rewrite len_cons in Hfit. pose proof (len_nonneg T2).
        apply (Hnext c T2 r); auto.
        -- apply single_width_run_tl with (c := c). exact Hw.
        -- cbn [length] in Hf. lia.
        -- rewrite (step_literal st c (r ++ rest) 1); auto; try lia.
           ++ apply emit_stored; lia.
           ++ apply (Hw 0%nat). cbn [length]. lia.
        -- rewrite Hsrc. exact Hc.
Qed.

End PlainText.

Lemma escape_char_not_nul (c : ascii) : c <> zero -> escape_char c <> zero.
Proof.
  intros H. unfold escape_char.
  repeat match goal with |- (if ?b then _ else _) <> _ => destruct b; [discriminate |] end.
  exact H.
Qed.

Lemma plain_text_no_nul : forall (n : nat) (s T : list ascii),
  (length s < n)%nat -> plain_text s = Some T -> Forall (fun c => c <> zero) T.
Proof.
  induction n as [| n IH]; intros s T Hn H; [lia |].
  destruct s as [| c r]; cbn [plain_text] in H.
  - injection H as <-. constructor.
  - cbn [length] in Hn.
    destruct (Ascii.eqb c "%").
    + destruct r as [| c2 r2]; [discriminate |].
      destruct (Ascii.eqb c2 "%"); [| discriminate].
      destruct (plain_text r2) as [T2 |] eqn:E2; [| discriminate].
      injection H as <-. constructor; [discriminate |].
      apply (IH r2); [cbn [length] in Hn; lia | exact E2].
    + destruct (Ascii.eqb c "\").
      * destruct r as [| c2 r2]; [discriminate |].
        destruct (is_nul c2) eqn:Hz; [discriminate |].
        destruct (plain_text r2) as [T2 |] eqn:E2; [| discriminate].
        injection H as <-. constructor.
        -- apply escape_char_not_nul. unfold is_nul in Hz.
           destruct (Ascii.eqb_spec c2 zero); [discriminate | assumption].
        -- apply (IH r2); [cbn [length] in Hn; lia | exact E2].
      * destruct (is_nul c) eqn:Hz; [discriminate |].
        destruct (plain_text r) as [T2 |] eqn:E2; [| discriminate].
        injection H as <-. constructor.
        -- unfold is_nul in Hz. destruct (Ascii.eqb_spec c zero); [discriminate | assumption].
        -- apply (IH r); [lia | exact E2].
Qed.

(** Ahead of the main loop: a template that fits [src2] and is no filter
    request is handed to the loop. *)
Lemma format_enters_scan (E : collaborators) (depth : nat) (buf : block)
      (buflen col cols : Z) (src : list ascii) (flags : Z) :
  len src < STRING E ->
  filter_requested E src flags = Ok false ->
  1 <= buflen < 2 ^ 64 ->
  mutt_expando_format E (S depth) buf buflen col cols src flags =
  scan E (mutt_expando_format E depth) (S (length src)) (buflen - 1) cols
       (initial_state E buf (arrow_cursor E flags) (size_t (col + arrow_cursor E flags))
                      src flags).
Proof.
  intros Hlen Hnf Hcap. cbn [mutt_expando_format]. unfold format_body.
  destruct (STRING E <=? len src) eqn:G; [apply Z.leb_le in G; lia |].
  rewrite Hnf. cbn [bind]. cbv iota.
  rewrite (size_t_small (buflen - 1)) by lia. reflexivity.
Qed.

(** The string left by a scan that has stored [t] from the start of the
    array. *)
Lemma cstr_stored_text (t : list ascii) (k : Z) (buf : block) :
  Forall (fun c => c <> zero) t -> k = len t ->
  cstr (firstn (Z.to_nat 0) buf ++ firstn (Z.to_nat k) t ++ zero :: skipn (Z.to_nat (0 + k + 1)) buf)
  = t.
Proof.
  intros Hn ->. cbn [Z.to_nat firstn app].
  rewrite firstn_all2 by (unfold len; lia).
  apply cstr_app_zero. exact Hn.
Qed.

(** X8.  Backslash escapes.  For a template of literal single-byte text, [%%]
    and backslash escapes, the output is a prefix of the text in which
    every escape is replaced by the character it stands for; it is the whole
    of that text when it fits. *)
Theorem plain_template_render (E : collaborators) (depth : nat) (buf : block)
        (buflen col cols : Z) (src T : list ascii) (flags : Z) :
  plain_text src = Some T ->
  single_byte_text E src ->
  len src < STRING E ->
  filter_requested E src flags = Ok false ->
  1 <= buflen < 2 ^ 64 ->
  buflen <= len buf ->
  exists m k,
    mutt_expando_format E (S depth) buf buflen col cols src flags = Ok m /\
    cstr m = firstn k T /\
    peek m (len (cstr m)) = zero /\
    len (cstr m) <= buflen - 1 /\
    (arrow_cursor E flags + len T < buflen - 1 -> cstr m = T).
Proof.
  intros Hc Hsb Hlen Hnf Hcap Hbuf.
  rewrite format_enters_scan by assumption.
  assert (Ha : 0 <= arrow_cursor E flags).
  { unfold arrow_cursor. destruct (_ && _); lia. }
  destruct (scan_plain E (mutt_expando_format E depth) (buflen - 1) cols
              ltac:(lia) (S (length src)) src T
              (initial_state E buf (arrow_cursor E flags)
                             (size_t (col + arrow_cursor E flags)) src flags))
    as (k & Hk & Hkb & Hall & ->); auto; cbn [initial_state st_src st_wptr st_wlen st_buf];
    try lia.
  cbn [initial_state st_src st_wptr st_wlen st_buf] in Hkb, Hall.
  pose proof (plain_text_no_nul _ _ _ (Nat.lt_succ_diag_r _) Hc) as Hnn.
  pose proof (Forall_firstn_keep _ (Z.to_nat k) _ Hnn) as Hnk.
  assert (Hl : len (firstn (Z.to_nat k) T) = k).
  { unfold len in *. rewrite length_firstn. lia. }
  eexists. exists (Z.to_nat k). split; [reflexivity |].
  simpl firstn. simpl app.
  rewrite cstr_app_zero by assumption.
  split; [reflexivity |]. split.
  { unfold peek. rewrite Hl. rewrite app_nth2 by (unfold len in Hl; lia).
    replace (Z.to_nat k - length (firstn (Z.to_nat k) T))%nat with 0%nat
      by (unfold len in Hl; lia).
    reflexivity. }
  split; [lia |].
  intros Hfit. rewrite (Hall Hfit).
  apply firstn_all2. unfold len. lia.
Qed.

Lemma plain_template_render_witness :
  exists m k,
    mutt_expando_format (example_env (fun _ => None) false []) 1 (repeat "x" 8)
                        8 0 80 (str "a\tb\\") 0 = Ok m /\
    cstr m = firstn k ["a"; "009"; "b"; "\"].
Proof.
  destruct (plain_template_render (example_env (fun _ => None) false []) 0 (repeat "x" 8)
              8 0 80 (str "a\tb\\") ["a"; "009"; "b"; "\"] 0)
    as (m & k & E & Hc & _).
  - reflexivity.
  - run_chars.
  - reflexivity.
  - reflexivity.
  - vm_compute. split; [discriminate | reflexivity].
  - vm_compute. discriminate.
  - exists m, k. split; [exact E | exact Hc].
Defined.

Lemma arrow_cursor_nonneg (E : collaborators) (flags : Z) : 0 <= arrow_cursor E flags.
Proof. unfold arrow_cursor. destruct (_ && _); lia. Qed.

(** The call on a template that begins with a plain part which fits: the
    main loop reaches what follows it with the text of the plain part
    stored. *)
Lemma format_plain_prefix (E : collaborators) (depth : nat) (buf : block)
      (buflen col cols : Z) (s T rest : list ascii) (flags : Z) :
  plain_text s = Some T ->
  single_width_run E s rest ->
  len (s ++ rest) < STRING E ->
  filter_requested E (s ++ rest) flags = Ok false ->
  1 <= buflen < 2 ^ 64 ->
  buflen <= len buf ->
  arrow_cursor E flags + len T < buflen - 1 ->
  exists n, (length rest < n)%nat /\
    mutt_expando_format E (S depth) buf buflen col cols (s ++ rest) flags =
    scan E (mutt_expando_format E depth) n (buflen - 1) cols
         (stored (initial_state E buf (arrow_cursor E flags)
                                (size_t (col + arrow_cursor E flags)) [] flags) T rest).
Proof.
  intros HT Hw Hlen Hnf Hcap Hbuf Hfit.
  rewrite format_enters_scan by assumption.
  pose proof (arrow_cursor_nonneg E flags) as Ha.
  destruct (scan_plain_run E (mutt_expando_format E depth) (buflen - 1) cols ltac:(lia)
              (S (length s)) s T rest
              (initial_state E buf (arrow_cursor E flags)
                             (size_t (col + arrow_cursor E flags)) (s ++ rest) flags))
    as (j & Hj & Hrun); auto; cbn [initial_state st_src st_wptr st_wlen st_col st_buf];
    try lia; try apply size_t_nonneg.
  exists (S (length (s ++ rest)) - j)%nat. rewrite length_app. split; [lia |].
  replace (S (length s + length rest)) with (j + (S (length s + length rest) - j))%nat at 1
    by lia.
  rewrite <- length_app at 1 2. rewrite Hrun. rewrite length_app. reflexivity.
Qed.

(** The terminator stored behind a stored text. *)
Lemma finish_stored (st : scan_state) (T rest : list ascii) :
  st_wptr st = 0 -> len T < len (st_buf st) -> Forall (fun c => c <> zero) T ->
  exists m,
    poke (st_buf (stored st T rest)) (st_wptr (stored st T rest)) zero = Ok m /\
    cstr m = T /\ len m = len (st_buf st).
Proof.
  intros Hp Hl Hn. pose proof (len_nonneg T) as HT.
  unfold stored. cbn [st_buf st_wptr]. rewrite Hp. cbn [Z.to_nat firstn app Z.add].
  assert (Hlen : len (T ++ skipn (Z.to_nat (len T)) (st_buf st)) = len (st_buf st)).
  { unfold len in *. rewrite length_app, length_skipn. lia. }
  rewrite poke_Ok by lia.
  eexists. split; [reflexivity |].
  rewrite firstn_app_le by (unfold len; lia).
  rewrite firstn_all2 by (unfold len; lia).
  split; [apply cstr_app_zero; exact Hn |].
  unfold len in *. rewrite length_app. cbn [length]. rewrite length_skipn, length_app, length_skipn.
  lia.
Qed.

Lemma eat_format_prefix_all : forall (p : list ascii) (n : nat),
  forallb format_char p = true -> (length p <= n)%nat ->
  eat_format_prefix n p = (p, []).
Proof.
  induction p as [| c p IH]; intros n Hf Hn.
  - destruct n; reflexivity.
  - destruct n as [| n]; [cbn [length] in Hn; lia |].
    cbn [forallb] in Hf. apply andb_true_iff in Hf as (Hc & Hf).
    cbn [eat_format_prefix hd0 hd tl]. unfold format_char in Hc. rewrite Hc.
    rewrite (IH n Hf) by (cbn [length] in Hn; lia). reflexivity.
Qed.

(** A [%] followed by a format prefix and the end of the template is a bad
    format. *)
Lemma parse_truncated (E : collaborators) (p : list ascii) (st : scan_state) :
  forallb format_char p = true -> len p < SHORT_STRING E ->
  parse_directive E p st = Ok None.
Proof.
  intros Hf Hl. unfold parse_directive.
  assert (Hq : Ascii.eqb (hd0 p) "?" = false /\ Ascii.eqb (hd0 p) "<" = false).
  { destruct p as [| c p]; [split; reflexivity |]. cbn [forallb] in Hf.
    apply andb_true_iff in Hf as (Hc & _). cbn [hd0 hd].
    split; [destruct (Ascii.eqb_spec c "?") | destruct (Ascii.eqb_spec c "<")];
      subst; try discriminate; reflexivity. }
  destruct Hq as (-> & ->).
  rewrite eat_format_prefix_all; [| exact Hf | unfold len in Hl; pose proof (len_nonneg p); lia].
  destruct (Z.leb_spec (SHORT_STRING E) (len p)); [lia |].
  reflexivity.
Qed.

(** X9.  A directive cut short by the end of the template, or a backslash at the
    end, ends the scan without a trace: the output is the text in front of
    it. *)
Theorem truncated_directive_ends_scan (E : collaborators) (depth : nat) (buf : block)
        (buflen col cols : Z) (s T tail : list ascii) (flags : Z) :
  plain_text s = Some T ->
  single_width_run E s tail ->
  tail = ["\"] \/
  (exists p, tail = "%" :: p /\ forallb format_char p = true /\ len p < SHORT_STRING E) ->
  len (s ++ tail) < STRING E ->
  filter_requested E (s ++ tail) flags = Ok false ->
  1 <= buflen < 2 ^ 64 ->
  buflen <= len buf ->
  arrow_cursor E flags + len T < buflen - 1 ->
  exists m,
    mutt_expando_format E (S depth) buf buflen col cols (s ++ tail) flags = Ok m /\
    cstr m = T.
Proof.
  intros HT Hw Htail Hlen Hnf Hcap Hbuf Hfit.
  pose proof (arrow_cursor_nonneg E flags) as Ha.
  destruct (format_plain_prefix E depth buf buflen col cols s T tail flags)
    as (n & Hn & ->); auto.
  set (st0 := initial_state E buf (arrow_cursor E flags)
                            (size_t (col + arrow_cursor E flags)) [] flags).
  destruct (finish_stored st0 T tail) as (m & Hm & Hc & _).
  - reflexivity.
  - unfold st0. cbn [initial_state st_buf]. lia.
  - apply (plain_text_no_nul _ _ _ (Nat.lt_succ_diag_r _) HT).
  - exists m. split; [| exact Hc]. rewrite <- Hm.
    destruct n as [| n]; [lia |].
    assert (Hstep : step E (mutt_expando_format E depth) (buflen - 1) cols (stored st0 T tail)
                    = Ok (Break (stored st0 T tail))).
    { unfold step. cbn [stored st_src].
      destruct Htail as [-> | (p & -> & Hf & Hl)].
      - reflexivity.
      - cbn [hd0 hd tl].
        assert (Hp : Ascii.eqb (hd0 p) "%" = false).
        { destruct p as [| c p]; [reflexivity |]. cbn [forallb] in Hf.
          apply andb_true_iff in Hf as (Hc' & _). cbn [hd0 hd].
          destruct (Ascii.eqb_spec c "%"); subst; try discriminate; reflexivity. }
        change (Ascii.eqb "%" "%") with true. cbv iota. rewrite Hp.
        rewrite parse_truncated by assumption. reflexivity. }
    rewrite scan_round.
    + rewrite Hstep. reflexivity.
    + cbn [stored st_src]. destruct Htail as [-> | (p & -> & _)]; discriminate.
    + cbn [stored st_wlen]. unfold st0. cbn [initial_state st_wlen]. lia.
Qed.

Lemma truncated_directive_ends_scan_witness :
  exists m,
    mutt_expando_format (example_env (fun _ => None) false []) 1 (repeat "x" 8)
                        8 0 80 (str "ab%-10") 0 = Ok m /\
    cstr m = str "ab".
Proof.
  destruct (truncated_directive_ends_scan (example_env (fun _ => None) false []) 0 (repeat "x" 8)
           8 0 80 (str "ab") (str "ab") (str "%-10") 0) as (m & Hm & Hc).
  - reflexivity.
  - run_chars.
  - right. exists (str "-10"). split; [reflexivity |]. split; reflexivity.
  - reflexivity.
  - reflexivity.
  - vm_compute. split; [discriminate | reflexivity].
  - vm_compute. discriminate.
  - reflexivity.
  - exists m. split; [exact Hm | exact Hc].
Defined.

Lemma eat_format_prefix_stop : forall (p : list ascii) (n : nat) (ch : ascii) (r : list ascii),
  forallb format_char p = true -> format_char ch = false -> (length p <= n)%nat ->
  eat_format_prefix n (p ++ ch :: r) = (p, ch :: r).
Proof.
  induction p as [| c p IH]; intros n ch r Hf Hc Hn.
  - cbn [app]. destruct n; [reflexivity |].
    cbn [eat_format_prefix hd0 hd]. unfold format_char in Hc. rewrite Hc. reflexivity.
  - destruct n as [| n]; [cbn [length] in Hn; lia |].
    cbn [forallb] in Hf. apply andb_true_iff in Hf as (Hc' & Hf).
    cbn [app eat_format_prefix hd0 hd tl]. unfold format_char in Hc'. rewrite Hc'.
    rewrite (IH n ch r Hf Hc) by (cbn [length] in Hn; lia). reflexivity.
Qed.

Lemma cstr_format_chars : forall p : list ascii, forallb format_char p = true -> cstr p = p.
Proof.
  induction p as [| c p IH]; intros Hf; [reflexivity |].
  cbn [forallb] in Hf. apply andb_true_iff in Hf as (Hc & Hf).
  cbn [cstr]. unfold is_nul. destruct (Ascii.eqb_spec c zero); [subst; discriminate |].
  rewrite IH by exact Hf. reflexivity.
Qed.

Lemma hd0_app_cons (p : list ascii) (ch : ascii) (r : list ascii) (x : ascii) :
  forallb format_char p = true -> format_char x = false -> ch <> x ->
  Ascii.eqb (hd0 (p ++ ch :: r)) x = false.
Proof.
  intros Hf Hx Hc. destruct p as [| c p]; cbn [app hd0 hd].
  - destruct (Ascii.eqb_spec ch x); [contradiction | reflexivity].
  - cbn [forallb] in Hf. apply andb_true_iff in Hf as (Hc' & _).
    destruct (Ascii.eqb_spec c x); [subst; congruence | reflexivity].
Qed.

(** The header of a directive that is no conditional: a format prefix and
    the character to switch on. *)
Lemma parse_plain_directive (E : collaborators) (p : list ascii) (ch : ascii)
      (r : list ascii) (st : scan_state) :
  forallb format_char p = true -> len p < SHORT_STRING E ->
  format_char ch = false -> ch <> "?" -> ch <> "<" -> ch <> zero ->
  parse_directive E (p ++ ch :: r) st =
  Ok (Some {| d_ch := ch; d_src := r;
              d_flags := Z.land (st_flags st) (Z.lnot (MUTT_FORMAT_OPTIONAL E));
              d_prefix := p; d_if_str := st_if_str st; d_else_str := st_else_str st |}).
Proof.
  intros Hf Hl Hc Hq Hlt Hz. unfold parse_directive.
  rewrite (hd0_app_cons p ch r "?") by auto. cbv iota.
  rewrite (hd0_app_cons p ch r "<") by auto. cbv iota.
  rewrite eat_format_prefix_stop; [| exact Hf | exact Hc |
    unfold len in Hl; pose proof (len_nonneg p); lia].
  destruct (Z.leb_spec (SHORT_STRING E) (len p)); [lia |].
  cbn [hd0 hd tl]. unfold is_nul. destruct (Ascii.eqb_spec ch zero); [contradiction |].
  cbn [bind]. rewrite land_clear_bit. cbn [Z.eqb].
  rewrite cstr_format_chars by exact Hf. reflexivity.
Qed.

Section Fill.

Variable E : collaborators.
Variable render : block -> Z -> Z -> Z -> list ascii -> Z -> result block.
Variables buflen cols : Z.
Hypothesis buflen_range : 0 <= buflen < 2 ^ 64.

Lemma emit_one (st : scan_state) (c : ascii) :
  0 <= st_wptr st < len (st_buf st) -> 0 <= st_wlen st < buflen ->
  emit st [c] 1 = Ok (stored st [c] (st_src st)).
Proof.
  intros Hp Hl.
  pose proof (emit_stored buflen buflen_range st c (st_src st) Hp Hl) as H.
  destruct (emit st [c] 1) as [st' | |] eqn:Eq; cbn [bind] in H; try discriminate.
  apply (f_equal (fun r => match r with Ok (Continue s) => s | _ => st end)) in H.
  cbv beta iota in H. f_equal. rewrite <- H.
  pose proof (emit_src _ _ _ _ Eq) as Hs.
  destruct st' as [a1 a2 a3 a4 a5 a6 a7 a8 a9 a10]. cbn [st_src] in Hs. unfold set_src.
  cbn [st_src st_wptr st_wlen st_col st_flags st_prefix st_if_str st_else_str st_tmp st_buf].
  rewrite Hs. reflexivity.
Qed.

(** The padding loop with a fill character of one byte and one column. *)
Lemma fill_stored : forall (n : nat) (f : ascii) (st : scan_state),
  0 <= st_wptr st -> st_wptr st + Z.of_nat n <= len (st_buf st) ->
  0 <= st_wlen st -> st_wlen st + Z.of_nat n <= buflen ->
  0 <= st_col st < 2 ^ 64 ->
  fill n [f] 1 st = Ok (stored st (repeat f n) (st_src st)).
Proof.
  induction n as [| n IH]; intros f st Hp Hr Hl Hb Hc.
  - cbn [fill repeat]. rewrite stored_nil by lia. reflexivity.
  - cbn [fill]. rewrite emit_one by lia. cbn [bind].
    rewrite IH.
    + rewrite stored_stored by (change (len [f]) with 1; unfold len in *; try rewrite repeat_length; lia).
      reflexivity.
    + cbn [stored st_wptr]. change (len [f]) with 1. lia.
    + cbn [stored st_wptr st_buf]. change (len [f]) with 1.
      unfold len in *. rewrite !length_app, length_firstn, length_skipn. cbn [length]. lia.
    + cbn [stored st_wlen]. change (len [f]) with 1. lia.
    + cbn [stored st_wlen]. change (len [f]) with 1. lia.
    + cbn [stored st_col]. apply size_t_nonneg.
Qed.

End Fill.

Section Directives.

Variable E : collaborators.
Variable render : block -> Z -> Z -> Z -> list ascii -> Z -> result block.
Variables buflen cols : Z.
Hypothesis buflen_range : 0 <= buflen < 2 ^ 64.

(** One round of the main loop at a directive that is no conditional. *)
Lemma step_directive (st : scan_state) (p : list ascii) (ch : ascii) (r : list ascii) :
  st_src st = "%" :: p ++ ch :: r ->
  forallb format_char p = true -> len p < SHORT_STRING E ->
  format_char ch = false -> ch <> "?" -> ch <> "<" -> ch <> zero -> ch <> "%" ->
  step E render buflen cols st =
  if Ascii.eqb ch ">" || Ascii.eqb ch "*" then
    st' <- justify E render buflen cols ch (after_header E st p r) ;; Ok (Break st')
  else if Ascii.eqb ch "|" then
    st' <- pad_eol E buflen cols (after_header E st p r) ;; Ok (Break st')
  else
    st' <- expando E buflen cols ch (after_header E st p r) ;; Ok (Continue st').
Proof.
  intros Hs Hf Hl Hc Hq Hlt Hz Hp. unfold step. rewrite Hs. cbn [hd0 hd tl].
  change (Ascii.eqb "%" "%") with true. cbv iota.
  fold (hd0 (p ++ ch :: r)). rewrite (hd0_app_cons p ch r "%") by auto. cbv iota.
  rewrite parse_plain_directive by assumption. cbn [bind d_ch].
  reflexivity.
Qed.

Lemma set_src_stored (st : scan_state) (t r r' : list ascii) :
  set_src (stored st t r) r' = stored st t r'.
Proof. reflexivity. Qed.

Lemma after_header_stored (st : scan_state) (t r p r' : list ascii) :
  after_header E (stored st t r) p r' = stored (after_header E st p r') t r'.
Proof. reflexivity. Qed.

(** [%|] with a fill character of one byte and one column. *)
Lemma pad_eol_single (st : scan_state) (f : ascii) (r : list ascii) :
  st_src st = f :: r -> mutt_mb_charlen E (f :: r) = (1, 1) ->
  buflen < 2 ^ 63 -> 0 <= cols < 2 ^ 31 -> 0 <= st_col st < cols ->
  0 <= st_wptr st <= st_wlen st -> st_wlen st < buflen -> buflen < len (st_buf st) ->
  pad_eol E buflen cols st =
  Ok (stored st (repeat f (Z.to_nat (Z.min (cols - st_col st) (buflen - st_wlen st)))) r).
Proof.
  intros Hs Hw Hb Hcols Hcol Hp Hl Hbuf.
  assert (P31 : 2 ^ 31 = 2147483648) by reflexivity.
  assert (P63 : 2 ^ 63 = 9223372036854775808) by reflexivity.
  assert (P64 : 2 ^ 64 = 18446744073709551616) by reflexivity.
  unfold pad_eol, fill_charlen. rewrite Hs, Hw.
  change (1 <=? 0) with false. cbv iota.
  rewrite (size_t_small cols) by lia.
  destruct (Z.ltb_spec (st_col st) cols); [| lia].
  destruct (Z.ltb_spec (st_wlen st) buflen); [| lia].
  cbn [andb]. change (size_t 1) with 1. cbn [Z.eqb].
  rewrite Z.div_1_r. rewrite (size_t_small (cols - st_col st)) by lia.
  rewrite (int_small (cols - st_col st)) by lia.
  destruct (Z.gtb_spec (cols - st_col st) 0); [| lia]. cbn [andb].
  rewrite Z.mul_1_r. rewrite (size_t_small (st_wlen st + (cols - st_col st))) by lia.
  set (c := if st_wlen st + (cols - st_col st) >? buflen
            then Z.quot (int (size_t (buflen - st_wlen st))) 1
            else cols - st_col st).
  assert (Hc : c = Z.min (cols - st_col st) (buflen - st_wlen st)).
  { unfold c. destruct (Z.gtb_spec (st_wlen st + (cols - st_col st)) buflen).
    - rewrite Z.quot_1_r. rewrite size_t_small by lia. rewrite int_small by lia. lia.
    - lia. }
  rewrite Hc. change (read_bytes 1 (f :: r)) with [f].
  rewrite (fill_stored buflen buflen_range) by lia.
  cbn [bind]. rewrite Hs. reflexivity.
Qed.

End Directives.

(** X10.  [%|]: the rest of the line is filled.  For a template that goes on,
    after a plain part, with [%|] and a fill character of one byte and one
    column, the output is the text of the plain part followed by the fill
    character up to the last column, or up to the last byte of the capacity
    if that comes first; what follows the fill character in the template
    is not read. *)
Theorem pad_to_end_of_line (E : collaborators) (depth : nat) (buf : block)
        (buflen col cols : Z) (s T : list ascii) (f : ascii) (rest : list ascii) (flags : Z) :
  let src := s ++ "%" :: "|" :: f :: rest in
  let start := col + arrow_cursor E flags + len T in
  plain_text s = Some T ->
  single_width_run E s ("%" :: "|" :: f :: rest) ->
  mutt_mb_charlen E (f :: rest) = (1, 1) -> f <> zero ->
  0 < SHORT_STRING E ->
  len src < STRING E ->
  filter_requested E src flags = Ok false ->
  1 <= buflen < 2 ^ 63 ->
  buflen <= len buf ->
  arrow_cursor E flags + len T < buflen - 1 ->
  0 <= col -> start < cols < 2 ^ 31 ->
  exists m,
    mutt_expando_format E (S depth) buf buflen col cols src flags = Ok m /\
    cstr m = T ++ repeat f (Z.to_nat (Z.min (cols - start)
                                            (buflen - 1 - (arrow_cursor E flags + len T)))).
Proof.
  intros src start HT Hw Hf Hfz Hshort Hlen Hnf Hcap Hbuf Hfit Hcol Hcols.
  subst src.
  assert (P31 : 2 ^ 31 = 2147483648) by reflexivity.
  assert (P63 : 2 ^ 63 = 9223372036854775808) by reflexivity.
  assert (P64 : 2 ^ 64 = 18446744073709551616) by reflexivity.
  pose proof (arrow_cursor_nonneg E flags) as Ha.
  pose proof (len_nonneg T) as HT0.
  destruct (format_plain_prefix E depth buf buflen col cols s T ("%" :: "|" :: f :: rest) flags)
    as (n & Hn & ->); auto; [lia |].
  set (st0 := initial_state E buf (arrow_cursor E flags)
                            (size_t (col + arrow_cursor E flags)) [] flags).
  destruct n as [| n]; [lia |].
  rewrite scan_round;
    [| cbn [stored st_src]; discriminate
     | cbn [stored st_wlen]; unfold st0; cbn [initial_state st_wlen]; lia].
  rewrite (step_directive E _ _ _ _ [] "|" (f :: rest)); try reflexivity; try discriminate;
    [| change (len []) with 0; lia].
  change (Ascii.eqb "|" ">" || Ascii.eqb "|" "*") with false.
  change (Ascii.eqb "|" "|") with true. cbv iota.
  rewrite after_header_stored.
  set (st1 := after_header E st0 [] (f :: rest)).
  assert (Hcol1 : st_col (stored st1 T (f :: rest)) = start).
  { cbn [stored st_col]. unfold st1, st0. cbn [after_header initial_state st_col].
    unfold start. rewrite (size_t_small (col + arrow_cursor E flags)) by lia.
    apply size_t_small. lia. }
  assert (Hwptr : st_wptr (stored st1 T (f :: rest)) = len T) by reflexivity.
  assert (Hwlen : st_wlen (stored st1 T (f :: rest)) = arrow_cursor E flags + len T)
    by reflexivity.
  assert (Hbl : len (st_buf (stored st1 T (f :: rest))) = len buf).
  { cbn [stored st_buf]. unfold st1, st0. cbn [after_header initial_state st_buf st_wptr].
    unfold len in *. rewrite !length_app, length_firstn, length_skipn. lia. }
  rewrite (pad_eol_single E (buflen - 1) cols ltac:(lia) _ f rest);
    [| reflexivity | exact Hf | lia | lia | rewrite Hcol1; lia | rewrite Hwptr, Hwlen; lia
     | rewrite Hwlen; lia | rewrite Hbl; lia].
  cbn [bind]. rewrite Hcol1, Hwlen.
  set (c := Z.to_nat _).
  assert (Hc : Z.of_nat c <= buflen - 1 - (arrow_cursor E flags + len T)) by (unfold c; lia).
  rewrite stored_stored;
    [| unfold st1, st0; cbn [after_header initial_state st_wptr]; lia
     | unfold st1, st0; cbn [after_header initial_state st_wptr st_buf];
       unfold len in *; rewrite repeat_length; lia].
  destruct (finish_stored st1 (T ++ repeat f c) rest) as (m & Hm & Hcs & _).
  - reflexivity.
  - unfold st1, st0. cbn [after_header initial_state st_buf]. rewrite len_app.
    unfold len in *. rewrite repeat_length. lia.
  - apply Forall_app. split.
    + apply (plain_text_no_nul _ _ _ (Nat.lt_succ_diag_r _) HT).
    + apply Forall_forall. intros x Hx. apply repeat_spec in Hx. subst x. exact Hfz.
  - exists m. split; [exact Hm | exact Hcs].
Qed.

Lemma pad_to_end_of_line_witness :
  exists m,
    mutt_expando_format (example_env (fun _ => None) false []) 1 (repeat "x" 16)
                        16 0 5 (str "ab%|-") 0 = Ok m /\
    cstr m = str "ab---".
Proof.
  destruct (pad_to_end_of_line (example_env (fun _ => None) false []) 0 (repeat "x" 16)
           16 0 5 (str "ab") (str "ab") "-" [] 0) as (m & Hm & Hc).
  - reflexivity.
  - run_chars.
  - reflexivity.
  - discriminate.
  - reflexivity.
  - reflexivity.
  - reflexivity.
  - vm_compute. split; [discriminate | reflexivity].
  - vm_compute. discriminate.
  - reflexivity.
  - vm_compute. discriminate.
  - vm_compute. split; reflexivity.
  - exists m. split; [exact Hm | exact Hc].
Defined.

Lemma cstr_no_nul : forall m : list ascii, Forall (fun c => c <> zero) (cstr m).
Proof.
  induction m as [| c m IH]; cbn [cstr]; [constructor |].
  unfold is_nul. destruct (Ascii.eqb_spec c zero); constructor; assumption.
Qed.

Lemma read_bytes_all (s : list ascii) : read_bytes (len s) s = s.
Proof.
  unfold read_bytes, len. rewrite Nat2Z.id. rewrite firstn_app_le by lia.
  apply firstn_all.
Qed.

Section Justify.

Variable E : collaborators.
Variable render : block -> Z -> Z -> Z -> list ascii -> Z -> result block.
Variables buflen cols : Z.
Hypothesis buflen_range : 0 <= buflen < 2 ^ 64.

(** A string stored through [wptr], as wide as it is long. *)
Lemma emit_text (st : scan_state) (t : list ascii) :
  0 <= st_wptr st -> st_wptr st + len t <= len (st_buf st) ->
  0 <= st_wlen st -> st_wlen st + len t <= buflen ->
  emit st t (len t) = Ok (stored st t (st_src st)).
Proof.
  intros Hp Hr Hl Hb. pose proof (len_nonneg t) as Ht.
  unfold emit. rewrite memcpy_Ok by lia. cbn [bind].
  rewrite (size_t_small (st_wlen st + len t)) by lia.
  unfold stored, set_buf, set_cursor.
  cbn [st_src st_wptr st_wlen st_col st_flags st_prefix st_if_str st_else_str st_tmp st_buf].
  do 2 f_equal. do 3 f_equal. unfold len. lia.
Qed.

(** [%>] with a fill character of one byte and one column, when the
    rendered remainder is as wide as it is long and fits. *)
Lemma justify_hard_single (st : scan_state) (f : ascii) (r : list ascii) (tmp : block) :
  st_src st = f :: r -> mutt_mb_charlen E (f :: r) = (1, 1) ->
  buflen < 2 ^ 63 -> 0 <= cols < 2 ^ 31 -> 0 <= st_col st < cols ->
  0 <= st_wptr st <= st_wlen st -> st_wlen st < buflen -> buflen < len (st_buf st) ->
  render (st_tmp st) (LONG_STRING E) 0 cols r (st_flags st) = Ok tmp ->
  mutt_strwidth E (cstr tmp) = len (cstr tmp) ->
  st_col st + len (cstr tmp) <= cols ->
  st_wlen st + len (cstr tmp) <= buflen ->
  justify E render buflen cols ">" st =
  Ok (stored (set_tmp st tmp)
             (repeat f (Z.to_nat (Z.min (cols - st_col st - len (cstr tmp))
                                        (buflen - st_wlen st - len (cstr tmp))))
              ++ cstr tmp) r).
Proof.
  intros Hs Hw Hb Hcols Hcol Hp Hl Hbuf Hr Hwid Hpad Hfit.
  assert (P31 : 2 ^ 31 = 2147483648) by reflexivity.
  assert (P63 : 2 ^ 63 = 9223372036854775808) by reflexivity.
  assert (P64 : 2 ^ 64 = 18446744073709551616) by reflexivity.
  pose proof (len_nonneg (cstr tmp)) as HR.
  unfold justify, fill_charlen. rewrite Hs, Hw.
  change (1 <=? 0) with false. cbv iota.
  change (Ascii.eqb ">" "*") with false.
  rewrite (size_t_small cols) by lia.
  destruct (Z.ltb_spec (st_col st) cols); [| lia].
  destruct (Z.ltb_spec (st_wlen st) buflen); [| lia].
  cbn [andb orb]. change (advance 1 (f :: r)) with r. rewrite Hr. cbn [bind].
  change (size_t 1) with 1. cbn [Z.eqb].
  rewrite Hwid. rewrite (size_t_small (len (cstr tmp))) by lia.
  assert (Hcp : compute_pad cols (st_col (set_tmp st tmp)) (len (cstr tmp)) 1
                = cols - st_col st - len (cstr tmp)).
  { unfold compute_pad. cbn [set_tmp st_col]. change (size_t 1) with 1. rewrite Z.div_1_r.
    rewrite (size_t_small cols) by lia.
    rewrite (size_t_small (cols - st_col st)) by lia.
    rewrite (size_t_small (cols - st_col st - len (cstr tmp))) by lia.
    apply int_small. lia. }
  rewrite Hcp. set (pad := cols - st_col st - len (cstr tmp)).
  destruct (Z.geb_spec pad 0); [| unfold pad in *; lia].
  cbn [set_tmp st_wlen st_col]. rewrite !Z.mul_1_r.
  rewrite (size_t_small (st_wlen st + pad + len (cstr tmp))) by (unfold pad; lia).
  change (read_bytes 1 (f :: r)) with [f].
  assert (Hfill : forall k, 0 <= k -> k <= buflen - st_wlen st - len (cstr tmp) ->
    (st0 <- fill (Z.to_nat k) [f] 1 (set_tmp st tmp) ;;
     (let len2 := if size_t (len (cstr tmp) + st_wlen st0) >? buflen
                  then fst (mutt_wstr_trunc E (cstr tmp) (size_t (buflen - st_wlen st0))
                              (size_t (cols - st_col st0)))
                  else len (cstr tmp) in
      st1 <- emit st0 (read_bytes len2 (cstr tmp)) (len (cstr tmp)) ;;
      Ok (set_src st1 r))) =
    Ok (stored (set_tmp st tmp) (repeat f (Z.to_nat k) ++ cstr tmp) r)).
  { intros k Hk0 Hk.
    rewrite (fill_stored buflen buflen_range); cbn [set_tmp st_wptr st_wlen st_col st_buf];
      try lia.
    cbn [bind stored st_wlen set_tmp]. unfold len at 2. rewrite repeat_length.
    rewrite Z2Nat.id by lia.
    rewrite (size_t_small (len (cstr tmp) + (st_wlen st + k))) by lia.
    destruct (Z.gtb_spec (len (cstr tmp) + (st_wlen st + k)) buflen); [lia |].
    rewrite read_bytes_all.
    rewrite emit_text.
    - cbn [bind]. rewrite set_src_stored. rewrite stored_stored.
      + reflexivity.
      + cbn [set_tmp st_wptr]. lia.
      + cbn [set_tmp st_wptr st_buf]. unfold len at 1. rewrite repeat_length. lia.
    - cbn [stored st_wptr set_tmp]. unfold len at 1. rewrite repeat_length. lia.
    - cbn [stored st_wptr st_buf set_tmp]. unfold len at 1. rewrite repeat_length.
      unfold len in *. rewrite !length_app, length_firstn, length_skipn, repeat_length. lia.
    - cbn [stored st_wlen set_tmp]. unfold len at 1. rewrite repeat_length. lia.
    - cbn [stored st_wlen set_tmp]. unfold len at 1. rewrite repeat_length. lia. }
  destruct (Z.gtb_spec (st_wlen st + pad + len (cstr tmp)) buflen).
  - rewrite (size_t_small (st_wlen st + len (cstr tmp))) by lia.
    rewrite Z.div_1_r.
    rewrite (size_t_small (buflen - st_wlen st - len (cstr tmp))) by lia.
    rewrite (int_small (buflen - st_wlen st - len (cstr tmp))) by (unfold pad in *; lia).
    destruct (Z.gtb_spec buflen (st_wlen st + len (cstr tmp))).
    + replace (Z.min pad (buflen - st_wlen st - len (cstr tmp)))
        with (buflen - st_wlen st - len (cstr tmp)) by lia.
      rewrite <- (Hfill (buflen - st_wlen st - len (cstr tmp))) by lia.
      destruct (fill _ _ _ _); reflexivity.
    + replace (Z.min pad (buflen - st_wlen st - len (cstr tmp))) with 0 by lia.
      rewrite <- (Hfill 0) by lia.
      destruct (fill _ _ _ _); reflexivity.
  - replace (Z.min pad (buflen - st_wlen st - len (cstr tmp))) with pad by lia.
    rewrite <- (Hfill pad) by lia.
    assert (Hguard : (size_t (st_col st + pad + len (cstr tmp)) <? cols) = false).
    { rewrite size_t_small by (unfold pad; lia). apply Z.ltb_ge. unfold pad. lia. }
    destruct (Z.to_nat buflen); cbn [pre_space set_tmp st_col st_wlen];
      rewrite Hguard; cbn [andb bind];
      destruct (fill _ _ _ _); reflexivity.
Qed.

End Justify.

Lemma set_tmp_stored (st : scan_state) (t r : list ascii) (tmp : block) :
  set_tmp (stored st t r) tmp = stored (set_tmp st tmp) t r.
Proof. reflexivity. Qed.

(** X11.  [%>]: right justification.  For a template that goes on, after a plain
    part, with [%>], a fill character of one byte and one column and a
    remainder, the output is the text of the plain part, the fill character
    repeated, and the rendered remainder, which so ends in the last column;
    the fill is shortened when the capacity ends first. *)
Theorem right_justify_fills (E : collaborators) (depth : nat) (buf : block)
        (buflen col cols : Z) (s T : list ascii) (f : ascii) (rest : list ascii)
        (tmp : block) (flags : Z) :
  let src := s ++ "%" :: ">" :: f :: rest in
  let start := col + arrow_cursor E flags + len T in
  let used := arrow_cursor E flags + len T in
  plain_text s = Some T ->
  single_width_run E s ("%" :: ">" :: f :: rest) ->
  mutt_mb_charlen E (f :: rest) = (1, 1) -> f <> zero ->
  0 < SHORT_STRING E ->
  len src < STRING E ->
  filter_requested E src flags = Ok false ->
  1 <= buflen < 2 ^ 63 ->
  buflen <= len buf ->
  used < buflen - 1 ->
  0 <= col -> start < cols < 2 ^ 31 ->
  mutt_expando_format E depth (stack_tmp E) (LONG_STRING E) 0 cols rest
                      (Z.land flags (Z.lnot (MUTT_FORMAT_OPTIONAL E))) = Ok tmp ->
  mutt_strwidth E (cstr tmp) = len (cstr tmp) ->
  start + len (cstr tmp) <= cols ->
  used + len (cstr tmp) <= buflen - 1 ->
  exists m,
    mutt_expando_format E (S depth) buf buflen col cols src flags = Ok m /\
    cstr m = T ++ repeat f (Z.to_nat (Z.min (cols - start - len (cstr tmp))
                                            (buflen - 1 - used - len (cstr tmp))))
               ++ cstr tmp.
Proof.
  intros src start used HT Hw Hf Hfz Hshort Hlen Hnf Hcap Hbuf Hfit Hcol Hcols
         Hr Hwid Hpad Hroom.
  subst src used.
  assert (P31 : 2 ^ 31 = 2147483648) by reflexivity.
  assert (P63 : 2 ^ 63 = 9223372036854775808) by reflexivity.
  assert (P64 : 2 ^ 64 = 18446744073709551616) by reflexivity.
  pose proof (arrow_cursor_nonneg E flags) as Ha.
  pose proof (len_nonneg T) as HT0.
  pose proof (len_nonneg (cstr tmp)) as HR0.
  destruct (format_plain_prefix E depth buf buflen col cols s T ("%" :: ">" :: f :: rest) flags)
    as (n & Hn & ->); auto; [lia |].
  set (st0 := initial_state E buf (arrow_cursor E flags)
                            (size_t (col + arrow_cursor E flags)) [] flags).
  destruct n as [| n]; [lia |].
  rewrite scan_round;
    [| cbn [stored st_src]; discriminate
     | cbn [stored st_wlen]; unfold st0; cbn [initial_state st_wlen]; lia].
  rewrite (step_directive E _ _ _ _ [] ">" (f :: rest)); try reflexivity; try discriminate;
    [| change (len []) with 0; lia].
  change (Ascii.eqb ">" ">" || Ascii.eqb ">" "*") with true. cbv iota.
  rewrite after_header_stored.
  set (st1 := after_header E st0 [] (f :: rest)).
  assert (Hcol1 : st_col (stored st1 T (f :: rest)) = start).
  { cbn [stored st_col]. unfold st1, st0. cbn [after_header initial_state st_col].
    unfold start. rewrite (size_t_small (col + arrow_cursor E flags)) by lia.
    apply size_t_small. lia. }
  assert (Hwptr : st_wptr (stored st1 T (f :: rest)) = len T) by reflexivity.
  assert (Hwlen : st_wlen (stored st1 T (f :: rest)) = arrow_cursor E flags + len T)
    by reflexivity.
  assert (Hbl : len (st_buf (stored st1 T (f :: rest))) = len buf).
  { cbn [stored st_buf]. unfold st1, st0. cbn [after_header initial_state st_buf st_wptr].
    unfold len in *. rewrite !length_app, length_firstn, length_skipn. lia. }
  rewrite (justify_hard_single E _ (buflen - 1) cols ltac:(lia) _ f rest tmp);
    [| reflexivity | exact Hf | lia | lia | rewrite Hcol1; lia | rewrite Hwptr, Hwlen; lia
     | rewrite Hwlen; lia | rewrite Hbl; lia | exact Hr | exact Hwid
     | rewrite Hcol1; lia | rewrite Hwlen; lia].
  cbn [bind]. rewrite Hcol1, Hwlen.
  set (c := Z.to_nat _).
  assert (Hc : Z.of_nat c <= buflen - 1 - (arrow_cursor E flags + len T) - len (cstr tmp))
    by (unfold c; lia).
  rewrite set_tmp_stored.
  rewrite stored_stored;
    [| unfold st1, st0; cbn [set_tmp after_header initial_state st_wptr]; lia
     | unfold st1, st0; cbn [set_tmp after_header initial_state st_wptr st_buf];
       rewrite len_app; unfold len in *; rewrite repeat_length; lia].
  destruct (finish_stored (set_tmp st1 tmp) (T ++ repeat f c ++ cstr tmp) rest)
    as (m & Hm & Hcs & _).
  - reflexivity.
  - unfold st1, st0. cbn [set_tmp after_header initial_state st_buf]. rewrite !len_app.
    unfold len in *. rewrite repeat_length. lia.
  - apply Forall_app. split; [| apply Forall_app; split].
    + apply (plain_text_no_nul _ _ _ (Nat.lt_succ_diag_r _) HT).
    + apply Forall_forall. intros x Hx. apply repeat_spec in Hx. subst x. exact Hfz.
    + apply cstr_no_nul.
  - exists m. split; [exact Hm | exact Hcs].
Qed.

Lemma right_justify_fills_witness :
  exists m,
    mutt_expando_format (example_env (fun _ => None) false []) 2 (repeat "x" 16)
                        16 0 10 (str "ab%> xyz") 0 = Ok m /\
    cstr m = str "ab     xyz".
Proof.
  destruct (right_justify_fills (example_env (fun _ => None) false []) 1 (repeat "x" 16)
           16 0 10 (str "ab") (str "ab") " " (str "xyz")
           (str "xyz" ++ repeat zero 1021) 0) as (m & Hm & Hc).
  - reflexivity.
  - run_chars.
  - reflexivity.
  - discriminate.
  - reflexivity.
  - reflexivity.
  - reflexivity.
  - vm_compute. split; [discriminate | reflexivity].
  - vm_compute. discriminate.
  - reflexivity.
  - vm_compute. discriminate.
  - vm_compute. split; reflexivity.
  - vm_compute. reflexivity.
  - reflexivity.
  - vm_compute. discriminate.
  - vm_compute. discriminate.
  - exists m. split; [exact Hm | exact Hc].
Defined.





Section Expando.

Variable E : collaborators.
Variable render : block -> Z -> Z -> Z -> list ascii -> Z -> result block.
Variables buflen cols : Z.
Hypothesis buflen_range : 0 <= buflen < 2 ^ 64.


End Expando.



Section ExpandoThenPlain.

Variable E : collaborators.
Variable render : block -> Z -> Z -> Z -> list ascii -> Z -> result block.
Variables buflen cols : Z.
Hypothesis buflen_range : 0 <= buflen < 2 ^ 64.


End ExpandoThenPlain.

















Lemma memcpy_no_timeout (m : block) (i : Z) (s : list ascii) : memcpy m i s <> Timeout.
Proof. unfold memcpy. destruct (_ && _); discriminate. Qed.

Lemma emit_no_timeout (st : scan_state) (s : list ascii) (w : Z) : emit st s w <> Timeout.
Proof.
  unfold emit. destruct (memcpy _ _ _) eqn:E; cbn [bind]; try discriminate.
  exfalso. exact (memcpy_no_timeout _ _ _ E).
Qed.

Lemma emit_flags (st : scan_state) (s : list ascii) (w : Z) (st' : scan_state) :
  emit st s w = Ok st' -> st_flags st' = st_flags st.
Proof.
  unfold emit. destruct (memcpy _ _ _); cbn [bind]; try discriminate.
  intros H. injection H as <-. reflexivity.
Qed.

Lemma fill_no_timeout : forall (pad : nat) (s : list ascii) (pw : Z) (st : scan_state),
  fill pad s pw st <> Timeout.
Proof.
  induction pad as [| pad IH]; intros s pw st; cbn [fill]; [discriminate |].
  destruct (emit st s pw) as [st1 | |] eqn:E; cbn [bind]; try discriminate.
  - apply IH.
  - exfalso. exact (emit_no_timeout _ _ _ E).
Qed.

Lemma size_t_succ (x : Z) : size_t (size_t x + 1) = size_t (x + 1).
Proof. unfold size_t. rewrite Zplus_mod_idemp_l. reflexivity. Qed.

(** The spacing loops stop: every round adds one to [wlen], and the guard
    asks for [wlen] plus a constant to be below [buflen]. *)
Lemma pre_space_no_timeout (buflen c : Z) (guard : scan_state -> bool) :
  0 <= buflen < 2 ^ 64 ->
  (forall st, guard st = true -> size_t (st_wlen st + c) < buflen) ->
  forall (n : nat) (st : scan_state),
  buflen - size_t (st_wlen st + c) <= Z.of_nat n ->
  pre_space n guard st <> Timeout.
Proof.
  intros Hb Hg. induction n as [| n IH]; intros st Hn.
  - cbn [pre_space]. destruct (guard st) eqn:G; [| discriminate].
    specialize (Hg st G). lia.
  - cbn [pre_space]. destruct (guard st) eqn:G; [| discriminate].
    specialize (Hg st G).
    destruct (emit st [" "] 1) as [st1 | |] eqn:Ee; cbn [bind]; try discriminate.
    + apply IH. unfold emit in Ee.
      destruct (memcpy _ _ _); cbn [bind] in Ee; try discriminate.
      injection Ee as <-. cbn [set_buf set_cursor st_wlen]. change (len [" "]) with 1.
      assert (Hs : size_t (size_t (st_wlen st + 1) + c) = size_t (st_wlen st + c) + 1).
      { unfold size_t in *. rewrite Zplus_mod_idemp_l.
        replace (st_wlen st + 1 + c) with (st_wlen st + c + 1) by lia.
        rewrite <- Zplus_mod_idemp_l. apply Z.mod_small.
        pose proof (Z.mod_pos_bound (st_wlen st + c) (2 ^ 64) ltac:(reflexivity)). lia. }
      rewrite Hs. lia.
    + exfalso. exact (emit_no_timeout _ _ _ Ee).
Qed.

Lemma parse_directive_no_timeout (E : collaborators) (s : list ascii) (st : scan_state) :
  parse_directive E s st <> Timeout.
Proof.
  unfold parse_directive.
  set (s1 := if Ascii.eqb (hd0 s) "?" then legacy_rewrite s else s). clearbody s1.
  match goal with
  | |- bind ?h _ <> _ => assert (Hh : h <> Timeout)
  end.
  { destruct (Ascii.eqb (hd0 s1) "<").
    - destruct (eat_optional_prefix _ _) as [p' r'].
      destruct (SHORT_STRING E <=? len p'); discriminate.
    - destruct (eat_format_prefix _ _) as [p' r'].
      destruct (SHORT_STRING E <=? len p'); [discriminate |].
      destruct (is_nul (hd0 r')); discriminate. }
  match goal with
  | |- bind ?h _ <> _ => destruct h as [[[[[flags ch] p] s2] |] | |];
                         cbn [bind]; try discriminate; try contradiction
  end.
  destruct (Z.land flags (MUTT_FORMAT_OPTIONAL E) =? 0); [discriminate |].
  destruct (negb (Ascii.eqb (hd0 s2) "?")); [discriminate |].
  destruct (eat_branch _ _ 0 1 (tl s2) []) as [[ifs s3] lr].
  destruct (SHORT_STRING E <=? len ifs); [discriminate |].
  destruct (eat_branch _ _ 0 lr _ []) as [[els s4] lr'].
  destruct (SHORT_STRING E <=? len els); [discriminate |].
  destruct (is_nul (hd0 s4)); discriminate.
Qed.

Lemma filtering_off_lor (E : collaborators) (flags : Z) :
  filtering_off E flags -> filtering_off E (Z.lor flags (MUTT_FORMAT_OPTIONAL E)).
Proof.
  unfold filtering_off. intros H H'. apply H.
  rewrite Z.land_lor_distr_l in H'. apply Z.lor_eq_0_iff in H'. apply H'.
Qed.

Lemma filtering_off_clear (E : collaborators) (flags : Z) :
  Z.land (MUTT_FORMAT_NOFILTER E) (MUTT_FORMAT_OPTIONAL E) = 0 ->
  filtering_off E flags ->
  filtering_off E (Z.land flags (Z.lnot (MUTT_FORMAT_OPTIONAL E))).
Proof.
  unfold filtering_off. intros Hd H H'. apply H.
  rewrite <- Z.land_assoc in H'.
  rewrite (Z.land_comm (Z.lnot _)) in H'.
  rewrite <- Z.ldiff_land in H'.
  assert (Hl : Z.ldiff (MUTT_FORMAT_NOFILTER E) (MUTT_FORMAT_OPTIONAL E) = MUTT_FORMAT_NOFILTER E).
  { apply Z.bits_inj'. intros n Hn. rewrite Z.ldiff_spec.
    assert (Hb : Z.testbit (Z.land (MUTT_FORMAT_NOFILTER E) (MUTT_FORMAT_OPTIONAL E)) n = false)
      by (rewrite Hd; apply Z.bits_0).
    rewrite Z.land_spec in Hb.
    destruct (Z.testbit (MUTT_FORMAT_NOFILTER E) n), (Z.testbit (MUTT_FORMAT_OPTIONAL E) n);
      cbn in *; congruence. }
  rewrite Hl in H'. exact H'.
Qed.

Lemma parse_directive_flags (E : collaborators) (s : list ascii) (st : scan_state)
      (d : directive) :
  Z.land (MUTT_FORMAT_NOFILTER E) (MUTT_FORMAT_OPTIONAL E) = 0 ->
  filtering_off E (st_flags st) ->
  parse_directive E s st = Ok (Some d) -> filtering_off E (d_flags d).
Proof.
  intros Hd Hf. unfold parse_directive.
  set (s1 := if Ascii.eqb (hd0 s) "?" then legacy_rewrite s else s). clearbody s1.
  intros H.
  match type of H with
  | bind ?h _ = _ =>
      assert (Hh : forall flags ch p s2, h = Ok (Some (flags, ch, p, s2)) ->
                                         filtering_off E flags)
  end.
  { intros flags ch p s2 Hh.
    destruct (Ascii.eqb (hd0 s1) "<").
    - destruct (eat_optional_prefix _ _) as [p' r'].
      destruct (SHORT_STRING E <=? len p'); [discriminate |].
      injection Hh as <- _ _ _. apply filtering_off_lor. exact Hf.
    - destruct (eat_format_prefix _ _) as [p' r'].
      destruct (SHORT_STRING E <=? len p'); [discriminate |].
      destruct (is_nul (hd0 r')); [discriminate |].
      injection Hh as <- _ _ _. apply filtering_off_clear; assumption. }
  match type of H with
  | bind ?h _ = _ => destruct h as [[[[[flags ch] p] s2] |] | |] eqn:Eh;
                     cbn [bind] in H; try discriminate
  end.
  specialize (Hh flags ch p s2 eq_refl).
  destruct (Z.land flags (MUTT_FORMAT_OPTIONAL E) =? 0).
  { injection H as <-. exact Hh. }
  destruct (negb (Ascii.eqb (hd0 s2) "?")); [discriminate |].
  destruct (eat_branch _ _ 0 1 (tl s2) []) as [[ifs s3] lr].
  destruct (SHORT_STRING E <=? len ifs); [discriminate |].
  destruct (eat_branch _ _ 0 lr _ []) as [[els s4] lr'].
  destruct (SHORT_STRING E <=? len els); [discriminate |].
  destruct (is_nul (hd0 s4)); [discriminate |].
  injection H as <-. exact Hh.
Qed.

Section Returns.

Variable E : collaborators.
Variable render : block -> Z -> Z -> Z -> list ascii -> Z -> result block.
Variables buflen cols : Z.
Hypothesis buflen_range : 0 <= buflen < 2 ^ 64.
Hypothesis bits_apart : Z.land (MUTT_FORMAT_NOFILTER E) (MUTT_FORMAT_OPTIONAL E) = 0.

Lemma justify_no_timeout (ch : ascii) (st : scan_state) :
  (forall tmp bl c cs,
     render tmp bl c cs (advance (fst (fill_charlen E (st_src st))) (st_src st)) (st_flags st)
     <> Timeout) ->
  justify E render buflen cols ch st <> Timeout.
Proof.
  intros Hr. unfold justify.
  destruct (fill_charlen E (st_src st)) as [pl pw] eqn:Ef. cbn [fst] in Hr.
  destruct (_ || _); [| discriminate].
  destruct (render _ _ _ _ _ _) as [tmp | |] eqn:Er; cbn [bind]; try discriminate;
    [| exfalso; exact (Hr _ _ _ _ Er)].
  destruct (size_t pw =? 0); [discriminate |].
  set (wid := size_t (mutt_strwidth E (cstr tmp))).
  set (pad := compute_pad cols (st_col (set_tmp st tmp)) wid pw).
  match goal with
  | |- bind ?r _ <> _ => assert (Hpad : r <> Timeout)
  end.
  { destruct (pad >=? 0).
    - destruct (_ >? buflen).
      + destruct (fill _ _ _ _) as [st1 | |] eqn:E1; cbn [bind]; try discriminate.
        exfalso. exact (fill_no_timeout _ _ _ _ E1).
      + destruct (pre_space _ _ _) as [st1 | |] eqn:E1; cbn [bind]; try discriminate.
        * destruct (fill _ _ _ _) as [st2 | |] eqn:E2; cbn [bind]; try discriminate.
          exfalso. exact (fill_no_timeout _ _ _ _ E2).
        * exfalso. revert E1.
          apply (pre_space_no_timeout buflen (pad * pl + len (cstr tmp)) _ buflen_range).
          -- intros st0 G. apply andb_true_iff in G as (_ & G).
             apply Z.ltb_lt in G. rewrite Z.add_assoc. exact G.
          -- rewrite Z2Nat.id by lia. pose proof (size_t_nonneg (st_wlen (set_tmp st tmp) +
                                                 (pad * pl + len (cstr tmp)))). lia.
    - destruct (Ascii.eqb ch "*" && (pad <? 0)); [| discriminate].
      destruct (poke _ _ _) as [m | |] eqn:Ep; cbn [bind]; try discriminate;
        [| exfalso; exact (poke_no_timeout _ _ _ Ep)].
      destruct (mutt_wstr_trunc E (cstr tmp) buflen _) as [len1 wid1].
      destruct (mutt_wstr_trunc E _ _ _) as [wlen1 col1].
      destruct (pre_space _ _ _) as [st1 | |] eqn:E1; cbn [bind]; try discriminate.
      exfalso. revert E1.
      apply (pre_space_no_timeout buflen len1 _ buflen_range).
      + intros st0 G. apply andb_true_iff in G as (_ & G).
        apply Z.ltb_lt in G. exact G.
      + rewrite Z2Nat.id by lia.
        pose proof (size_t_nonneg (st_wlen (set_cursor (set_buf (set_tmp st tmp) m)
                                                        wlen1 wlen1 col1) + len1)). lia. }
  match goal with
  | |- bind ?r _ <> _ => destruct r as [[[st1 len1] wid1] | |]; cbn [bind];
                         try discriminate; try contradiction
  end.
  destruct (emit _ _ _) as [st2 | |] eqn:Ee; cbn [bind]; try discriminate.
  exfalso. exact (emit_no_timeout _ _ _ Ee).
Qed.

Lemma pad_eol_no_timeout (st : scan_state) : pad_eol E buflen cols st <> Timeout.
Proof.
  unfold pad_eol. destruct (fill_charlen E (st_src st)) as [pl pw].
  destruct (_ && _); [| discriminate].
  destruct (size_t pw =? 0); [discriminate |].
  destruct (fill _ _ _ _) as [st1 | |] eqn:E1; cbn [bind]; try discriminate.
  exfalso. exact (fill_no_timeout _ _ _ _ E1).
Qed.

Lemma expando_no_timeout (ch : ascii) (st : scan_state) :
  expando E buflen cols ch st <> Timeout.
Proof.
  unfold expando.
  destruct (modifiers ch (st_src st) false false) as [[[ch' s1] lo] nd].
  destruct (callback E _ _ _ _ _ _ _ _ _) as [text skip].
  destruct (memcpy _ 0 _) as [tmp | |] eqn:Em; cbn [bind]; try discriminate.
  - apply emit_no_timeout.
  - exfalso. exact (memcpy_no_timeout _ _ _ Em).
Qed.

Lemma expando_flags (ch : ascii) (st st' : scan_state) :
  expando E buflen cols ch st = Ok st' -> st_flags st' = st_flags st.
Proof.
  unfold expando.
  destruct (modifiers ch (st_src st) false false) as [[[ch' s1] lo] nd].
  destruct (callback E _ _ _ _ _ _ _ _ _) as [text skip].
  destruct (memcpy _ 0 _) as [tmp | |]; cbn [bind]; try discriminate.
  intros H. apply emit_flags in H. exact H.
Qed.

(** The template a round hands to the function itself is shorter than what
    is left of the template, and the filter path stays switched off. *)
Lemma step_no_timeout (st : scan_state) :
  filtering_off E (st_flags st) ->
  (forall tmp bl c cs s f,
     (length s < length (st_src st))%nat -> filtering_off E f ->
     render tmp bl c cs s f <> Timeout) ->
  step E render buflen cols st <> Timeout.
Proof.
  intros Hf Hr. unfold step.
  destruct (st_src st) as [| c r] eqn:Es.
  { cbn [hd0 hd]. change (Ascii.eqb zero "%") with false. cbv iota.
    change (Ascii.eqb zero "\") with false. cbv iota.
    destruct (mutt_mb_charlen E []) as [b0 w0].
    destruct (if b0 <? 0 then (1, 1) else (b0, w0)) as [bytes width].
    destruct (_ && _); [| discriminate].
    destruct (emit _ _ _) as [st1 | |] eqn:Ee; cbn [bind]; try discriminate.
    exfalso. exact (emit_no_timeout _ _ _ Ee). }
  cbn [hd0 hd tl].
  destruct (Ascii.eqb c "%").
  - destruct (Ascii.eqb (hd0 r) "%").
    + destruct (emit _ _ _) as [st1 | |] eqn:Ee; cbn [bind]; try discriminate.
      exfalso. exact (emit_no_timeout _ _ _ Ee).
    + destruct (parse_directive E r st) as [[d |] | |] eqn:Ep; cbn [bind];
        try discriminate; [| exfalso; exact (parse_directive_no_timeout _ _ _ Ep)].
      pose proof (parse_directive_le _ _ _ _ Ep) as Hle.
      pose proof (parse_directive_flags _ _ _ _ bits_apart Hf Ep) as Hfd.
      destruct (_ || _).
      { destruct (justify _ _ _ _ _ _) as [st1 | |] eqn:Ej; cbn [bind]; try discriminate.
        exfalso. revert Ej. apply justify_no_timeout.
        intros tmp bl c0 cs. apply Hr.
        - cbn [enter_directive st_src]. unfold advance. rewrite length_skipn.
          cbn [length]. lia.
        - exact Hfd. }
      destruct (Ascii.eqb (d_ch d) "|").
      { destruct (pad_eol _ _ _ _) as [st1 | |] eqn:Ej; cbn [bind]; try discriminate.
        exfalso. exact (pad_eol_no_timeout _ Ej). }
      destruct (expando _ _ _ _ _) as [st1 | |] eqn:Ej; cbn [bind]; try discriminate.
      exfalso. exact (expando_no_timeout _ _ Ej).
  - destruct (Ascii.eqb c "\").
    + destruct (is_nul (hd0 r)); [discriminate |].
      destruct (emit _ _ _) as [st1 | |] eqn:Ee; cbn [bind]; try discriminate.
      exfalso. exact (emit_no_timeout _ _ _ Ee).
    + destruct (mutt_mb_charlen E (c :: r)) as [b0 w0].
      destruct (if b0 <? 0 then (1, 1) else (b0, w0)) as [bytes width].
      destruct (_ && _); [| discriminate].
      destruct (emit _ _ _) as [st1 | |] eqn:Ee; cbn [bind]; try discriminate.
      exfalso. exact (emit_no_timeout _ _ _ Ee).
Qed.

(** A round after which the loop goes on leaves no more of the template
    than it found, and leaves the filter path switched off. *)
Lemma step_keeps (st st' : scan_state) :
  step E render buflen cols st = Ok (Continue st') ->
  (length (st_src st') <= length (st_src st))%nat /\
  (filtering_off E (st_flags st) -> filtering_off E (st_flags st')).
Proof.
  intros H. unfold step in H.
  assert (Hemit : forall s w r0 st0,
    (st1 <- emit st s w ;; Ok (Continue (set_src st1 r0))) = Ok (Continue st0) ->
    st_src st0 = r0 /\ st_flags st0 = st_flags st).
  { intros s w r0 st0 He.
    destruct (emit st s w) as [st1 | |] eqn:Ee; cbn [bind] in He; try discriminate.
    injection He as <-. split; [reflexivity |]. cbn [set_src st_flags].
    apply (emit_flags _ _ _ _ Ee). }
  destruct (Ascii.eqb (hd0 (st_src st)) "%").
  - destruct (Ascii.eqb (hd0 (tl (st_src st))) "%").
    + apply Hemit in H as (Hs & Hfl). rewrite Hs, Hfl. split; [| auto].
      pose proof (length_tl_le (st_src st)). pose proof (length_tl_le (tl (st_src st))). lia.
    + destruct (parse_directive E _ st) as [[d |] | |] eqn:Ep; cbn [bind] in H;
        try discriminate.
      pose proof (parse_directive_le _ _ _ _ Ep) as Hle.
      destruct (_ || _).
      { destruct (justify _ _ _ _ _ _); cbn [bind] in H; discriminate. }
      destruct (Ascii.eqb (d_ch d) "|").
      { destruct (pad_eol _ _ _ _); cbn [bind] in H; discriminate. }
      destruct (expando _ _ _ _ _) as [st1 | |] eqn:Ex; cbn [bind] in H; try discriminate.
      injection H as <-. split.
      * unfold expando in Ex. cbn [enter_directive st_src] in Ex.
        destruct (modifiers (d_ch d) (d_src d) false false) as [[[ch s1] lo] nd] eqn:Em.
        apply modifiers_le in Em.
        destruct (callback E _ _ _ _ _ _ _ _ _) as [text skip].
        destruct (memcpy _ 0 _) as [tmp | |]; cbn [bind] in Ex; try discriminate.
        apply emit_src in Ex. rewrite Ex. cbn [set_src st_src].
        rewrite length_skipn. pose proof (length_tl_le (st_src st)). lia.
      * intros Hf. rewrite (expando_flags _ _ _ Ex). cbn [enter_directive st_flags].
        apply (parse_directive_flags _ _ _ _ bits_apart Hf Ep).
  - destruct (Ascii.eqb (hd0 (st_src st)) "\").
    + destruct (is_nul (hd0 (tl (st_src st)))); [discriminate |].
      apply Hemit in H as (Hs & Hfl). rewrite Hs, Hfl. split; [| auto].
      pose proof (length_tl_le (st_src st)). pose proof (length_tl_le (tl (st_src st))). lia.
    + destruct (mutt_mb_charlen E (st_src st)) as [b0 w0].
      destruct (if b0 <? 0 then (1, 1) else (b0, w0)) as [bytes width].
      destruct (_ && _).
      * apply Hemit in H as (Hs & Hfl). rewrite Hs, Hfl. split; [| auto].
        unfold advance. rewrite length_skipn. lia.
      * injection H as <-. cbn [set_cursor set_src st_src st_flags]. split; [| auto].
        unfold advance. rewrite length_skipn. lia.
Qed.

(** The main loop returns when the calls of the function to itself on
    shorter templates do. *)
Lemma scan_returns (L : nat) :
  (forall tmp bl c cs s f,
     (length s < L)%nat -> filtering_off E f -> render tmp bl c cs s f <> Timeout) ->
  forall (n : nat) (st : scan_state),
  filtering_off E (st_flags st) -> (length (st_src st) <= L)%nat ->
  (length (st_src st) < n)%nat ->
  scan E render n buflen cols st <> Timeout.
Proof.
  intros Hr. induction n as [| n IH]; intros st Hf HL Hn; [lia |].
  cbn [scan].
  destruct (negb (is_nul (hd0 (st_src st))) && (st_wlen st <? buflen)) eqn:G;
    [| apply poke_no_timeout].
  assert (Hne : st_src st <> []).
  { intros Hnil. rewrite Hnil in G. discriminate. }
  destruct (step E render buflen cols st) as [[st' | st'] | |] eqn:Es; cbn [bind].
  - destruct (step_keeps st st' Es) as (Hle & Hfl).
    destruct (step_progress E render buflen cols st st' Hne Es) as [Hl | Hw].
    + apply IH; [auto | lia | lia].
    + destruct n; cbn [scan]; rewrite Hw, andb_false_r; apply poke_no_timeout.
  - apply poke_no_timeout.
  - discriminate.
  - exfalso. revert Es. apply step_no_timeout; [exact Hf |].
    intros tmp bl c cs s f Hs Hff. apply Hr; [lia | exact Hff].
Qed.

End Returns.

(** The calls of the function to itself are at most as deep as the
    template is long. *)
Lemma format_depth_enough (E : collaborators) :
  Z.land (MUTT_FORMAT_NOFILTER E) (MUTT_FORMAT_OPTIONAL E) = 0 ->
  forall (depth : nat) (src : list ascii) (buf : block) (buflen col cols flags : Z),
  filtering_off E flags -> (length src < depth)%nat ->
  mutt_expando_format E depth buf buflen col cols src flags <> Timeout.
Proof.
  intros Hbits. induction depth as [| depth IH]; intros src buf buflen col cols flags Hf Hd;
    [lia |].
  cbn [mutt_expando_format]. unfold format_body.
  destruct (STRING E <=? len src); [discriminate |].
  unfold filter_requested.
  destruct (Z.eqb_spec (Z.land flags (MUTT_FORMAT_NOFILTER E)) 0) as [Hz | _];
    [contradiction |].
  cbn [bind]. cbv iota.
  apply (scan_returns E (mutt_expando_format E depth) (size_t (buflen - 1)) cols
           (size_t_nonneg _) Hbits (length src)).
  - intros tmp bl c cs s f Hs Hff. apply IH; [exact Hff | lia].
  - exact Hf.
  - cbn [initial_state st_src]. lia.
  - cbn [initial_state st_src]. lia.
Qed.

(** X14.  The call returns when the filter path is switched off.  With
    MUTT_FORMAT_NOFILTER in the flags (a bit apart from
    MUTT_FORMAT_OPTIONAL), in a locale of single bytes and for a template
    without a conditional and with a closed end, the function does not run
    forever once the callback and the width helpers return, as they do in
    the model: its main loop and its spacing loops come to an end, and so do
    its calls to itself, which it makes for the remainder of the template
    after [%>] and [%*] only and which are at most as deep as the template
    is long.  The hypotheses on the template and on mutt_mb_charlen and the
    callback keep every load of the code in front of the terminator of the
    template and every int product in range. *)
Theorem format_returns_without_filter (E : collaborators) :
  Z.land (MUTT_FORMAT_NOFILTER E) (MUTT_FORMAT_OPTIONAL E) = 0 ->
  one_byte_characters E -> callback_stays_inside E ->
  forall (depth : nat) (src : list ascii) (buf : block) (buflen col cols flags : Z),
  complete_template src ->
  0 <= buflen < 2 ^ 64 -> 0 <= col < 2 ^ 64 -> - 2 ^ 31 <= cols < 2 ^ 31 ->
  filtering_off E flags -> (length src < depth)%nat ->
  mutt_expando_format E depth buf buflen col cols src flags <> Timeout.
Proof.
  intros Hbits _ _ depth src buf buflen col cols flags _ _ _ _ Hf Hd.
  apply format_depth_enough; assumption.
Qed.

Lemma format_returns_without_filter_witness :
  mutt_expando_format (example_env (fun _ => None) false []) 9 (repeat "x" 16) 16 0 10
                      (str "ab%> xy|") 128 <> Timeout.
Proof.
  apply (format_returns_without_filter (example_env (fun _ => None) false [])).
  - reflexivity.
  - intros s. destruct s; cbn; (split; [lia | split; [intros Hs; try congruence; lia | lia]]).
  - intros tmp col cols ch src prefix if_str else_str flags. cbn. lia.
  - split; [repeat constructor; discriminate | split; reflexivity].
  - lia.
  - lia.
  - lia.
  - discriminate.
  - vm_compute. lia.
Defined.

Lemma int_range (x : Z) : - 2 ^ 31 <= int x < 2 ^ 31.
Proof.
  unfold int. pose proof (Z.mod_pos_bound (x + 2 ^ 31) (2 ^ 32) ltac:(reflexivity)).
  change (2 ^ 32) with 4294967296 in *. change (2 ^ 31) with 2147483648 in *. lia.
Qed.

Lemma int_le (x : Z) : 0 <= x -> int x <= x.
Proof.
  intros Hx. unfold int.
  pose proof (Z.mod_le (x + 2 ^ 31) (2 ^ 32) ltac:(change (2 ^ 31) with 2147483648; lia)
                       ltac:(reflexivity)). lia.
Qed.

Lemma len_read_bytes (n : Z) (s : list ascii) : 0 <= n -> len (read_bytes n s) = n.
Proof.
  intros Hn. unfold read_bytes, len. rewrite length_firstn, length_app, repeat_length. lia.
Qed.

Lemma len_cstr_le (m : list ascii) : len (cstr m) <= len m.
Proof.
  unfold len. induction m as [| c m IH]; cbn [cstr length]; [lia |].
  destruct (is_nul c); cbn [length]; lia.
Qed.

Lemma len_cstr_nul : forall (m : list ascii) (k : Z),
  0 <= k -> peek m k = zero -> len (cstr m) <= k.
Proof.
  induction m as [| c m IH]; intros k Hk Hp; [cbn; lia |].
  cbn [cstr]. unfold is_nul. destruct (Ascii.eqb_spec c zero) as [-> | Hc].
  - change (len []) with 0. lia.
  - rewrite len_cons. destruct (Z.eq_dec k 0) as [-> | Hk0].
    + unfold peek in Hp. cbn in Hp. contradiction.
    + assert (Hp' : peek m (k - 1) = zero).
      { unfold peek in *. replace (Z.to_nat k) with (S (Z.to_nat (k - 1))) in Hp by lia.
        exact Hp. }
      specialize (IH (k - 1) ltac:(lia) Hp'). lia.
Qed.

Section Capacity.

Variable E : collaborators.
Variable render : block -> Z -> Z -> Z -> list ascii -> Z -> result block.
Variables B cols T : Z.
Variable buf0 : block.

Hypothesis B_range : 0 <= B < 2 ^ 62.
Hypothesis T_range : T < 2 ^ 62.
Hypothesis bits_apart : Z.land (MUTT_FORMAT_NOFILTER E) (MUTT_FORMAT_OPTIONAL E) = 0.
Hypothesis charlen_int : forall s, fst (mutt_mb_charlen E s) < 2 ^ 31.
Hypothesis trunc_bound : forall s maxlen maxwid, 0 <= maxlen -> 0 <= maxwid ->
  0 <= fst (mutt_wstr_trunc E s maxlen maxwid) <= maxlen.
Hypothesis render_len : forall tmp c cs s f m,
  filtering_off E f -> render tmp (LONG_STRING E) c cs s f = Ok m -> len m = len tmp.

Lemma emit_in_capacity (st st' : scan_state) (s : list ascii) (w : Z) :
  in_capacity B buf0 T st -> st_wlen st + len s <= B ->
  emit st s w = Ok st' ->
  in_capacity B buf0 T st' /\ st_wlen st' = st_wlen st + len s.
Proof.
  assert (P62 : 2 ^ 62 = 4611686018427387904) by reflexivity.
  assert (P64 : 2 ^ 64 = 18446744073709551616) by reflexivity.
  intros (Hp & HpB & Hl & Hs & Ht) Hfit He. unfold emit in He.
  destruct (memcpy (st_buf st) (st_wptr st) s) as [m | |] eqn:Em; cbn [bind] in He;
    try discriminate.
  injection He as <-. pose proof (len_nonneg s) as Hs0.
  cbn [set_buf set_cursor st_wptr st_wlen st_buf st_tmp].
  rewrite size_t_small by lia.
  split; [| reflexivity]. unfold in_capacity.
  cbn [set_buf set_cursor st_wptr st_wlen st_buf st_tmp].
  split; [lia |]. split; [lia |]. split; [rewrite (memcpy_len _ _ _ _ Em); exact Hl |].
  split; [| exact Ht].
  rewrite (memcpy_skipn _ _ _ _ _ Em); [exact Hs |]. unfold len in *. lia.
Qed.

Lemma fill_in_capacity : forall (n : nat) (s : list ascii) (pw : Z) (st st' : scan_state),
  in_capacity B buf0 T st -> st_wlen st + Z.of_nat n * len s <= B ->
  fill n s pw st = Ok st' ->
  in_capacity B buf0 T st' /\ st_wlen st' = st_wlen st + Z.of_nat n * len s.
Proof.
  induction n as [| n IH]; intros s pw st st' Hin Hfit Hf; cbn [fill] in Hf.
  - injection Hf as <-. split; [exact Hin | lia].
  - pose proof (len_nonneg s) as Hs0.
    destruct (emit st s pw) as [st1 | |] eqn:Ee; cbn [bind] in Hf; try discriminate.
    destruct (emit_in_capacity st st1 s pw Hin ltac:(nia) Ee) as (Hin1 & Hw1).
    destruct (IH s pw st1 st' Hin1 ltac:(nia) Hf) as (Hin' & Hw').
    split; [exact Hin' | nia].
Qed.

Lemma pre_space_in_capacity (c : Z) (guard : scan_state -> bool) :
  0 <= c < 2 ^ 63 ->
  (forall st, guard st = true -> size_t (st_wlen st + c) < B) ->
  forall (n : nat) (st st' : scan_state),
  in_capacity B buf0 T st -> st_wlen st <= B ->
  pre_space n guard st = Ok st' ->
  in_capacity B buf0 T st' /\ st_wlen st <= st_wlen st' <= B /\
  (st_wlen st + c <= B -> st_wlen st' + c <= B).
Proof.
  assert (P62 : 2 ^ 62 = 4611686018427387904) by reflexivity.
  assert (P63 : 2 ^ 63 = 9223372036854775808) by reflexivity.
  assert (P64 : 2 ^ 64 = 18446744073709551616) by reflexivity.
  intros Hc Hg. induction n as [| n IH]; intros st st' Hin HwB Hp; cbn [pre_space] in Hp.
  - destruct (guard st); [discriminate |]. injection Hp as <-.
    split; [exact Hin |]. split; [lia | auto].
  - destruct (guard st) eqn:G.
    + specialize (Hg st G). destruct Hin as (Hp0 & Hrest).
      rewrite size_t_small in Hg by lia.
      destruct (emit st [" "] 1) as [st1 | |] eqn:Ee; cbn [bind] in Hp; try discriminate.
      destruct (emit_in_capacity st st1 [" "] 1 (conj Hp0 Hrest)
                  ltac:(change (len [" "]) with 1; lia) Ee) as (Hin1 & Hw1).
      change (len [" "]) with 1 in Hw1.
      destruct (IH st1 st' Hin1 ltac:(lia) Hp) as (Hin' & Hw' & Hc').
      split; [exact Hin' |]. split; [lia |]. intros _. apply Hc'. lia.
    + injection Hp as <-. split; [exact Hin |]. split; [lia | auto].
Qed.

Lemma fill_charlen_range (s : list ascii) (pl pw : Z) :
  fill_charlen E s = (pl, pw) -> 1 <= pl < 2 ^ 31.
Proof.
  unfold fill_charlen. pose proof (charlen_int s) as Hc.
  destruct (mutt_mb_charlen E s) as [pl0 pw0]. cbn [fst] in Hc.
  destruct (Z.leb_spec pl0 0); intros Hq; injection Hq as <- <-;
    change (2 ^ 31) with 2147483648 in *; lia.
Qed.

Lemma quot_fits (x pl : Z) : 0 < pl -> x < 0 \/ Z.of_nat (Z.to_nat (Z.quot x pl)) * pl <= x.
Proof.
  intros Hpl. destruct (Z.lt_ge_cases x 0) as [Hx | Hx]; [left; exact Hx | right].
  pose proof (Z.mul_quot_le x pl Hx ltac:(lia)) as Hq.
  pose proof (Z.quot_pos x pl Hx Hpl). rewrite Z2Nat.id by lia. lia.
Qed.

Lemma quot_neg (x pl : Z) : 0 < pl -> x < 0 -> Z.to_nat (Z.quot x pl) = 0%nat.
Proof.
  intros Hpl Hx. pose proof (Z.quot_opp_l x pl ltac:(lia)) as Ho.
  pose proof (Z.quot_pos (- x) pl ltac:(lia) Hpl). lia.
Qed.

Lemma set_src_in_capacity (st : scan_state) (s : list ascii) :
  in_capacity B buf0 T st -> in_capacity B buf0 T (set_src st s).
Proof. intros Hin. exact Hin. Qed.

Lemma pad_eol_in_capacity (st st' : scan_state) :
  in_capacity B buf0 T st -> st_wlen st <= B ->
  pad_eol E B cols st = Ok st' ->
  in_capacity B buf0 T st' /\ st_wlen st' <= B.
Proof.
  assert (P62 : 2 ^ 62 = 4611686018427387904) by reflexivity.
  assert (P64 : 2 ^ 64 = 18446744073709551616) by reflexivity.
  assert (P31 : 2 ^ 31 = 2147483648) by reflexivity.
  intros Hin HwB Hp. unfold pad_eol in Hp.
  destruct (fill_charlen E (st_src st)) as [pl pw] eqn:Ef.
  pose proof (fill_charlen_range _ _ _ Ef) as Hpl.
  destruct (_ && _) in Hp; [| injection Hp as <-; split; assumption].
  destruct (size_t pw =? 0); [discriminate |].
  set (c0 := int (size_t (size_t cols - st_col st) / size_t pw)) in Hp.
  pose proof (int_range (size_t (size_t cols - st_col st) / size_t pw)) as Hc0. fold c0 in Hc0.
  set (c := if (c0 >? 0) && (size_t (st_wlen st + c0 * pl) >? B)
            then Z.quot (int (size_t (B - st_wlen st))) pl else c0) in Hp.
  destruct Hin as (Hp0 & Hrest).
  assert (Hfit : st_wlen st + Z.of_nat (Z.to_nat c) * len (read_bytes pl (st_src st)) <= B).
  { rewrite len_read_bytes by lia. unfold c.
    destruct (Z.gtb_spec c0 0) as [Hpos | Hneg]; cbn [andb].
    - destruct (Z.gtb_spec (size_t (st_wlen st + c0 * pl)) B) as [Hbig | Hsmall].
      + rewrite (size_t_small (B - st_wlen st)) by lia.
        pose proof (int_le (B - st_wlen st) ltac:(lia)) as Hle.
        destruct (quot_fits (int (B - st_wlen st)) pl ltac:(lia)) as [Hn | Hq].
        * rewrite (quot_neg (int (B - st_wlen st)) pl ltac:(lia) Hn). lia.
        * lia.
      + rewrite size_t_small in Hsmall by nia. rewrite Z2Nat.id by lia. exact Hsmall.
    - replace (Z.to_nat c0) with 0%nat by lia. lia. }
  destruct (fill _ _ _ _) as [st1 | |] eqn:E1; cbn [bind] in Hp; try discriminate.
  injection Hp as <-.
  destruct (fill_in_capacity _ _ _ _ _ (conj Hp0 Hrest) Hfit E1) as (Hin1 & Hw1).
  split; [apply set_src_in_capacity; exact Hin1 |].
  cbn [set_src st_wlen]. lia.
Qed.

Lemma expando_in_capacity (ch : ascii) (st st' : scan_state) :
  in_capacity B buf0 T st -> st_wlen st <= B ->
  expando E B cols ch st = Ok st' ->
  in_capacity B buf0 T st' /\ st_wlen st' <= B.
Proof.
  assert (P62 : 2 ^ 62 = 4611686018427387904) by reflexivity.
  assert (P64 : 2 ^ 64 = 18446744073709551616) by reflexivity.
  intros Hin HwB Hx. unfold expando in Hx.
  destruct (modifiers ch (st_src st) false false) as [[[ch' s1] lo] nd].
  destruct (callback E _ _ _ _ _ _ _ _ _) as [text skip].
  destruct (memcpy _ 0 _) as [tmp | |] eqn:Em; cbn [bind] in Hx; try discriminate.
  destruct Hin as (Hp0 & HpB & Hl & Hs & Ht).
  pose proof (memcpy_len _ _ _ _ Em) as Htl. rewrite Ht in Htl.
  pose proof (len_cstr_le tmp) as Hc. pose proof (len_nonneg (cstr tmp)) as Hc0.
  cbn [set_src set_tmp st_wlen st_col] in Hx.
  match type of Hx with
  | emit ?s0 (read_bytes ?l1 _) _ = _ =>
      assert (Hl1 : 0 <= l1 /\ st_wlen st + l1 <= B); [| set (len1 := l1) in *]
  end.
  { destruct (Z.gtb_spec (size_t (len (cstr tmp) + st_wlen st)) B) as [Hbig | Hsmall].
    - pose proof (trunc_bound (cstr tmp) (size_t (B - st_wlen st))
                    (size_t (size_t cols - st_col st))
                    (proj1 (size_t_nonneg _)) (proj1 (size_t_nonneg _))) as Htr.
      rewrite (size_t_small (B - st_wlen st)) in Htr by lia.
      rewrite (size_t_small (B - st_wlen st)) by lia. lia.
    - rewrite size_t_small in Hsmall by lia. lia. }
  match type of Hx with
  | emit ?s0 _ _ = _ => assert (Hin1 : in_capacity B buf0 T s0)
  end.
  { unfold in_capacity. cbn [set_src set_tmp st_wptr st_wlen st_buf st_tmp].
    repeat split; try assumption; lia. }
  destruct Hl1 as (Hl10 & Hl1).
  pose proof (len_read_bytes len1 (cstr tmp) Hl10) as Hrb.
  match type of Hx with
  | emit ?s0 ?bytes ?w = _ =>
      destruct (emit_in_capacity s0 st' bytes w Hin1) as (Hin' & Hw');
        [rewrite Hrb; cbn [set_src set_tmp st_wlen]; lia | exact Hx |]
  end.
  split; [exact Hin' |]. rewrite Hw', Hrb. cbn [set_src set_tmp st_wlen]. lia.
Qed.

Lemma set_tmp_in_capacity (st : scan_state) (tmp : block) :
  in_capacity B buf0 T st -> len tmp = T -> in_capacity B buf0 T (set_tmp st tmp).
Proof.
  intros (Hp0 & HpB & Hl & Hs & Ht) Htl. unfold in_capacity.
  cbn [set_tmp st_wptr st_wlen st_buf st_tmp]. repeat split; try assumption; lia.
Qed.

Lemma justify_in_capacity (ch : ascii) (st st' : scan_state) :
  in_capacity B buf0 T st -> st_wlen st <= B ->
  filtering_off E (st_flags st) ->
  justify E render B cols ch st = Ok st' ->
  in_capacity B buf0 T st' /\ st_wlen st' <= B.
Proof.
  assert (P62 : 2 ^ 62 = 4611686018427387904) by reflexivity.
  assert (P63 : 2 ^ 63 = 9223372036854775808) by reflexivity.
  assert (P64 : 2 ^ 64 = 18446744073709551616) by reflexivity.
  assert (P31 : 2 ^ 31 = 2147483648) by reflexivity.
  intros Hin HwB Hf Hj. unfold justify in Hj.
  destruct (fill_charlen E (st_src st)) as [pl pw] eqn:Ef.
  pose proof (fill_charlen_range _ _ _ Ef) as Hpl.
  destruct (_ || _) in Hj; [| injection Hj as <-; split; assumption].
  destruct (render _ _ _ _ _ _) as [tmp | |] eqn:Er; cbn [bind] in Hj; try discriminate.
  pose proof (render_len _ _ _ _ _ _ Hf Er) as Htl.
  assert (HT : len (st_tmp st) = T) by apply Hin. rewrite HT in Htl.
  pose proof (set_tmp_in_capacity st tmp Hin Htl) as Hin1.
  assert (Hw1 : st_wlen (set_tmp st tmp) = st_wlen st) by reflexivity.
  set (st1 := set_tmp st tmp) in *. clearbody st1.
  pose proof (proj1 Hin1) as Hp1.
  pose proof (len_cstr_le tmp) as Hc. pose proof (len_nonneg (cstr tmp)) as Hc0.
  set (len0 := len (cstr tmp)) in *.
  destruct (size_t pw =? 0); [discriminate |].
  set (wid := size_t (mutt_strwidth E (cstr tmp))) in Hj.
  set (pad := compute_pad cols (st_col st1) wid pw) in Hj.
  assert (Hpad : - 2 ^ 31 <= pad < 2 ^ 31) by apply int_range.
  clearbody pad wid.
  match type of Hj with
  | bind ?r _ = _ =>
      assert (Hr : forall st2 len1 wid1, r = Ok (st2, len1, wid1) ->
                   in_capacity B buf0 T st2 /\ st_wlen st2 <= B /\ 0 <= len1 < 2 ^ 62);
        [| destruct r as [[[st2 len1] wid1] | |]; cbn [bind] in Hj; try discriminate]
  end.
  { intros st2 len1 wid1 Hr.
    destruct (Z.geb_spec pad 0) as [Hpos | Hneg].
    - destruct (Z.gtb_spec (size_t (st_wlen st1 + pad * pl + len0)) B) as [Hbig | Hsmall].
      + destruct (fill _ _ _ _) as [st3 | |] eqn:E3; cbn [bind] in Hr; try discriminate.
        injection Hr as <- <- _.
        apply fill_in_capacity in E3; [| exact Hin1 |].
        * destruct E3 as (Hin3 & Hw3). split; [exact Hin3 |]. split; [| lia].
          rewrite Hw3. rewrite len_read_bytes by lia.
          destruct (Z.gtb_spec B (size_t (st_wlen st1 + len0))) as [Hroom | Hnone];
            [| cbn; lia].
          rewrite size_t_small in Hroom by lia.
          rewrite (size_t_small (B - st_wlen st1 - len0)) by lia.
          rewrite (size_t_small pl) by lia.
          pose proof (Z.div_pos (B - st_wlen st1 - len0) pl ltac:(lia) ltac:(lia)) as Hq0.
          pose proof (int_le _ Hq0) as Hle.
          pose proof (Z.mul_div_le (B - st_wlen st1 - len0) pl ltac:(lia)) as Hm.
          nia.
        * rewrite len_read_bytes by lia.
          destruct (Z.gtb_spec B (size_t (st_wlen st1 + len0))) as [Hroom | Hnone];
            [| cbn; lia].
          rewrite size_t_small in Hroom by lia.
          rewrite (size_t_small (B - st_wlen st1 - len0)) by lia.
          rewrite (size_t_small pl) by lia.
          pose proof (Z.div_pos (B - st_wlen st1 - len0) pl ltac:(lia) ltac:(lia)) as Hq0.
          pose proof (int_le _ Hq0) as Hle.
          pose proof (Z.mul_div_le (B - st_wlen st1 - len0) pl ltac:(lia)) as Hm.
          nia.
      + rewrite size_t_small in Hsmall by nia.
        destruct (pre_space _ _ _) as [st3 | |] eqn:E3; cbn [bind] in Hr; try discriminate.
        destruct (fill _ _ _ _) as [st4 | |] eqn:E4; cbn [bind] in Hr; try discriminate.
        injection Hr as <- <- _.
        apply (pre_space_in_capacity (pad * pl + len0)) in E3;
          [| nia | | exact Hin1 | lia].
        * destruct E3 as (Hin3 & Hw3 & Hc3). specialize (Hc3 ltac:(lia)).
          apply fill_in_capacity in E4; [| exact Hin3 | rewrite len_read_bytes by lia; nia].
          destruct E4 as (Hin4 & Hw4). rewrite len_read_bytes in Hw4 by lia.
          split; [exact Hin4 |]. split; [nia | lia].
        * intros st0 G. apply andb_true_iff in G as (_ & G).
          apply Z.ltb_lt in G. rewrite Z.add_assoc. exact G.
    - destruct (Ascii.eqb ch "*" && (pad <? 0)).
      + destruct (poke _ _ _) as [m | |] eqn:Ep; cbn [bind] in Hr; try discriminate.
        set (avail := if cols >? arrow_cursor E (st_flags st1)
                      then cols - arrow_cursor E (st_flags st1) else 0) in Hr.
        pose proof (trunc_bound (cstr tmp) B (size_t avail) ltac:(lia)
                      (proj1 (size_t_nonneg _))) as Ht1.
        destruct (mutt_wstr_trunc E (cstr tmp) B _) as [l1 w1]. cbn [fst] in Ht1.
        pose proof (trunc_bound (cstr (st_buf (set_buf st1 m))) (size_t (B - l1))
                      (size_t (avail - w1)) (proj1 (size_t_nonneg _))
                      (proj1 (size_t_nonneg _))) as Ht2.
        rewrite (size_t_small (B - l1)) in Ht2 by lia.
        rewrite (size_t_small (B - l1)) in Hr by lia.
        destruct (mutt_wstr_trunc E _ (B - l1) _) as [wl cl]. cbn [fst] in Ht2.
        destruct (pre_space _ _ _) as [st3 | |] eqn:E3; cbn [bind] in Hr; try discriminate.
        injection Hr as <- <- _.
        apply (pre_space_in_capacity l1) in E3.
        * destruct E3 as (Hin3 & Hw3 & _). split; [exact Hin3 |]. split; lia.
        * lia.
        * intros st0 G. apply andb_true_iff in G as (_ & G). apply Z.ltb_lt in G. exact G.
        * destruct Hin1 as (Hp0 & HpB & Hl & Hs & Ht). unfold in_capacity.
          cbn [set_cursor set_buf st_wptr st_wlen st_buf st_tmp].
          split; [lia |]. split; [lia |].
          split; [rewrite (memcpy_len _ _ _ _ Ep); exact Hl |]. split; [| exact Ht].
          rewrite (memcpy_skipn _ _ _ _ _ Ep); [exact Hs |]. cbn [length]. lia.
        * cbn [set_cursor st_wlen]. lia.
      + injection Hr as <- <- _. split; [exact Hin1 |]. split; lia. }
  destruct (Hr st2 len1 wid1 eq_refl) as (Hin2 & Hw2 & Hl1).
  match type of Hj with
  | bind (emit _ (read_bytes ?l2 _) _) _ = _ =>
      assert (Hl2 : 0 <= l2 /\ st_wlen st2 + l2 <= B); [| set (len2 := l2) in * ]
  end.
  { pose proof (proj1 Hin2) as Hp2.
    destruct (Z.gtb_spec (size_t (len1 + st_wlen st2)) B) as [Hbig | Hsmall].
    - pose proof (trunc_bound (cstr tmp) (size_t (B - st_wlen st2))
                    (size_t (size_t cols - st_col st2))
                    (proj1 (size_t_nonneg _)) (proj1 (size_t_nonneg _))) as Htr.
      rewrite (size_t_small (B - st_wlen st2)) in Htr by lia.
      rewrite (size_t_small (B - st_wlen st2)) by lia. lia.
    - rewrite size_t_small in Hsmall by lia. lia. }
  destruct Hl2 as (Hl20 & Hl2).
  destruct (emit _ _ _) as [st3 | |] eqn:Ee; cbn [bind] in Hj; try discriminate.
  injection Hj as <-.
  apply emit_in_capacity in Ee; [| exact Hin2 | rewrite len_read_bytes by lia; lia].
  destruct Ee as (Hin3 & Hw3). rewrite len_read_bytes in Hw3 by lia.
  split; [apply set_src_in_capacity; exact Hin3 |]. cbn [set_src st_wlen]. lia.
Qed.

Lemma step_in_capacity (st : scan_state) (c : control) :
  in_capacity B buf0 T st -> st_wlen st < B ->
  filtering_off E (st_flags st) ->
  step E render B cols st = Ok c ->
  match c with
  | Continue st' => in_capacity B buf0 T st' /\ st_wlen st' <= B
  | Break st' => in_capacity B buf0 T st' /\ st_wlen st' <= B
  end.
Proof.
  assert (P62 : 2 ^ 62 = 4611686018427387904) by reflexivity.
  assert (P64 : 2 ^ 64 = 18446744073709551616) by reflexivity.
  assert (P31 : 2 ^ 31 = 2147483648) by reflexivity.
  intros Hin HwB Hf Hs. unfold step in Hs.
  assert (Hone : forall x r0 c0,
    (st1 <- emit st [x] 1 ;; Ok (Continue (set_src st1 r0))) = Ok c0 ->
    match c0 with
    | Continue st' => in_capacity B buf0 T st' /\ st_wlen st' <= B
    | Break st' => in_capacity B buf0 T st' /\ st_wlen st' <= B
    end).
  { intros x r0 c0 He.
    destruct (emit st [x] 1) as [st1 | |] eqn:Ee; cbn [bind] in He; try discriminate.
    injection He as <-.
    apply emit_in_capacity in Ee; [| exact Hin | change (len [x]) with 1; lia].
    destruct Ee as (Hin1 & Hw1). change (len [x]) with 1 in Hw1.
    split; [apply set_src_in_capacity; exact Hin1 | cbn [set_src st_wlen]; lia]. }
  destruct (Ascii.eqb (hd0 (st_src st)) "%").
  - destruct (Ascii.eqb (hd0 (tl (st_src st))) "%"); [exact (Hone _ _ _ Hs) |].
    destruct (parse_directive E _ st) as [[d |] | |] eqn:Ep; cbn [bind] in Hs;
      try discriminate; [| injection Hs as <-; split; [exact Hin | lia]].
    pose proof (parse_directive_flags _ _ _ _ bits_apart Hf Ep) as Hfd.
    assert (Hin1 : in_capacity B buf0 T (enter_directive st d)) by exact Hin.
    assert (Hw1 : st_wlen (enter_directive st d) <= B) by (cbn [enter_directive st_wlen]; lia).
    destruct (_ || _).
    { destruct (justify _ _ _ _ _ _) as [st1 | |] eqn:Ej; cbn [bind] in Hs; try discriminate.
      injection Hs as <-. exact (justify_in_capacity _ _ _ Hin1 Hw1 Hfd Ej). }
    destruct (Ascii.eqb (d_ch d) "|").
    { destruct (pad_eol _ _ _ _) as [st1 | |] eqn:Ej; cbn [bind] in Hs; try discriminate.
      injection Hs as <-. exact (pad_eol_in_capacity _ _ Hin1 Hw1 Ej). }
    destruct (expando _ _ _ _ _) as [st1 | |] eqn:Ej; cbn [bind] in Hs; try discriminate.
    injection Hs as <-. exact (expando_in_capacity _ _ _ Hin1 Hw1 Ej).
  - destruct (Ascii.eqb (hd0 (st_src st)) "\").
    + destruct (is_nul (hd0 (tl (st_src st)))); [| exact (Hone _ _ _ Hs)].
      injection Hs as <-. split; [exact Hin | lia].
    + pose proof (charlen_int (st_src st)) as Hci.
      destruct (mutt_mb_charlen E (st_src st)) as [b0 w0]. cbn [fst] in Hci.
      assert (Hb : forall bytes width,
                (if b0 <? 0 then (1, 1) else (b0, w0)) = (bytes, width) -> bytes < 2 ^ 31).
      { intros bytes width Hq. destruct (b0 <? 0); injection Hq as <- _; lia. }
      destruct (if b0 <? 0 then (1, 1) else (b0, w0)) as [bytes width].
      specialize (Hb bytes width eq_refl).
      destruct Hin as (Hp0 & HpB & Hl & Hsk & Ht).
      destruct (Z.gtb_spec bytes 0) as [Hpos | Hnone]; cbn [andb] in Hs.
      * destruct (Z.ltb_spec (size_t (st_wlen st + bytes)) B) as [Hroom | Hfull].
        -- rewrite size_t_small in Hroom by lia.
           destruct (emit _ _ _) as [st1 | |] eqn:Ee; cbn [bind] in Hs; try discriminate.
           injection Hs as <-.
           apply emit_in_capacity in Ee;
             [| repeat split; assumption || lia | rewrite len_read_bytes by lia; lia].
           destruct Ee as (Hin1 & Hw1). rewrite len_read_bytes in Hw1 by lia.
           split; [apply set_src_in_capacity; exact Hin1 | cbn [set_src st_wlen]; lia].
        -- injection Hs as <-. unfold in_capacity.
           cbn [set_cursor set_src st_wptr st_wlen st_buf st_tmp].
           repeat split; assumption || lia.
      * injection Hs as <-. unfold in_capacity.
        cbn [set_cursor set_src st_wptr st_wlen st_buf st_tmp].
        repeat split; assumption || lia.
Qed.

Lemma finish_in_capacity (st : scan_state) (m : block) :
  in_capacity B buf0 T st ->
  poke (st_buf st) (st_wptr st) zero = Ok m ->
  len m = len buf0 /\ skipn (Z.to_nat (B + 1)) m = skipn (Z.to_nat (B + 1)) buf0 /\
  len (cstr m) <= B.
Proof.
  intros (Hp0 & HpB & Hl & Hs & Ht) Hp.
  split; [unfold poke in Hp; rewrite (memcpy_len _ _ _ _ Hp); exact Hl |].
  split.
  - unfold poke in Hp. rewrite (memcpy_skipn _ _ _ _ _ Hp); [exact Hs |]. cbn [length]. lia.
  - pose proof (len_cstr_nul m (st_wptr st) ltac:(lia) (poke_peek _ _ _ _ Hp)). lia.
Qed.

Lemma scan_in_capacity : forall (n : nat) (st : scan_state) (m : block),
  in_capacity B buf0 T st -> filtering_off E (st_flags st) ->
  scan E render n B cols st = Ok m ->
  len m = len buf0 /\ skipn (Z.to_nat (B + 1)) m = skipn (Z.to_nat (B + 1)) buf0 /\
  len (cstr m) <= B.
Proof.
  induction n as [| n IH]; intros st m Hin Hf Hs; cbn [scan] in Hs.
  - destruct (_ && _); [discriminate | exact (finish_in_capacity st m Hin Hs)].
  - destruct (negb (is_nul (hd0 (st_src st))) && (st_wlen st <? B)) eqn:G;
      [| exact (finish_in_capacity st m Hin Hs)].
    apply andb_true_iff in G as (_ & G). apply Z.ltb_lt in G.
    destruct (step E render B cols st) as [c | |] eqn:Es; cbn [bind] in Hs; try discriminate.
    pose proof (step_in_capacity st c Hin G Hf Es) as Hc.
    destruct c as [st' | st'].
    + destruct Hc as (Hin' & _).
      apply (IH st' m Hin'); [| exact Hs].
      apply (step_keeps E render B cols bits_apart st st' Es). exact Hf.
    + destruct Hc as (Hin' & _). exact (finish_in_capacity st' m Hin' Hs).
Qed.

End Capacity.

(** What a call that returns leaves at [buf], for any template. *)
Lemma format_in_capacity (E : collaborators) :
  Z.land (MUTT_FORMAT_NOFILTER E) (MUTT_FORMAT_OPTIONAL E) = 0 ->
  (forall s, fst (mutt_mb_charlen E s) < 2 ^ 31) ->
  (forall s maxlen maxwid, 0 <= maxlen -> 0 <= maxwid ->
     0 <= fst (mutt_wstr_trunc E s maxlen maxwid) <= maxlen) ->
  1 <= LONG_STRING E <= 2 ^ 62 -> len (stack_tmp E) < 2 ^ 62 ->
  forall (depth : nat) (src : list ascii) (buf : block) (buflen col cols flags : Z)
         (m : block),
  filtering_off E flags -> 1 <= buflen <= 2 ^ 62 ->
  mutt_expando_format E depth buf buflen col cols src flags = Ok m ->
  len m = len buf /\
  skipn (Z.to_nat buflen) m = skipn (Z.to_nat buflen) buf /\
  len (cstr m) < buflen.
Proof.
  intros Hbits Hci Htr HL HT.
  assert (P62 : 2 ^ 62 = 4611686018427387904) by reflexivity.
  assert (P64 : 2 ^ 64 = 18446744073709551616) by reflexivity.
  induction depth as [| depth IH]; intros src buf buflen col cols flags m Hf Hb Hm;
    [discriminate |].
  cbn [mutt_expando_format] in Hm. unfold format_body in Hm.
  destruct (STRING E <=? len src); [discriminate |].
  unfold filter_requested in Hm.
  destruct (Z.eqb_spec (Z.land flags (MUTT_FORMAT_NOFILTER E)) 0) as [Hz | _];
    [contradiction |].
  cbn [bind] in Hm. cbv iota in Hm.
  rewrite (size_t_small (buflen - 1)) in Hm by lia.
  apply (scan_in_capacity E (mutt_expando_format E depth) (buflen - 1) cols
           (len (stack_tmp E)) buf) in Hm.
  - replace (buflen - 1 + 1) with buflen in Hm by lia.
    destruct Hm as (H1 & H2 & H3). split; [exact H1 |]. split; [exact H2 | lia].
  - lia.
  - exact HT.
  - exact Hbits.
  - exact Hci.
  - exact Htr.
  - intros tmp c cs s f m' Hff Hr.
    apply (IH s tmp (LONG_STRING E) c cs f m' Hff HL Hr).
  - unfold in_capacity. cbn [initial_state st_wptr st_wlen st_buf st_tmp].
    pose proof (arrow_cursor_nonneg E flags). repeat split; lia.
  - exact Hf.
Qed.

(** X15.  Outside the filter path the capacity is respected.  With
    MUTT_FORMAT_NOFILTER in the flags, in a locale of single bytes, with
    mutt_wstr_trunc giving a length that is at most the limit it is given,
    and for a template without a conditional and with a closed end, a call
    that returns has left the memory at [buf] with no byte changed at or
    behind [buf + buflen], and with a string shorter than [buflen] in it,
    whatever the directives of the template, the texts of the callback and
    the size of the object at [buf] are.  The hypotheses on the template
    and on mutt_mb_charlen and the callback keep every load of the code in
    front of the terminator of the template and every int product in
    range. *)
Theorem format_within_capacity (E : collaborators) :
  Z.land (MUTT_FORMAT_NOFILTER E) (MUTT_FORMAT_OPTIONAL E) = 0 ->
  one_byte_characters E -> callback_stays_inside E -> trunc_within E ->
  1 <= LONG_STRING E < 2 ^ 62 -> len (stack_tmp E) = LONG_STRING E ->
  forall (depth : nat) (src : list ascii) (buf : block) (buflen col cols flags : Z)
         (m : block),
  complete_template src ->
  1 <= buflen <= 2 ^ 62 -> 0 <= col < 2 ^ 64 -> - 2 ^ 31 <= cols < 2 ^ 31 ->
  filtering_off E flags ->
  mutt_expando_format E depth buf buflen col cols src flags = Ok m ->
  len m = len buf /\
  skipn (Z.to_nat buflen) m = skipn (Z.to_nat buflen) buf /\
  len (cstr m) < buflen.
Proof.
  intros Hbits Hone _ Htr HL HT depth src buf buflen col cols flags m _ Hb _ _ Hf Hm.
  assert (P31 : 2 ^ 31 = 2147483648) by reflexivity.
  apply (format_in_capacity E Hbits) with (depth := depth) (src := src) (col := col)
    (cols := cols) (flags := flags); try assumption.
  - intros s. destruct (Hone s) as (H1 & _). lia.
  - intros s maxlen maxwid H1 H2. pose proof (Htr s maxlen maxwid H1 H2). lia.
  - lia.
  - lia.
Qed.

Lemma format_within_capacity_witness :
  exists m,
    mutt_expando_format (example_env (fun _ => None) false []) 9 (repeat "x" 16) 8 0 10
                        (str "ab%> xy|") 128 = Ok m /\
    skipn 8 m = repeat "x" 8 /\ len (cstr m) < 8.
Proof.
  assert (Hex : exists m,
    mutt_expando_format (example_env (fun _ => None) false []) 9 (repeat "x" 16) 8 0 10
                        (str "ab%> xy|") 128 = Ok m) by (eexists; vm_compute; reflexivity).
  destruct Hex as (m & Hm). exists m. split; [exact Hm |].
  destruct (format_within_capacity (example_env (fun _ => None) false [])) with
    (depth := 9%nat) (src := str "ab%> xy|") (buf := repeat "x" 16) (buflen := 8)
    (col := 0) (cols := 10) (flags := 128) (m := m) as (H1 & H2 & H3).
  - reflexivity.
  - intros s. destruct s; cbn; (split; [lia | split; [intros Hs; try congruence; lia | lia]]).
  - intros tmp col cols ch src prefix if_str else_str flags. cbn. lia.
  - intros s maxlen maxwid H1 H2. cbn [example_env mutt_wstr_trunc sb_wstr_trunc fst].
    pose proof (len_nonneg s). lia.
  - cbn. lia.
  - reflexivity.
  - split; [repeat constructor; discriminate | split; reflexivity].
  - lia.
  - lia.
  - lia.
  - discriminate.
  - exact Hm.
  - split; [exact H2 | exact H3].
Defined.

(** ** More about muttlib.c *)

Lemma base32_digit (b : ascii) : In (nth (nat_of_ascii b mod 32) base32 zero) base32.
Proof.
  apply nth_In. change (length base32) with 32%nat.
  apply Nat.mod_upper_bound. discriminate.
Qed.

(** X16.  mutt_rand_base32 yields, for at most 1048576 bytes asked for, as many
    characters as bytes were asked for, every one of them a letter a-z or a
    digit 2-7, whatever the random bytes are: the character at a position is
    the one the table holds for the low five bits of the random byte
    there. *)
Theorem rand_base32_alphabet (random : list ascii) :
  len random <= 1048576 ->
  exists out,
    mutt_rand_base32 random = Some out /\
    length out = length random /\
    Forall (fun c => In c base32) out /\
    forall k, (k < length random)%nat ->
              nth k out zero = nth (nat_of_ascii (nth k random zero) mod 32) base32 zero.
Proof.
  intros Hl. unfold mutt_rand_base32, mutt_randbuf.
  destruct (Z.gtb_spec (len random) 1048576); [lia |].
  eexists. split; [reflexivity |]. split; [apply length_map |]. split.
  - apply Forall_map. apply Forall_forall. intros b _. apply base32_digit.
  - intros k Hk.
    rewrite (nth_indep _ zero (nth (nat_of_ascii zero mod 32) base32 zero))
      by (rewrite length_map; exact Hk).
    apply (map_nth (fun b => nth (nat_of_ascii b mod 32) base32 zero)).
Qed.

Lemma rand_base32_alphabet_witness :
  exists out,
    mutt_rand_base32 ["000"; "031"; "255"; "A"] = Some out /\ out = str "a77b".
Proof.
  destruct (rand_base32_alphabet ["000"; "031"; "255"; "A"]) as (out & E & _).
  - vm_compute. discriminate.
  - exists out. split; [exact E |].
    vm_compute in E. injection E as <-. reflexivity.
Defined.

(** X17.  mutt_remove_from_regex_list.  For "*" the list is emptied and 0
    returned.  Otherwise the first entry whose pattern equals the string,
    case ignored, is removed, and only that one, the entries in front of it
    and behind it staying in their order, and 0 is returned; when no entry
    matches the list stays as it is and -1 is returned. *)
Theorem remove_from_regex_list_first_match (same : list ascii -> list ascii -> bool)
        (str : list ascii) :
  str <> ["*"] ->
  (forall l, mutt_remove_from_regex_list same l ["*"] = ([], 0)) /\
  (forall l, forallb (fun p => negb (same str p)) l = true ->
             mutt_remove_from_regex_list same l str = (l, -1)) /\
  (forall pre p post,
     forallb (fun p => negb (same str p)) pre = true -> same str p = true ->
     mutt_remove_from_regex_list same (pre ++ p :: post) str = (pre ++ post, 0)).
Proof.
  intros Hstar.
  assert (Hne : streq ["*"] str = false).
  { unfold streq. destruct (list_eq_dec ascii_dec ["*"] str); [congruence | reflexivity]. }
  split; [reflexivity |].
  unfold mutt_remove_from_regex_list. rewrite Hne. split.
  - induction l as [| p l IH]; intros H; [reflexivity |].
    cbn [forallb] in H. apply andb_true_iff in H as (Hp & H).
    cbn [remove_walk]. apply negb_true_iff in Hp. rewrite Hp, (IH H). reflexivity.
  - induction pre as [| q pre IH]; intros p post H Hp.
    + cbn [app remove_walk]. rewrite Hp. reflexivity.
    + cbn [forallb] in H. apply andb_true_iff in H as (Hq & H).
      cbn [app remove_walk]. apply negb_true_iff in Hq. rewrite Hq, (IH p post H Hp).
      reflexivity.
Qed.

Lemma remove_from_regex_list_first_match_witness :
  mutt_remove_from_regex_list streq [str "a"; str "b"; str "c"; str "b"] (str "b")
  = ([str "a"; str "c"; str "b"], 0).
Proof.
  destruct (remove_from_regex_list_first_match streq (str "b")) as (_ & _ & H).
  - discriminate.
  - apply (H [str "a"] (str "b") [str "c"; str "b"]); reflexivity.
Defined.

Lemma cut_at_any_clean (accept d : list ascii) :
  Forall (fun c => existsb (Ascii.eqb c) accept = false) (cut_at_any accept d).
Proof.
  induction d as [| c r IH]; cbn [cut_at_any]; [constructor |].
  destruct (existsb (Ascii.eqb c) accept) eqn:E; constructor; assumption.
Qed.

Lemma cut_at_any_prefix (accept d : list ascii) :
  exists rest, d = cut_at_any accept d ++ rest.
Proof.
  induction d as [| c r (rest & IH)]; cbn [cut_at_any]; [exists []; reflexivity |].
  destruct (existsb (Ascii.eqb c) accept).
  - exists (c :: r). reflexivity.
  - exists rest. cbn [app]. rewrite <- IH. reflexivity.
Qed.

Lemma tolower_idem (c : ascii) : tolower (tolower c) = tolower c.
Proof. destruct c as [[] [] [] [] [] [] [] []]; reflexivity. Qed.

Lemma tolower_keeps_marks (c : ascii) :
  existsb (Ascii.eqb c) ["%"; "@"] = false ->
  existsb (Ascii.eqb (tolower c)) ["%"; "@"] = false.
Proof. destruct c as [[] [] [] [] [] [] [] []]; intros H; try reflexivity; discriminate. Qed.

Lemma cut_at_any_first (accept local rest : list ascii) :
  Forall (fun c => existsb (Ascii.eqb c) accept = false) local ->
  (rest = [] \/ existsb (Ascii.eqb (hd0 rest)) accept = true) ->
  cut_at_any accept (local ++ rest) = local.
Proof.
  intros Hl Hr. induction Hl as [| c local Hc _ IH]; cbn [app cut_at_any].
  - destruct rest as [| x rest]; [reflexivity |].
    destruct Hr as [Hr | Hr]; [discriminate |]. cbn [hd0 hd] in Hr.
    cbn [cut_at_any]. rewrite Hr. reflexivity.
  - rewrite Hc, IH. reflexivity.
Qed.

(** X18.  mutt_save_path.  Of the mailbox as mutt_str_strfcpy copies it, the part
    in front of the first [%] or [@] is kept, the whole of it when it holds
    neither or when the option OPT_SAVE_ADDRESS is set, and what is kept is
    put in lower case; for an address without a mailbox the name is
    empty. *)
Theorem save_path_lowercase_local_part (H : path_helpers) (dsize : Z)
        (m local rest : list ascii) :
  strfcpy H m dsize = local ++ rest ->
  Forall (fun c => c <> "%" /\ c <> "@") local ->
  rest = [] \/ hd0 rest = "%" \/ hd0 rest = "@" ->
  mutt_save_path H dsize (Some m) =
    map tolower (if save_address H then local ++ rest else local) /\
  Forall (fun c => tolower c = c) (mutt_save_path H dsize (Some m)) /\
  mutt_save_path H dsize None = [].
Proof.
  intros Hcopy Hlocal Hrest. unfold mutt_save_path. rewrite Hcopy.
  split; [| split; [| reflexivity]].
  - destruct (save_address H); [reflexivity |]. f_equal.
    apply cut_at_any_first.
    + eapply Forall_impl; [| exact Hlocal]. intros c (H1 & H2). cbn [existsb].
      apply Ascii.eqb_neq in H1. apply Ascii.eqb_neq in H2. rewrite H1, H2. reflexivity.
    + destruct Hrest as [Hr | [Hr | Hr]]; [left; exact Hr | right | right];
        rewrite Hr; reflexivity.
  - apply Forall_map. apply Forall_forall. intros c _. apply tolower_idem.
Qed.

Lemma save_path_lowercase_local_part_witness :
  mutt_save_path {| strfcpy := fun s n => firstn (Z.to_nat (n - 1)) s;
                    save_address := false;
                    isspace := fun c => Ascii.eqb c " ";
                    isprint := fun c => negb (Ascii.eqb c "007") |}
                 64 (Some (str "Joe%Mail@Example.org")) = str "joe".
Proof.
  apply (save_path_lowercase_local_part
           {| strfcpy := fun s n => firstn (Z.to_nat (n - 1)) s;
              save_address := false;
              isspace := fun c => Ascii.eqb c " ";
              isprint := fun c => negb (Ascii.eqb c "007") |}
           64 (str "Joe%Mail@Example.org") (str "Joe") (str "%Mail@Example.org")).
  - reflexivity.
  - repeat constructor; discriminate.
  - right. left. reflexivity.
Defined.

(** X19.  mutt_safe_path.  When the underscore is printable and no white space,
    the name made safe holds no slash, no white space and no unprintable
    character, and is as long as the name mutt_save_path gives. *)
Theorem safe_path_has_no_unsafe_character (H : path_helpers) (l : Z)
        (mailbox : option (list ascii)) :
  isspace H "_" = false -> isprint H "_" = true ->
  Forall (fun c => c <> "/" /\ isspace H c = false /\ isprint H c = true)
         (mutt_safe_path H l mailbox) /\
  length (mutt_safe_path H l mailbox) = length (mutt_save_path H l mailbox).
Proof.
  intros Hs Hp. unfold mutt_safe_path. split; [| apply length_map].
  apply Forall_map. apply Forall_forall. intros c _. cbv beta.
  destruct (Ascii.eqb_spec c "/") as [-> | Hc]; cbn [orb].
  - split; [discriminate | split; assumption].
  - destruct (isspace H c) eqn:E1; cbn [orb].
    + split; [discriminate | split; assumption].
    + destruct (isprint H c) eqn:E2; cbn [negb].
      * split; [exact Hc | split; assumption].
      * split; [discriminate | split; assumption].
Qed.

Lemma safe_path_has_no_unsafe_character_witness :
  Forall (fun c => c <> "/" /\ Ascii.eqb c " " = false /\ negb (Ascii.eqb c "007") = true)
         (mutt_safe_path {| strfcpy := fun s n => firstn (Z.to_nat (n - 1)) s;
                            save_address := true;
                            isspace := fun c => Ascii.eqb c " ";
                            isprint := fun c => negb (Ascii.eqb c "007") |}
                         64 (Some (str "a b/c@d"))).
Proof.
  apply (safe_path_has_no_unsafe_character
           {| strfcpy := fun s n => firstn (Z.to_nat (n - 1)) s;
              save_address := true;
              isspace := fun c => Ascii.eqb c " ";
              isprint := fun c => negb (Ascii.eqb c "007") |}
           64 (Some (str "a b/c@d"))); reflexivity.
Defined.

Lemma back_to_slash_none : forall (name : list ascii) (pre : list ascii) (rest : list ascii),
  Forall (fun c => c <> "/") name ->
  back_to_slash (pre ++ name ++ rest) (length pre + length name) =
  back_to_slash (pre ++ name ++ rest) (length pre).
Proof.
  intros name. induction name as [| c name IH] using rev_ind; intros pre rest Hn.
  - cbn [length]. rewrite Nat.add_0_r. reflexivity.
  - apply Forall_app in Hn as (Hn & Hc). inversion Hc as [| ? ? Hc' _]; subst.
    rewrite length_app. cbn [length].
    replace (length pre + (length name + 1))%nat with (S (length pre + length name)) by lia.
    cbn [back_to_slash].
    assert (Hnth : nth (length pre + length name) (pre ++ (name ++ [c]) ++ rest) zero = c).
    { rewrite app_nth2 by lia.
      replace (length pre + length name - length pre)%nat with (length name) by lia.
      rewrite <- app_assoc. rewrite app_nth2 by lia. rewrite Nat.sub_diag. reflexivity. }
    rewrite Hnth. destruct (Ascii.eqb_spec c "/"); [contradiction |].
    rewrite <- app_assoc. apply (IH pre ([c] ++ rest) Hn).
Qed.

Lemma back_to_slash_found (d name rest : list ascii) :
  Forall (fun c => c <> "/") name ->
  back_to_slash (d ++ "/" :: name ++ rest) (length d + 1 + length name) = Z.of_nat (length d).
Proof.
  intros Hn.
  replace (d ++ "/" :: name ++ rest) with ((d ++ ["/"]) ++ name ++ rest)
    by (rewrite <- app_assoc; reflexivity).
  replace (length d + 1 + length name)%nat with (length (d ++ ["/"]) + length name)%nat
    by (rewrite length_app; reflexivity).
  rewrite back_to_slash_none by exact Hn.
  rewrite length_app. cbn [length]. rewrite Nat.add_1_r. cbn [back_to_slash].
  rewrite <- app_assoc. rewrite app_nth2 by lia. rewrite Nat.sub_diag. reflexivity.
Qed.

Lemma back_to_slash_absent (name rest : list ascii) :
  Forall (fun c => c <> "/") name ->
  back_to_slash (name ++ rest) (length name) = -1.
Proof.
  intros Hn. apply (back_to_slash_none name [] rest Hn).
Qed.

(** X20.  mutt_get_parent_path, for a path that is no IMAP or notmuch path and
    that mutt_str_strfcpy copies whole, with its terminator, to the start of
    the output: the parent of [d/name], [name] holding no slash and [d] not
    empty, is [d]; the parent of [/name] and of a [name] without a slash is
    [/]. *)
Theorem parent_path_cuts_last_component (S : string_helpers) (H : folder_helpers)
        (output tail : block) (d name : list ascii) (slash : bool) (olen : Z) :
  let path := if slash then d ++ "/" :: name else name in
  mx_is_imap H path = false -> mx_is_notmuch H path = false ->
  mutt_str_strfcpy S output path olen = Ok (path ++ zero :: tail) ->
  Forall (fun c => c <> zero) path ->
  Forall (fun c => c <> "/") name ->
  2 <= len (path ++ zero :: tail) -> len path < 2 ^ 31 ->
  exists m,
    mutt_get_parent_path S H output path olen = Ok m /\
    cstr m = (if slash then match d with [] => ["/"] | _ => d end else ["/"]) /\
    len m = len (path ++ zero :: tail).
Proof.
  intros path Himap Hnm Hcopy Hnz Hname H2 H31.
  assert (P31 : 2 ^ 31 = 2147483648) by reflexivity.
  pose proof (len_nonneg path) as Hp0.
  unfold mutt_get_parent_path. rewrite Himap, Hnm, Hcopy. cbn [bind].
  rewrite cstr_app_zero by exact Hnz.
  rewrite int_small by lia.
  replace (Z.to_nat (len path)) with (length path) by (unfold len; lia).
  assert (Hroot : forall m0 : block, 2 <= len m0 ->
    exists m, (o <- poke m0 0 "/" ;; poke o 1 zero) = Ok m /\ cstr m = ["/"] /\
              len m = len m0).
  { intros m0 Hm0.
    destruct m0 as [| x0 [| x1 m1]]; [cbn in Hm0; lia | |].
    - unfold len in Hm0. cbn [length] in Hm0. lia.
    - eexists. split; [| split].
      + change (poke (x0 :: x1 :: m1) 0 "/") with (poke ([] ++ x0 :: x1 :: m1) (len []) "/").
        rewrite (poke_app [] (x1 :: m1) "/" x0). cbn [bind app].
        apply (poke_app ["/"] m1 zero x1).
      + reflexivity.
      + reflexivity. }
  destruct slash.
  - unfold path in *.
    replace (length (d ++ "/" :: name)) with (length d + 1 + length name)%nat
      by (rewrite length_app; cbn [length]; lia).
    rewrite <- app_assoc. cbn [app].
    rewrite back_to_slash_found by exact Hname.
    destruct d as [| c0 d'].
    + cbn [length Z.of_nat]. change (0 >? 0) with false. cbv iota.
      apply Hroot. exact H2.
    + destruct (Z.gtb_spec (Z.of_nat (length (c0 :: d'))) 0); [| cbn [length] in *; lia].
      assert (Hd : Forall (fun c => c <> zero) (c0 :: d')).
      { apply Forall_app in Hnz. apply Hnz. }
      set (dd := c0 :: d') in *.
      change (Z.of_nat (length dd)) with (len dd).
      rewrite (poke_app dd (name ++ zero :: tail) zero "/").
      eexists. split; [reflexivity |]. split.
      * apply cstr_app_zero. exact Hd.
      * rewrite !len_app, !len_cons, !len_app, !len_cons. reflexivity.
  - unfold path in *. rewrite back_to_slash_absent by exact Hname.
    change (-1 >? 0) with false. cbv iota.
    apply Hroot. exact H2.
Qed.

Lemma parent_path_cuts_last_component_witness :
  exists m,
    mutt_get_parent_path
      {| mutt_str_strfcpy := fun dest src n =>
           memcpy dest 0 (firstn (Z.to_nat (n - 1)) src ++ [zero]);
         mutt_str_strcat := fun dest _ _ => Ok dest |}
      {| mx_is_imap := fun _ => false;
         mx_is_notmuch := fun _ => false;
         imap_get_parent_path := fun dest _ _ => Ok dest;
         Folder := [] |}
      (repeat "x" 32) (str "/var/mail/joe") 32 = Ok m /\
    cstr m = str "/var/mail".
Proof.
  destruct (parent_path_cuts_last_component
              {| mutt_str_strfcpy := fun dest src n =>
                   memcpy dest 0 (firstn (Z.to_nat (n - 1)) src ++ [zero]);
                 mutt_str_strcat := fun dest _ _ => Ok dest |}
              {| mx_is_imap := fun _ => false;
                 mx_is_notmuch := fun _ => false;
                 imap_get_parent_path := fun dest _ _ => Ok dest;
                 Folder := [] |}
              (repeat "x" 32) (repeat "x" 18) (str "/var/mail") (str "joe") true 32)
    as (m & Hm & Hc & _);
    [ reflexivity | reflexivity | reflexivity
    | repeat constructor; discriminate
    | repeat constructor; discriminate
    | discriminate | reflexivity | ].
  exists m. split; [exact Hm | exact Hc].
Defined.

Lemma strrchr_absent : forall x : list ascii,
  Forall (fun c => c <> "/") x -> strrchr x "/" = None.
Proof.
  induction 1 as [| c x Hc _ IH]; [reflexivity |].
  cbn [strrchr]. rewrite IH. destruct (Ascii.eqb_spec c "/"); [contradiction | reflexivity].
Qed.

Lemma strrchr_last : forall d x : list ascii,
  Forall (fun c => c <> "/") x -> strrchr (d ++ "/" :: x) "/" = Some (len d).
Proof.
  induction d as [| c d IH]; intros x Hx.
  - cbn [app strrchr]. rewrite strrchr_absent by exact Hx. reflexivity.
  - cbn [app strrchr]. rewrite IH by exact Hx. rewrite len_cons. reflexivity.
Qed.

Lemma strrchr_from : forall d y : list ascii,
  exists k, strrchr (d ++ "/" :: y) "/" = Some k /\ len d <= k.
Proof.
  induction d as [| c d IH]; intros y.
  - cbn [app strrchr]. destruct (strrchr y "/") as [k |] eqn:Hy.
    + exists (1 + k). split; [reflexivity |].
      assert (0 <= k); [| unfold len; cbn [length]; lia].
      clear - Hy. revert k Hy. induction y as [| c y IH]; intros k Hy; [discriminate |].
      cbn [strrchr] in Hy. destruct (strrchr y "/") as [j |].
      * assert (k = 1 + j) by congruence. specialize (IH j eq_refl). lia.
      * destruct (Ascii.eqb c "/"); [assert (k = 0) by congruence; lia | discriminate].
    + exists 0. split; [reflexivity | unfold len; cbn [length]; lia].
  - destruct (IH y) as (k & Hk & Hle). exists (1 + k).
    cbn [app strrchr]. rewrite Hk. split; [reflexivity | rewrite len_cons; lia].
Qed.

Lemma peek_at (d r : list ascii) (c : ascii) : peek (d ++ c :: r) (len d) = c.
Proof.
  unfold peek, len. rewrite Nat2Z.id. rewrite app_nth2 by lia.
  rewrite Nat.sub_diag. reflexivity.
Qed.

Lemma peek_after (d r : list ascii) (c : ascii) : peek (d ++ c :: r) (len d + 1) = hd0 r.
Proof.
  unfold peek, len. replace (Z.to_nat (Z.of_nat (length d) + 1)) with (S (length d)) by lia.
  rewrite app_nth2 by lia. replace (S (length d) - length d)%nat with 1%nat by lia.
  destruct r; reflexivity.
Qed.

Lemma advance_after (d r : list ascii) (c : ascii) : advance (len d + 1) (d ++ c :: r) = r.
Proof.
  unfold advance, len. replace (Z.to_nat (Z.of_nat (length d) + 1)) with (S (length d)) by lia.
  replace (d ++ c :: r) with ((d ++ [c]) ++ r) by (rewrite <- app_assoc; reflexivity).
  rewrite skipn_app, skipn_all2 by (rewrite length_app; cbn; lia).
  rewrite length_app. cbn [length app].
  replace (S (length d) - (length d + 1))%nat with 0%nat by lia. reflexivity.
Qed.

(** X21.  mutt_inbox_cmp on two paths below one folder [d], [d/x] and [d/y],
    where [d] does not start with an equals sign, [x] and [y] are not empty
    and one of them holds no slash: when mutt_str_strncasecmp finds the two
    copies of [d] equal, the result is -1 if [x] compares equal to "inbox",
    else 1 if [y] does, else 0. *)
Theorem inbox_cmp_common_folder (H : case_helpers) (d x y : list ascii) :
  hd0 d <> "=" ->
  hd0 x <> zero -> hd0 y <> zero ->
  Forall (fun c => c <> "/") x \/ Forall (fun c => c <> "/") y ->
  mutt_str_strncasecmp H (d ++ "/" :: x) (d ++ "/" :: y) (len d) = 0 ->
  mutt_inbox_cmp H (d ++ "/" :: x) (d ++ "/" :: y) =
    if mutt_str_strcasecmp H x (str "inbox") =? 0 then -1
    else if mutt_str_strcasecmp H y (str "inbox") =? 0 then 1
    else 0.
Proof.
  intros Hd Hx Hy Hxy Hsame. unfold mutt_inbox_cmp.
  assert (Hfast : Ascii.eqb (hd0 (d ++ "/" :: x)) "=" = false).
  { destruct d as [| c d]; [reflexivity |]. cbn [app hd0 hd] in *.
    destruct (Ascii.eqb_spec c "="); [contradiction | reflexivity]. }
  rewrite Hfast. cbn [andb].
  assert (Hmin : exists ka kb, strrchr (d ++ "/" :: x) "/" = Some ka /\
                               strrchr (d ++ "/" :: y) "/" = Some kb /\
                               Z.min ka kb = len d).
  { destruct Hxy as [Hn | Hn].
    - destruct (strrchr_from d y) as (kb & Hb & Hle).
      exists (len d), kb. rewrite (strrchr_last d x) by exact Hn. repeat split; [exact Hb | lia].
    - destruct (strrchr_from d x) as (ka & Ha & Hle).
      exists ka, (len d). rewrite (strrchr_last d y) by exact Hn. repeat split; [exact Ha | lia]. }
  destruct Hmin as (ka & kb & -> & -> & Hm). cbv zeta. rewrite Hm.
  rewrite !peek_at, !peek_after, !advance_after, Hsame.
  unfold is_nul.
  destruct (Ascii.eqb_spec (hd0 x) zero); [contradiction |].
  destruct (Ascii.eqb_spec (hd0 y) zero); [contradiction |].
  reflexivity.
Qed.

Lemma inbox_cmp_common_folder_witness :
  mutt_inbox_cmp {| mutt_str_strcasecmp := fun s t =>
                      if list_eq_dec ascii_dec (map tolower s) (map tolower t) then 0 else 1;
                    mutt_str_strncasecmp := fun s t n =>
                      if list_eq_dec ascii_dec (map tolower (firstn (Z.to_nat n) s))
                                     (map tolower (firstn (Z.to_nat n) t)) then 0 else 1 |}
                 (str "/home/me/Sent") (str "/home/me/INBOX") = 1.
Proof.
  apply (inbox_cmp_common_folder
           {| mutt_str_strcasecmp := fun s t =>
                if list_eq_dec ascii_dec (map tolower s) (map tolower t) then 0 else 1;
              mutt_str_strncasecmp := fun s t n =>
                if list_eq_dec ascii_dec (map tolower (firstn (Z.to_nat n) s))
                               (map tolower (firstn (Z.to_nat n) t)) then 0 else 1 |}
           (str "/home/me") (str "Sent") (str "INBOX"));
    [ discriminate | discriminate | discriminate
    | left; repeat constructor; discriminate
    | reflexivity ].
Defined.

Section ExpandFmt.

Variable S : string_helpers.
Variable src : list ascii.

Hypothesis src_text : Forall (fun c => c <> zero) src.
Hypothesis src_size : len src < 2 ^ 64.
Hypothesis copies : forall (m : block) (n : Z), 1 <= n <= len m ->
  exists tail,
    mutt_str_strfcpy S m src n = Ok (firstn (Z.to_nat (n - 1)) src ++ zero :: tail) /\
    len (firstn (Z.to_nat (n - 1)) src ++ zero :: tail) = len m.

Lemma len_firstn (k : Z) (s : list ascii) : 0 <= k -> len (firstn (Z.to_nat k) s) = Z.min k (len s).
Proof. intros Hk. unfold len. rewrite length_firstn. lia. Qed.

Lemma expand_poke (pre rest : block) (c : ascii) :
  0 < len rest ->
  exists rest', poke (pre ++ rest) (len pre) c = Ok ((pre ++ [c]) ++ rest') /\
                len rest' = len rest - 1.
Proof.
  intros Hr. destruct rest as [| x rest]; [cbn in Hr; lia |].
  exists rest. rewrite poke_app. rewrite <- app_assoc. split; [reflexivity |].
  rewrite len_cons. lia.
Qed.

Lemma expand_loop_spec : forall (n : nat) (p : list ascii), (length p <= n)%nat ->
  Forall (fun c => c <> zero) p ->
  forall (pre rest : block) (destlen : Z) (found : bool),
  0 <= destlen < 2 ^ 64 - 1 -> destlen < len rest ->
  exists rest' found',
    let t := firstn (Z.to_nat destlen) (expanded p src) in
    expand_loop S src (size_t (len src)) p (pre ++ rest) (len pre) destlen found =
      Ok ((pre ++ t) ++ rest', len pre + len t, destlen - len t, found') /\
    len rest' = len rest - len t /\
    (found' = false -> destlen - len t = 0 \/ (found = false /\ uses_src p = false)).
Proof.
  assert (P64 : 2 ^ 64 = 18446744073709551616) by reflexivity.
  pose proof (len_nonneg src) as Hs0.
  rewrite (size_t_small (len src)) by lia.
  induction n as [| n IH]; intros p Hn Hp pre rest destlen found Hd Hroom.
  - destruct p; [| cbn in Hn; lia].
    exists rest, found. cbn [expanded expand_loop uses_src]. rewrite firstn_nil.
    rewrite app_nil_r. change (len []) with 0. rewrite Z.add_0_r, Z.sub_0_r.
    split; [reflexivity |]. split; [lia |]. intros ->. right. split; reflexivity.
  - destruct p as [| c r].
    + exists rest, found. cbn [expanded expand_loop uses_src]. rewrite firstn_nil.
      rewrite app_nil_r. change (len []) with 0. rewrite Z.add_0_r, Z.sub_0_r.
      split; [reflexivity |]. split; [lia |]. intros ->. right. split; reflexivity.
    + cbn [length] in Hn. inversion Hp as [| ? ? Hc Hr]; subst.
      cbn [expand_loop]. destruct (Z.eqb_spec destlen 0) as [-> | Hd0].
      * exists rest, found. cbn [Z.to_nat firstn]. rewrite app_nil_r.
        change (len []) with 0. rewrite Z.add_0_r.
        split; [reflexivity |]. split; [lia |]. intros _. left. reflexivity.
      * assert (Hplain : forall q : list ascii, (length q <= n)%nat ->
                  Forall (fun c => c <> zero) q ->
                  exists rest' found',
                    (dest <- poke (pre ++ rest) (len pre) c ;;
                     expand_loop S src (len src) q dest (len pre + 1)
                                 (size_t (destlen - 1)) found) =
                    Ok ((pre ++ firstn (Z.to_nat destlen) (c :: expanded q src)) ++ rest',
                        len pre + len (firstn (Z.to_nat destlen) (c :: expanded q src)),
                        destlen - len (firstn (Z.to_nat destlen) (c :: expanded q src)),
                        found') /\
                    len rest' = len rest - len (firstn (Z.to_nat destlen) (c :: expanded q src)) /\
                    (found' = false ->
                     destlen - len (firstn (Z.to_nat destlen) (c :: expanded q src)) = 0 \/
                     (found = false /\ uses_src q = false))).
        { intros q Hq Hqz.
          destruct (expand_poke pre rest c) as (rest1 & -> & Hl1); [lia |].
          cbn [bind]. rewrite size_t_small by lia.
          destruct (IH q Hq Hqz (pre ++ [c]) rest1 (destlen - 1) found) as
            (rest' & found' & Hrun & Hlen & Hf); [lia | lia |].
          cbv zeta in Hrun. rewrite len_app in Hrun. change (len [c]) with 1 in Hrun.
          rewrite Hrun. exists rest', found'.
          replace (Z.to_nat destlen) with (Datatypes.S (Z.to_nat (destlen - 1))) by lia.
          cbn [firstn]. rewrite len_cons.
          split; [| split].
          - f_equal. f_equal. f_equal; [f_equal |]; try lia.
            rewrite <- !app_assoc. reflexivity.
          - lia.
          - intros Hfalse. destruct (Hf Hfalse) as [Hz | Hz]; [left; lia | right; exact Hz]. }
        destruct (Ascii.eqb_spec c "%") as [-> | Hpc].
        -- destruct r as [| x r'].
           ++ cbn [expanded uses_src]. rewrite Ascii.eqb_refl.
              apply (Hplain []); [cbn; lia | constructor].
           ++ cbn [expanded uses_src]. rewrite Ascii.eqb_refl.
              inversion Hr as [| ? ? Hx Hr']; subst. cbn [length] in Hn.
              destruct (Ascii.eqb_spec x "%") as [-> | Hxp].
              ** apply (Hplain r'); [lia | exact Hr'].
              ** destruct (Ascii.eqb_spec x "s") as [-> | Hxs].
                 --- unfold at_offset.
                     pose proof (len_nonneg pre) as Hpre0.
                     replace ((0 <=? len pre) && (len pre <=? len (pre ++ rest))) with true
                       by (symmetry; apply andb_true_iff; rewrite len_app; split;
                           apply Z.leb_le; lia).
                     replace (skipn (Z.to_nat (len pre)) (pre ++ rest)) with rest
                       by (unfold len; rewrite Nat2Z.id, skipn_app, skipn_all, Nat.sub_diag;
                           reflexivity).
                     replace (firstn (Z.to_nat (len pre)) (pre ++ rest)) with pre
                       by (unfold len; rewrite Nat2Z.id, firstn_app, firstn_all, Nat.sub_diag;
                           cbn [firstn]; rewrite app_nil_r; reflexivity).
                     rewrite (size_t_small (destlen + 1)) by lia.
                     destruct (copies rest (destlen + 1)) as (tail & -> & Hl); [lia |].
                     cbn [bind]. replace (destlen + 1 - 1) with destlen in * by lia.
                     set (piece := firstn (Z.to_nat destlen) src) in *.
                     assert (Hpiece : len piece = Z.min destlen (len src)).
                     { unfold piece. apply len_firstn. lia. }
                     assert (Hn' : (if destlen >? len src then len src else destlen) = len piece).
                     { destruct (Z.gtb_spec destlen (len src)); lia. }
                     rewrite Hn'. rewrite size_t_small by lia.
                     replace (pre ++ piece ++ zero :: tail) with ((pre ++ piece) ++ zero :: tail)
                       by (rewrite <- app_assoc; reflexivity).
                     replace (len pre + len piece) with (len (pre ++ piece))
                       by (rewrite len_app; reflexivity).
                     rewrite len_app, len_cons in Hl.
                     destruct (IH r' ltac:(lia) Hr' (pre ++ piece) (zero :: tail)
                                  (destlen - len piece) true) as
                       (rest' & found' & Hrun & Hlen & Hf);
                       [lia | rewrite len_cons; lia |].
                     cbv zeta in Hrun. rewrite Hrun. exists rest', found'.
                     assert (Hcut : firstn (Z.to_nat destlen) (src ++ expanded r' src) =
                                    piece ++ firstn (Z.to_nat (destlen - len piece))
                                                    (expanded r' src)).
                     { rewrite firstn_app. fold piece. f_equal. f_equal.
                       unfold len in *. lia. }
                     rewrite Hcut. rewrite !len_app. rewrite len_cons in Hlen.
                     split; [| split].
                     +++ f_equal. f_equal. f_equal; [f_equal |]; try lia.
                         rewrite <- !app_assoc. reflexivity.
                     +++ lia.
                     +++ intros Hfalse. destruct (Hf Hfalse) as [Hz | (Hz & _)];
                           [left; lia | discriminate].
                 --- pose proof (Hplain (x :: r') ltac:(cbn [length]; lia) Hr) as HP.
                     cbn [expanded uses_src] in HP.
                     destruct (Ascii.eqb_spec x "%") as [| _] in HP; [contradiction |].
                     exact HP.
        -- cbn [expanded uses_src].
           destruct (Ascii.eqb_spec c "%") as [| _]; [contradiction |].
           apply (Hplain r); [lia | exact Hr].
Qed.

Lemma expanded_no_nul : forall (n : nat) (fmt : list ascii), (length fmt <= n)%nat ->
  Forall (fun c => c <> zero) fmt -> Forall (fun c => c <> zero) (expanded fmt src).
Proof.
  induction n as [| n IH]; intros fmt Hn Hf.
  - destruct fmt; [constructor | cbn in Hn; lia].
  - destruct fmt as [| c r]; [constructor |].
    cbn [length] in Hn. inversion Hf as [| ? ? Hc Hr]; subst. cbn [expanded].
    assert (Hplain : Forall (fun c => c <> zero) (c :: expanded r src)).
    { constructor; [exact Hc | apply IH; [lia | exact Hr]]. }
    destruct (Ascii.eqb c "%"); [| exact Hplain].
    destruct r as [| x r']; [exact Hplain |].
    inversion Hr as [| ? ? Hx Hr']; subst. cbn [length] in Hn.
    destruct (Ascii.eqb x "%"); [constructor; [exact Hc | apply IH; [lia | exact Hr']] |].
    destruct (Ascii.eqb x "s"); [| exact Hplain].
    apply Forall_app. split; [exact src_text | apply IH; [lia | exact Hr']].
Qed.

(** X22.  mutt_expand_fmt, when the format holds a [%s] or its expansion fills
    the destination: the string left in [dest] is the format with [src] for
    each [%s] and a percent sign for each [%%], cut to [destlen - 1]
    characters; mutt_str_strcat is not called. *)
Theorem expand_fmt_substitutes (dest : block) (destlen : Z) (fmt : list ascii) :
  Forall (fun c => c <> zero) fmt ->
  1 <= destlen <= len dest -> destlen < 2 ^ 64 ->
  uses_src fmt = true \/ destlen - 1 <= len (expanded fmt src) ->
  exists m,
    mutt_expand_fmt S dest destlen fmt src = Ok m /\
    cstr m = firstn (Z.to_nat (destlen - 1)) (expanded fmt src) /\
    len m = len dest.
Proof.
  intros Hfmt Hd H64 Hcase.
  assert (P64 : 2 ^ 64 = 18446744073709551616) by reflexivity.
  unfold mutt_expand_fmt. rewrite (size_t_small (destlen - 1)) by lia.
  destruct (expand_loop_spec (length fmt) fmt (Nat.le_refl _) Hfmt [] dest (destlen - 1) false)
    as (rest' & found' & Hrun & Hlen & Hf); [lia | lia |].
  cbv zeta in Hrun. cbn [app] in Hrun. change (len []) with 0 in Hrun.
  rewrite Hrun. cbn [bind].
  set (t := firstn (Z.to_nat (destlen - 1)) (expanded fmt src)) in *.
  assert (Ht : len t = Z.min (destlen - 1) (len (expanded fmt src))).
  { unfold t. apply len_firstn. lia. }
  destruct rest' as [| x rest']; [change (len []) with 0 in Hlen; lia |].
  rewrite Z.add_0_l. rewrite poke_app. cbn [bind].
  assert (Hskip : negb found' && (destlen - 1 - len t >? 0) = false).
  { destruct found'; [reflexivity |]. cbn [negb andb].
    destruct (Hf eq_refl) as [Hz | (_ & Hu)].
    - rewrite Hz. reflexivity.
    - destruct Hcase as [Hs | Hfull]; [congruence |].
      replace (destlen - 1 - len t) with 0 by lia. reflexivity. }
  rewrite Hskip. eexists. split; [reflexivity |]. split.
  - apply cstr_app_zero. unfold t.
    pose proof (expanded_no_nul (length fmt) fmt (Nat.le_refl _) Hfmt) as Hz.
    rewrite <- (firstn_skipn (Z.to_nat (destlen - 1)) (expanded fmt src)) in Hz.
    apply Forall_app in Hz. apply Hz.
  - rewrite len_app, len_cons. rewrite len_cons in Hlen. lia.
Qed.

End ExpandFmt.

Lemma expand_fmt_substitutes_witness :
  exists m,
    mutt_expand_fmt
      {| mutt_str_strfcpy := fun dest src n =>
           memcpy dest 0 (firstn (Z.to_nat (n - 1)) src ++ [zero]);
         mutt_str_strcat := fun dest _ _ => Ok dest |}
      (repeat "x" 32) 32 (str "cat %s | wc 100%%") (str "'a b'") = Ok m /\
    cstr m = str "cat 'a b' | wc 100%".
Proof.
  assert (Hcopies : forall (m : block) (n : Z), 1 <= n <= len m ->
    exists tail,
      memcpy m 0 (firstn (Z.to_nat (n - 1)) (str "'a b'") ++ [zero]) =
        Ok (firstn (Z.to_nat (n - 1)) (str "'a b'") ++ zero :: tail) /\
      len (firstn (Z.to_nat (n - 1)) (str "'a b'") ++ zero :: tail) = len m).
  { intros m n Hn.
    assert (Hl : len (firstn (Z.to_nat (n - 1)) (str "'a b'") ++ [zero]) <= len m).
    { rewrite len_app. unfold len at 1. rewrite length_firstn. change (len [zero]) with 1. lia. }
    exists (skipn (Z.to_nat 0 + length (firstn (Z.to_nat (n - 1)) (str "'a b'") ++ [zero])) m).
    rewrite memcpy_Ok by lia. cbn [Z.to_nat firstn app]. rewrite <- app_assoc.
    split; [reflexivity |].
    change (zero :: skipn (0 + length (firstn (Z.to_nat (n - 1)) (str "'a b'") ++ [zero])) m)
      with ([zero] ++ skipn (0 + length (firstn (Z.to_nat (n - 1)) (str "'a b'") ++ [zero])) m).
    rewrite app_assoc. rewrite len_app. unfold len in *. rewrite length_skipn. lia. }
  destruct (expand_fmt_substitutes
              {| mutt_str_strfcpy := fun dest src n =>
                   memcpy dest 0 (firstn (Z.to_nat (n - 1)) src ++ [zero]);
                 mutt_str_strcat := fun dest _ _ => Ok dest |}
              (str "'a b'")
              ltac:(repeat constructor; discriminate) ltac:(reflexivity) Hcopies
              (repeat "x" 32) 32 (str "cat %s | wc 100%%"))
    as (m & Hm & Hc & _);
    [ repeat constructor; discriminate | split; discriminate | reflexivity
    | left; reflexivity | ].
  exists m. split; [exact Hm | exact Hc].
Defined.
